(** * lf, misc.go: text utilities

    A shallow embedding of the text utilities of [misc.go]: the backslash
    escaper and tokenizer, the quote-aware line parser [readArrays], the
    natural-order comparison [naturalLess], the display-width slicer and the
    locale helpers, followed by the properties the specification states
    about them.

    Conventions.
    - A Go [string] is a sequence of bytes ([list byte]).  [for _, r := range s]
      decodes UTF-8 and yields U+FFFD for every byte that starts no valid
      encoding; [string(buf)] on a [[]rune] encodes UTF-8.  Both are written
      out below, after the package [unicode/utf8].
    - A [rune] (int32) and an [int] (64 bits) are integers of [Z]; the only
      arithmetic on them is the addition of display widths and comparisons,
      far from the ends of their ranges.
    - A [nil] slice and an empty slice are both the empty list. *)

From Stdlib Require Import ZArith List Bool Lia.
From Stdlib Require Import Strings.Byte.
From Stdlib Require Strings.String Numbers.DecimalString.
Import String.StringSyntax.
Import ListNotations.

Local Open Scope Z_scope.

(** ** Strings, bytes and runes *)

Definition gostring : Type := list byte.
Definition rune : Type := Z.

(** A string literal, as its bytes. *)
Delimit Scope string_scope with string.
Definition str (s : String.string) : gostring := String.list_byte_of_string s.
Arguments str s%_string.

Definition Z_of_byte (b : byte) : Z := Z.of_N (Byte.to_N b).

Definition byte_of_Z (z : Z) : byte :=
  match Byte.of_N (Z.to_N z) with
  | Some b => b
  | None => x00
  end.

(** The runes the code names. *)
Definition r_backslash : rune := 92.  (* backslash *)
Definition r_semicolon : rune := 59.  (* semicolon *)
Definition r_hash : rune := 35.       (* hash sign *)
Definition r_squote : rune := 39.     (* single quote *)
Definition r_dquote : rune := 34.     (* double quote *)

(** ** unicode/utf8 *)

Definition RuneError : rune := 65533. (* U+FFFD *)

(** A continuation byte, 0x80..0xBF. *)
Definition isCont (x : Z) : bool := (128 <=? x) && (x <=? 191).

(** [utf8.DecodeRuneInString]: the first rune of [s] and its width in bytes;
    [(RuneError, 1)] when [s] starts with no valid encoding (also for overlong
    forms, surrogates and values above U+10FFFF, which the second byte's
    accepted range excludes), [(RuneError, 0)] on the empty string. *)
Definition decodeRune (s : gostring) : rune * nat :=
  match s with
  | [] => (RuneError, 0%nat)
  | b0 :: t =>
    let s0 := Z_of_byte b0 in
    if s0 <? 128 then (s0, 1%nat)
    else if (194 <=? s0) && (s0 <=? 223) then
      match t with
      | b1 :: _ =>
        let s1 := Z_of_byte b1 in
        if isCont s1 then ((s0 - 192) * 64 + (s1 - 128), 2%nat)
        else (RuneError, 1%nat)
      | _ => (RuneError, 1%nat)
      end
    else if (224 <=? s0) && (s0 <=? 239) then
      match t with
      | b1 :: b2 :: _ =>
        let s1 := Z_of_byte b1 in
        let s2 := Z_of_byte b2 in
        let lo := if s0 =? 224 then 160 else 128 in
        let hi := if s0 =? 237 then 159 else 191 in
        if (lo <=? s1) && (s1 <=? hi) && isCont s2
        then ((s0 - 224) * 4096 + (s1 - 128) * 64 + (s2 - 128), 3%nat)
        else (RuneError, 1%nat)
      | _ => (RuneError, 1%nat)
      end
    else if (240 <=? s0) && (s0 <=? 244) then
      match t with
      | b1 :: b2 :: b3 :: _ =>
        let s1 := Z_of_byte b1 in
        let s2 := Z_of_byte b2 in
        let s3 := Z_of_byte b3 in
        let lo := if s0 =? 240 then 144 else 128 in
        let hi := if s0 =? 244 then 143 else 191 in
        if (lo <=? s1) && (s1 <=? hi) && isCont s2 && isCont s3
        then ((s0 - 240) * 262144 + (s1 - 128) * 4096
              + (s2 - 128) * 64 + (s3 - 128), 4%nat)
        else (RuneError, 1%nat)
      | _ => (RuneError, 1%nat)
      end
    else (RuneError, 1%nat)
  end.

(** [for i, r := range s]: the byte index and the rune of every iteration.
    [skip] counts the bytes of the current rune still to be passed. *)
Fixpoint rangeFrom (skip : nat) (i : nat) (s : gostring) : list (nat * rune) :=
  match s with
  | [] => []
  | _ :: t =>
    match skip with
    | S k => rangeFrom k (S i) t
    | O => let (r, size) := decodeRune s in
           (i, r) :: rangeFrom (Nat.pred size) (S i) t
    end
  end.

Definition rangeStr (s : gostring) : list (nat * rune) := rangeFrom 0 0 s.

(** The runes of [for _, r := range s]. *)
Definition runesOf (s : gostring) : list rune := map snd (rangeStr s).

(** [utf8.AppendRune] on an empty buffer: the encoding of [r]; U+FFFD is
    encoded for a surrogate or a value outside 0..0x10FFFF. *)
Definition encodeRune (r : rune) : gostring :=
  if (0 <=? r) && (r <=? 127) then [byte_of_Z r]
  else if (0 <=? r) && (r <=? 2047) then
    [byte_of_Z (192 + r / 64); byte_of_Z (128 + r mod 64)]
  else if (0 <=? r) && ((r <? 55296) || ((57343 <? r) && (r <=? 65535))) then
    [byte_of_Z (224 + r / 4096); byte_of_Z (128 + (r / 64) mod 64);
     byte_of_Z (128 + r mod 64)]
  else if (65535 <? r) && (r <=? 1114111) then
    [byte_of_Z (240 + r / 262144); byte_of_Z (128 + (r / 4096) mod 64);
     byte_of_Z (128 + (r / 64) mod 64); byte_of_Z (128 + r mod 64)]
  else [xef; xbf; xbd].

(** [string(buf)] for [buf : []rune]. *)
Definition stringOfRunes (rs : list rune) : gostring := flat_map encodeRune rs.

(** [utf8.ValidString]: no iteration of [range s] meets an invalid byte. *)
Fixpoint validFrom (skip : nat) (s : gostring) : bool :=
  match s with
  | [] => Nat.eqb skip 0
  | _ :: t =>
    match skip with
    | S k => validFrom k t
    | O => let (r, size) := decodeRune s in
           negb ((r =? RuneError) && Nat.eqb size 1) && validFrom (Nat.pred size) t
    end
  end.

Definition validString (s : gostring) : bool := validFrom 0 s.

(** A rune that [range] can yield and [string(...)] encodes as itself: a
    Unicode scalar value. *)
Definition validRune (r : rune) : bool :=
  (0 <=? r) && (r <=? 1114111) && negb ((55296 <=? r) && (r <=? 57343)).

(** ** unicode *)

(** [unicode.IsSpace]: the Latin-1 spaces and the other code points of the
    White_Space property. *)
Definition isSpace (r : rune) : bool :=
  ((9 <=? r) && (r <=? 13)) || (r =? 32) || (r =? 133) || (r =? 160)
  || (r =? 5760) || ((8192 <=? r) && (r <=? 8202))
  || (r =? 8232) || (r =? 8233) || (r =? 8239) || (r =? 8287) || (r =? 12288).

(** ** Escaper *)

(** The runes [escape] prefixes with a backslash and [unescape] accepts after
    one. *)
Definition isSpecial (r : rune) : bool :=
  isSpace r || (r =? r_backslash) || (r =? r_semicolon) || (r =? r_hash).

(** The loop of [escape] over the runes still to read, with [buf]. *)
Fixpoint escape_loop (rs : list rune) (buf : list rune) : list rune :=
  match rs with
  | [] => buf
  | r :: rs' =>
    let buf := if isSpecial r then buf ++ [r_backslash] else buf in
    escape_loop rs' (buf ++ [r])
  end.

Definition escape (s : gostring) : gostring :=
  stringOfRunes (escape_loop (runesOf s) []).

(** The loop of [unescape], with [esc] and [buf]; the result is [buf] with the
    pending backslash, if any, appended after the loop. *)
Fixpoint unescape_loop (rs : list rune) (esc : bool) (buf : list rune) : list rune :=
  match rs with
  | [] => if esc then buf ++ [r_backslash] else buf
  | r :: rs' =>
    if esc then
      let buf := if negb (isSpecial r) then buf ++ [r_backslash] else buf in
      unescape_loop rs' false (buf ++ [r])
    else if r =? r_backslash then unescape_loop rs' true buf
    else unescape_loop rs' false (buf ++ [r])
  end.

Definition unescape (s : gostring) : gostring :=
  stringOfRunes (unescape_loop (runesOf s) false []).

(** ** Tokenizer *)

(** The loop of [tokenize], with [esc], [buf] and [toks]; the last token is
    appended after the loop. *)
Fixpoint tokenize_loop (rs : list rune) (esc : bool) (buf : list rune)
    (toks : list gostring) : list gostring :=
  match rs with
  | [] => toks ++ [stringOfRunes buf]
  | r :: rs' =>
    if r =? r_backslash then tokenize_loop rs' true (buf ++ [r]) toks
    else if esc then tokenize_loop rs' false (buf ++ [r]) toks
    else if negb (isSpace r) then tokenize_loop rs' esc (buf ++ [r]) toks
    else tokenize_loop rs' esc [] (toks ++ [stringOfRunes buf])
  end.

Definition tokenize (s : gostring) : list gostring :=
  tokenize_loop (runesOf s) false [] [].

(** ** bufio.Scanner with the default split function ScanLines *)

Definition b_newline : byte := x0a.
Definition b_return : byte := x0d.

(** The string of one newline. *)
Definition nl : gostring := [b_newline].

(** [bufio.MaxScanTokenSize]: the scanner's buffer holds at most 64 KiB. *)
Definition maxScanTokenSize : Z := 65536.

(** [dropCR]: a line without its final carriage return. *)
Definition dropCR (data : gostring) : gostring :=
  match rev data with
  | b :: rest => if Byte.eqb b b_return then rev rest else data
  | [] => data
  end.

(** The lines [s.Scan()] / [s.Text()] deliver for a reader that yields the
    bytes [data] and then end of file.  [cur] holds the bytes of the line
    being read.  Every newline ends a line; a last line without newline is
    delivered when it is not empty.  The scan stops, with an error that
    [readArrays] never asks for, at a line that does not fit the buffer
    together with its newline. *)
Fixpoint scan_loop (data : gostring) (cur : gostring) : list gostring :=
  match data with
  | [] =>
    match cur with
    | [] => []
    | _ => if Z.of_nat (length cur) <? maxScanTokenSize then [dropCR cur] else []
    end
  | b :: t =>
    if Byte.eqb b b_newline then
      if Z.of_nat (length cur) <? maxScanTokenSize
      then dropCR cur :: scan_loop t []
      else []
    else scan_loop t (cur ++ [b])
  end.

Definition scanLines (data : gostring) : list gostring := scan_loop data [].

(** ** strings.TrimSpace and strings.FieldsFunc *)

Definition byteAt (s : gostring) (i : Z) : byte := nth (Z.to_nat i) s x00.

(** [s[b:e]]. *)
Definition substr (s : gostring) (b e : nat) : gostring :=
  firstn (e - b) (skipn b s).

(** [utf8.RuneStart]: not a continuation byte. *)
Definition runeStart (b : byte) : bool := negb (isCont (Z_of_byte b)).

(** The backward search of [utf8.DecodeLastRuneInString] for the start of the
    last rune: from [start] down to [lim], at most three bytes back. *)
Fixpoint lastRuneStart (fuel : nat) (s : gostring) (start lim : Z) : Z :=
  if start <? lim then start
  else match fuel with
       | O => start
       | S f => if runeStart (byteAt s start) then start
                else lastRuneStart f s (start - 1) lim
       end.

(** [utf8.DecodeLastRuneInString]. *)
Definition decodeLastRune (s : gostring) : rune * nat :=
  let e := Z.of_nat (length s) in
  if e =? 0 then (RuneError, 0%nat)
  else
    let r := Z_of_byte (byteAt s (e - 1)) in
    if r <? 128 then (r, 1%nat)
    else
      let lim := Z.max 0 (e - 4) in
      let start := lastRuneStart 4 s (e - 2) lim in
      let start := Z.max 0 start in
      let (r, size) := decodeRune (skipn (Z.to_nat start) s) in
      if start + Z.of_nat size =? e then (r, size) else (RuneError, 1%nat).

(** [strings.TrimLeftFunc(s, unicode.IsSpace)]. *)
Definition trimLeftSpace (s : gostring) : gostring :=
  match find (fun ir => negb (isSpace (snd ir))) (rangeStr s) with
  | Some (i, _) => skipn i s
  | None => []
  end.

(** [lastIndexFunc(s, unicode.IsSpace, false)] from the index [i] down;
    [None] stands for -1. *)
Fixpoint lastIndexNotSpace (fuel : nat) (s : gostring) (i : nat) : option nat :=
  match fuel with
  | O => None
  | S f =>
    match i with
    | O => None
    | _ =>
      let (r, size) := decodeLastRune (firstn i s) in
      let i := (i - size)%nat in
      if negb (isSpace r) then Some i else lastIndexNotSpace f s i
    end
  end.

(** [strings.TrimRightFunc(s, unicode.IsSpace)]. *)
Definition trimRightSpace (s : gostring) : gostring :=
  match lastIndexNotSpace (length s) s (length s) with
  | Some i =>
    if 128 <=? Z_of_byte (nth i s x00)
    then firstn (i + snd (decodeRune (skipn i s))) s
    else firstn (S i) s
  | None => []
  end.

(** [strings.TrimSpace]: leading and trailing white space, as Unicode defines
    it, removed. *)
Definition TrimSpace (s : gostring) : gostring :=
  trimRightSpace (trimLeftSpace s).

(** The state of [strings.FieldsFunc]: the state of its function argument
    (which [readArrays] makes a closure over two variables), the start of the
    field being read if any, and the spans found. *)
Record fieldsState (St : Type) : Type := mkFieldsState {
  fs_closure : St;
  fs_start : option nat;
  fs_spans : list (nat * nat)
}.
Arguments mkFieldsState {St} _ _ _.
Arguments fs_closure {St} _.
Arguments fs_start {St} _.
Arguments fs_spans {St} _.

(** One iteration of the loop of [strings.FieldsFunc]: [f] is called once on
    each rune, in order. *)
Definition fields_step {St : Type} (f : St -> rune -> St * bool)
    (st : fieldsState St) (ir : nat * rune) : fieldsState St :=
  let (i, r) := ir in
  let (c, sep) := f (fs_closure st) r in
  if sep then
    match fs_start st with
    | Some b => mkFieldsState c None (fs_spans st ++ [(b, i)])
    | None => mkFieldsState c None (fs_spans st)
    end
  else
    match fs_start st with
    | Some b => mkFieldsState c (Some b) (fs_spans st)
    | None => mkFieldsState c (Some i) (fs_spans st)
    end.

(** [strings.FieldsFunc(s, f)] for a function [f] with state, started in
    [c0]: the fields and the state [f] is left in. *)
Definition FieldsFunc {St : Type} (f : St -> rune -> St * bool) (c0 : St)
    (s : gostring) : list gostring * St :=
  let st := fold_left (fields_step f) (rangeStr s) (mkFieldsState c0 None []) in
  let spans := match fs_start st with
               | Some b => fs_spans st ++ [(b, length s)]
               | None => fs_spans st
               end in
  (map (fun be => substr s (fst be) (snd be)) spans, fs_closure st).

(** ** fmt *)

(** The verb [%d] on an [int]: decimal digits, with a minus sign when
    negative. *)
Definition fmtInt (n : Z) : gostring :=
  str (DecimalString.NilZero.string_of_int (Z.to_int n)).

(** An [error] is taken as its message. *)
Definition error : Type := gostring.

(** ** StructuredLineParser *)

(** The two flags [squote] and [dquote]. *)
Definition quotes : Type := (bool * bool)%type.

Definition noQuotes : quotes := (false, false).

(** The toggle the three passes share: a single quote toggles [squote] unless
    [dquote] is set, else a double quote toggles [dquote] unless [squote] is
    set.  The second component tells whether [c] toggled a flag. *)
Definition toggle (q : quotes) (c : Z) : quotes * bool :=
  let (squote, dquote) := q in
  if (c =? r_squote) && negb dquote then ((negb squote, dquote), true)
  else if (c =? r_dquote) && negb squote then ((squote, negb dquote), true)
  else (q, false).

Definition unquoted (q : quotes) : bool := negb (fst q) && negb (snd q).

(** The first loop of [readArrays], over the bytes of [line]: the line up to
    the first hash sign outside quotes. *)
Fixpoint stripComment (line : gostring) (q : quotes) : gostring :=
  match line with
  | [] => []
  | b :: t =>
    let q := fst (toggle q (Z_of_byte b)) in
    if unquoted q && (Z_of_byte b =? r_hash) then []
    else b :: stripComment t q
  end.

(** The function [readArrays] hands to [strings.FieldsFunc]. *)
Definition fieldSep (q : quotes) (r : rune) : quotes * bool :=
  let q := fst (toggle q r) in
  (q, unquoted q && isSpace r).

(** The last loop of [readArrays], over the runes of one field: the runes
    that toggle a flag are dropped. *)
Fixpoint stripQuotes_loop (rs : list rune) (q : quotes) (buf : list rune) : list rune :=
  match rs with
  | [] => buf
  | r :: rs' =>
    let (q', toggled) := toggle q r in
    if toggled then stripQuotes_loop rs' q' buf
    else stripQuotes_loop rs' q' (buf ++ [r])
  end.

Definition stripQuotes (field : gostring) : gostring :=
  stringOfRunes (stripQuotes_loop (runesOf field) noQuotes []).

(** The candidate fields of a scanned line: [None] for a line that is empty
    after its comment and the surrounding space are removed, which
    [readArrays] skips. *)
Definition candidateFields (text : gostring) : option (list gostring) :=
  let line := TrimSpace (stripComment text noQuotes) in
  match line with
  | [] => None
  | _ => Some (fst (FieldsFunc fieldSep noQuotes line))
  end.

(** The error of [readArrays] for the scanned line [text]. *)
Definition columnsError (min_cols max_cols : Z) (text : gostring) : error :=
  if min_cols =? max_cols
  then str "expected " ++ fmtInt min_cols ++ str " columns but found: " ++ text
  else str "expected " ++ fmtInt min_cols ++ str "~" ++ fmtInt max_cols
       ++ str " columns but found: " ++ text.

(** The test [len(arr) < min_cols || len(arr) > max_cols]. *)
Definition outOfBounds (arr : list gostring) (min_cols max_cols : Z) : bool :=
  (Z.of_nat (length arr) <? min_cols) || (Z.of_nat (length arr) >? max_cols).

(** The loop of [readArrays] over the lines the scanner delivers, with
    [arrays]. *)
Fixpoint readArrays_loop (lines : list gostring) (min_cols max_cols : Z)
    (arrays : list (list gostring)) : list (list gostring) * option error :=
  match lines with
  | [] => (arrays, None)
  | text :: rest =>
    match candidateFields text with
    | None => readArrays_loop rest min_cols max_cols arrays
    | Some arr =>
      if outOfBounds arr min_cols max_cols
      then ([], Some (columnsError min_cols max_cols text))
      else readArrays_loop rest min_cols max_cols (arrays ++ [map stripQuotes arr])
    end
  end.

(** [readArrays(r, min_cols, max_cols)] for a reader [r] that yields the
    bytes [data]. *)
Definition readArrays (data : gostring) (min_cols max_cols : Z)
  : list (list gostring) * option error :=
  readArrays_loop (scanLines data) min_cols max_cols [].

Definition readPairs (data : gostring) : list (list gostring) * option error :=
  readArrays data 2 2.

(** ** NaturalComparator *)

(** Modelled from the spec: [isDigit] is called by [naturalLess] and declared
    in another file of the package; the specification speaks of runs of
    digits, here the ASCII digits. *)
Definition isDigit (b : byte) : bool :=
  (48 <=? Z_of_byte b) && (Z_of_byte b <=? 57).

(** The value of a sequence of decimal digits, most significant first. *)
Definition digitsValue (ds : gostring) : Z :=
  fold_left (fun acc d => 10 * acc + (Z_of_byte d - 48)) ds 0.

Definition maxInt : Z := 9223372036854775807.
Definition minInt : Z := -9223372036854775808.

(** [strconv.Atoi] on a 64-bit platform: an optional sign and one or more
    decimal digits; [None] for a syntax error or a value out of range. *)
Definition Atoi (s : gostring) : option Z :=
  let (neg, ds) :=
    match s with
    | b :: t => if Byte.eqb b x2b then (false, t)
                else if Byte.eqb b x2d then (true, t)
                else (false, s)
    | [] => (false, s)
    end in
  match ds with
  | [] => None
  | _ =>
    if forallb isDigit ds then
      let n := if neg then - digitsValue ds else digitsValue ds in
      if (minInt <=? n) && (n <=? maxInt) then Some n else None
    else None
  end.

(** [s1 == s2] on strings. *)
Fixpoint stringEqb (s1 s2 : gostring) : bool :=
  match s1, s2 with
  | [], [] => true
  | b1 :: t1, b2 :: t2 => Byte.eqb b1 b2 && stringEqb t1 t2
  | _, _ => false
  end.

(** [s1 < s2] on strings: the order of their bytes, a proper prefix first. *)
Fixpoint stringLtb (s1 s2 : gostring) : bool :=
  match s1, s2 with
  | _, [] => false
  | [], _ :: _ => true
  | b1 :: t1, b2 :: t2 =>
    if Z_of_byte b1 <? Z_of_byte b2 then true
    else if Z_of_byte b2 <? Z_of_byte b1 then false
    else stringLtb t1 t2
  end.

(** The inner loops of [naturalLess]: from the cursor, the bytes whose
    [isDigit] is [d], and what follows them. *)
Fixpoint spanRun (d : bool) (s : gostring) : gostring * gostring :=
  match s with
  | [] => ([], [])
  | b :: t =>
    if Bool.eqb (isDigit b) d
    then let (run, rest) := spanRun d t in (b :: run, rest)
    else ([], s)
  end.

(** The outer loop of [naturalLess]; the cursors [hi1] and [hi2] are kept as
    the rests [s1[hi1:]] and [s2[hi2:]].  Every iteration that continues
    moves both cursors forward, so [fuel] above [len(s1)] is never used up. *)
Fixpoint naturalLess_loop (fuel : nat) (s1 s2 : gostring) : bool :=
  match fuel with
  | O => false
  | S fuel' =>
    match s1, s2 with
    | [], [] => false
    | [], _ :: _ => true
    | _ :: _, [] => false
    | b1 :: _, b2 :: _ =>
      let isDigit1 := isDigit b1 in
      let isDigit2 := isDigit b2 in
      let (run1, rest1) := spanRun isDigit1 s1 in
      let (run2, rest2) := spanRun isDigit2 s2 in
      if stringEqb run1 run2 then naturalLess_loop fuel' rest1 rest2
      else if isDigit1 && isDigit2 then
        match Atoi run1, Atoi run2 with
        | Some num1, Some num2 => num1 <? num2
        | _, _ => stringLtb run1 run2
        end
      else stringLtb run1 run2
    end
  end.

Definition naturalLess (s1 s2 : gostring) : bool :=
  naturalLess_loop (S (length s1)) s1 s2.

(** ** DisplayWidthSlicer *)

Section DisplayWidth.

(** [runewidth.RuneWidth], of the package go-runewidth: the columns a rune
    takes on the terminal. *)
Variable RuneWidth : rune -> Z.

Definition runeSliceWidth (rs : list rune) : Z :=
  fold_left (fun w r => w + RuneWidth r) rs 0.

(** The loop of [runeSliceWidthRange] over [rs[i:]], with [curr], [b] and
    [foundb]; [all] is the whole of [rs]. *)
Fixpoint widthRange_loop (all rest : list rune) (beg end_ : Z) (i : nat)
    (curr : Z) (b : nat) (foundb : bool) : list rune :=
  match rest with
  | [] => skipn b all
  | r :: rest' =>
    let w := RuneWidth r in
    let '(b, foundb) :=
      if (curr >=? beg) && negb foundb then (i, true) else (b, foundb) in
    if (curr =? end_) || (curr + w >? end_)
    then firstn (i - b) (skipn b all)
    else widthRange_loop all rest' beg end_ (S i) (curr + w) b foundb
  end.

Definition runeSliceWidthRange (rs : list rune) (beg end_ : Z) : list rune :=
  if beg =? end_ then []
  else widthRange_loop rs rs beg end_ 0 0 0 false.

(** The loop of [runeSliceWidthLastRange]: [n] is [i + 1], so the loop ends
    at [n = 0]. *)
Fixpoint widthLastRange_loop (rs : list rune) (maxWidth : Z) (n : nat)
    (lastWidth : Z) : list rune :=
  match n with
  | O => rs
  | S i =>
    let w := RuneWidth (nth i rs 0) in
    if lastWidth + w >? maxWidth then skipn (S i) rs
    else widthLastRange_loop rs maxWidth i (lastWidth + w)
  end.

Definition runeSliceWidthLastRange (rs : list rune) (maxWidth : Z) : list rune :=
  widthLastRange_loop rs maxWidth (length rs) 0.

End DisplayWidth.

(** A width function of the shape the library has, for the examples: no
    column for control characters and the combining diacritical marks
    U+0300..U+036F, two for the CJK unified ideographs and the Hangul
    syllables, one for the rest. *)
Definition sampleWidth (r : rune) : Z :=
  if (r <? 32) || ((127 <=? r) && (r <? 160)) then 0
  else if (768 <=? r) && (r <=? 879) then 0
  else if ((19968 <=? r) && (r <=? 40959)) || ((44032 <=? r) && (r <=? 55203)) then 2
  else 1.

(** Seven runes of ten columns: a, U+4E2D, b, U+4E2D, c, U+4E2D, d. *)
Definition sampleRunes : list rune := [97; 20013; 98; 20013; 99; 20013; 100].

(** ** Locale *)

Definition localeStrDisable : gostring := str "".
Definition localeStrSys : gostring := str "*".

Section Locale.

(** [language.Tag], [language.Parse], the result of [locale.Detect()] in the
    process environment, [collate.Collator] with its options and
    [collate.New], and the verb [%q] of [fmt] on a string. *)
Variable Tag : Type.
Variable Parse : gostring -> Tag * option error.
Variable Detect : Tag * option error.
Variable Collator : Type.
Variable CollateOption : Type.
Variable collateNew : Tag -> list CollateOption -> Collator.
Variable fmtQuoted : gostring -> gostring.

Definition getLocaleTag (localeStr : gostring) : Tag * option error :=
  if stringEqb localeStr localeStrSys then Detect
  else
    let (localeTag, err) := Parse localeStr in
    match err with
    | Some e =>
      (localeTag,
       Some (str "invalid locale " ++ fmtQuoted localeStr ++ str ": " ++ e))
    | None => (localeTag, None)
    end.

Definition makeCollator (localeStr : gostring) (o : list CollateOption)
  : option Collator * option error :=
  if stringEqb localeStr localeStrDisable
  then (None, Some (str "locale suppose to be disabled with given string"))
  else
    let (localeTag, err) := getLocaleTag localeStr in
    match err with
    | Some e => (None, Some e)
    | None => (Some (collateNew localeTag o), None)
    end.

End Locale.

(** ** Values for the examples *)

(** [needle] stands at the start of [hay]. *)
Fixpoint isPrefix (needle hay : gostring) : bool :=
  match needle, hay with
  | [], _ => true
  | b :: n, c :: h => Byte.eqb b c && isPrefix n h
  | _ :: _, [] => false
  end.





(** ** The state of the loop of tokenize *)

(** The flag [esc] of the loop of [tokenize], which the loop sets after
    every backslash: whether [t] ends with a backslash. *)
Definition endsWithBackslash (t : list rune) : bool :=
  match rev t with
  | r :: _ => r =? r_backslash
  | [] => false
  end.

(** Every white space rune of [t] stands immediately after a backslash:
    the loop closes no token inside [t]. *)
Definition noUnescapedSpace (t : list rune) : Prop :=
  forall a r b, t = a ++ r :: b -> isSpace r = true -> endsWithBackslash a = true.

(** ** Notions of the specification *)

(** The convention of the tokenizer's specification: a backslash that is not
    itself escaped marks the rune after it as escaped (literal).
    [escapePending t] tells whether the rune that follows [t] is escaped:
    whether [t] ends with a backslash that is not escaped. *)
Definition escapePending (t : list rune) : bool :=
  fold_left (fun pending r => negb pending && (r =? r_backslash)) t false.

(** Every white space rune of [t] is escaped. *)
Definition spaceEscaped (t : list rune) : Prop :=
  forall a r b, t = a ++ r :: b -> isSpace r = true -> escapePending a = true.

(** A token with the separator that closed it: the separator is a white
    space rune that is not escaped. *)
Definition splitToken (ts : list rune * rune) : Prop :=
  isSpace (snd ts) = true /\ escapePending (fst ts) = false.


(** The notions of the comparator's specification.  A run of [s] is a
    maximal sequence of bytes that are all digits ([d = true]) or all no
    digits ([d = false]). *)
Definition isRunOf (d : bool) (r : gostring) : Prop :=
  r <> [] /\ forallb (fun b => Bool.eqb (isDigit b) d) r = true.

(** A run ends between [p] and [u]: one of them is empty, or the last byte of
    [p] and the first byte of [u] are not both digits and not both other
    bytes. *)
Definition runBoundary (p u : gostring) : Prop :=
  match rev p, u with
  | last :: _, b :: _ => isDigit last <> isDigit b
  | _, _ => True
  end.

(** ** splitWord *)

(** The first loop of [splitWord]: the index of the first white space rune of
    [s], or [len(s)]. *)
Definition firstSpaceIndex (s : gostring) : nat :=
  match find (fun ir => isSpace (snd ir)) (rangeStr s) with
  | Some (i, _) => i
  | None => length s
  end.

(** [splitWord(s)]: the word and the rest, both cut with
    [strings.TrimLeftFunc(_, unicode.IsSpace)]. *)
Definition splitWord (s : gostring) : gostring * gostring :=
  let s := trimLeftSpace s in
  let ind := firstSpaceIndex s in
  (firstn ind s, trimLeftSpace (skipn ind s)).

(** Every rune of [s] is white space, or none is. *)
Definition allSpace (s : gostring) : bool := forallb isSpace (runesOf s).
Definition noSpace (s : gostring) : bool :=
  forallb (fun r => negb (isSpace r)) (runesOf s).

(** ** getFileExtension *)

(** The two methods of [fs.FileInfo] that [getFileExtension] calls. *)
Record FileInfo : Type := { Name : gostring; IsDir : bool }.

(** The dot. *)
Definition b_dot : byte := x2e.

(** [strings.Count(s, sub)] for a [sub] of one byte [c]. *)
Definition Count (s : gostring) (c : byte) : Z :=
  Z.of_nat (length (filter (Byte.eqb c) s)).

Section FileExtension.

(** [os.IsPathSeparator]: the slash, and on Windows the backslash too. *)
Variable IsPathSeparator : byte -> bool.

(** The loop of [filepath.Ext], [n] being [i + 1]: from the last byte
    down, as long as the byte is no path separator. *)
Fixpoint Ext_loop (path : gostring) (n : nat) : gostring :=
  match n with
  | O => []
  | S i =>
    let c := nth i path x00 in
    if IsPathSeparator c then []
    else if Byte.eqb c b_dot then skipn i path
    else Ext_loop path i
  end.

Definition Ext (path : gostring) : gostring := Ext_loop path (length path).

(** [None] is the panic of the index expression [file.Name()[0]] on an
    empty name. *)
Definition getFileExtension (file : FileInfo) : option gostring :=
  if IsDir file then Some []
  else if Count (Name file) b_dot =? 1 then
    match Name file with
    | [] => None
    | b :: _ => if Byte.eqb b b_dot then Some [] else Some (Ext (Name file))
    end
  else Some (Ext (Name file)).

End FileExtension.

(** [os.IsPathSeparator] on Unix, for the examples. *)
Definition unixSeparator (c : byte) : bool := Byte.eqb c x2f.

(** A byte of an extension after its dot: no dot and no separator. *)
Definition extByte (IsPathSeparator : byte -> bool) (c : byte) : bool :=
  negb (Byte.eqb c b_dot) && negb (IsPathSeparator c).

(** ** replaceTilde *)

(** [strings.HasPrefix(s, prefix)]. *)
Definition HasPrefix (s prefix : gostring) : bool := isPrefix prefix s.

(** [strings.Index(s, substr)], with [None] for -1. *)
Fixpoint Index (s substr : gostring) : option nat :=
  if isPrefix substr s then Some O
  else match s with
       | [] => None
       | _ :: s' => option_map S (Index s' substr)
       end.

(** The loop of [strings.Replace] for an [old] that is not empty, on what is
    left of [s]: [n] occurrences at most, from the left, without overlap
    (the library cuts [n] down to the number of occurrences first, so that
    its [Index] always finds one). *)
Fixpoint Replace_loop (s old new : gostring) (n : nat) : gostring :=
  match n with
  | O => s
  | S n' =>
    match Index s old with
    | Some j =>
      firstn j s ++ new ++ Replace_loop (skipn (j + length old) s) old new n'
    | None => s
    end
  end.

(** [strings.Replace(s, old, new, n)] for [n >= 0] and an [old] that is not
    empty. *)
Definition Replace (s old new : gostring) (n : nat) : gostring :=
  if stringEqb old new || (n =? 0)%nat then s
  else Replace_loop s old new n.

Section Home.

(** [gUser.HomeDir], the home directory of the user who runs the
    program. *)
Variable HomeDir : gostring.

Definition replaceTilde (s : gostring) : gostring :=
  if HasPrefix s (str "~") then Replace s (str "~") HomeDir 1 else s.

End Home.

(** ** Further values for the statements *)

(** [strings.Join(elems, sep)]. *)
Fixpoint Join (elems : list gostring) (sep : gostring) : gostring :=
  match elems with
  | [] => []
  | [e] => e
  | e :: rest => e ++ sep ++ Join rest sep
  end.

(** No backslash of [rs] stands before a rune that [unescape] accepts after
    one. *)
Fixpoint noEscapePair (rs : list rune) : bool :=
  match rs with
  | r :: rs' =>
    match rs' with
    | r' :: _ => negb ((r =? r_backslash) && isSpecial r')
    | [] => true
    end && noEscapePair rs'
  | [] => true
  end.

(** A line the scanner gives back as it is: no newline in it, no carriage
    return at its end, and short enough for the buffer. *)
Definition plainLine (l : gostring) : bool :=
  negb (existsb (Byte.eqb b_newline) l)
  && match rev l with
     | b :: _ => negb (Byte.eqb b b_return)
     | [] => true
     end
  && (Z.of_nat (length l) <? maxScanTokenSize).

(** A scanned line that [readArrays] refuses. *)
Definition badLine (min_cols max_cols : Z) (text : gostring) : bool :=
  match candidateFields text with
  | Some arr => outOfBounds arr min_cols max_cols
  | None => false
  end.

(** The rows of the lines that are not skipped. *)
Definition rowsOf (lines : list gostring) : list (list gostring) :=
  flat_map (fun text => match candidateFields text with
                        | Some arr => [map stripQuotes arr]
                        | None => []
                        end) lines.

(** ** Tables of plain words *)

(** A rune of a word that needs no quotes: no white space, no quote
    character and no hash sign. *)
Definition plainRune (r : rune) : bool :=
  negb (isSpace r) && negb (r =? r_squote) && negb (r =? r_dquote)
  && negb (r =? r_hash).

Definition plainWord (w : gostring) : bool :=
  validString w && negb (Nat.eqb (length w) 0) && forallb plainRune (runesOf w).

(** The line of a row: its words with one space between them. *)
Definition rowLine (row : list gostring) : gostring := Join row (str " ").

(** A row of plain words that [readArrays(r, min_cols, max_cols)] accepts
    and whose line fits the buffer of the scanner. *)
Definition plainRow (min_cols max_cols : Z) (row : list gostring) : bool :=
  forallb plainWord row
  && negb (Nat.eqb (length row) 0)
  && negb (outOfBounds row min_cols max_cols)
  && (Z.of_nat (length (rowLine row)) <? maxScanTokenSize).

(** The text of a table: the line of every row, each with its newline. *)
Definition tableText (rows : list (list gostring)) : gostring :=
  flat_map (fun row => rowLine row ++ nl) rows.

(** The spans of the words of a line that begins at the index [i]. *)
Fixpoint spansOf (i : nat) (row : list gostring) : list (nat * nat) :=
  match row with
  | [] => []
  | w :: rest => (i, (i + length w)%nat) :: spansOf (i + length w + 1) rest
  end.

(** * Properties *)

(** ** Tactics *)

(** Boolean tests of hypotheses, as propositions. *)
Ltac bool_to_prop :=
  repeat match goal with
  | H : (_ && _) = true |- _ => apply andb_true_iff in H; destruct H
  | H : (_ && _) = false |- _ => apply andb_false_iff in H
  | H : (_ || _) = true |- _ => apply orb_true_iff in H
  | H : (_ || _) = false |- _ => apply orb_false_iff in H; destruct H
  | H : _ \/ _ |- _ => destruct H
  | H : negb _ = true |- _ => apply negb_true_iff in H
  | H : negb _ = false |- _ => apply negb_false_iff in H
  | H : (_ <=? _) = true |- _ => apply Z.leb_le in H
  | H : (_ <=? _) = false |- _ => apply Z.leb_gt in H
  | H : (_ <? _) = true |- _ => apply Z.ltb_lt in H
  | H : (_ <? _) = false |- _ => apply Z.ltb_ge in H
  | H : (_ =? _) = true |- _ => apply Z.eqb_eq in H
  | H : (_ =? _) = false |- _ => apply Z.eqb_neq in H
  end.

(** Case analysis on the integer tests of the goal; a branch whose tests
    contradict each other is closed at once. *)
Ltac zcases :=
  repeat (match goal with
  | |- context [?a =? ?b] => destruct (Z.eqb_spec a b)
  | |- context [?a <=? ?b] => destruct (Z.leb_spec a b)
  | |- context [?a <? ?b] => destruct (Z.ltb_spec a b)
  end; cbn [andb orb negb]; try (exfalso; lia)).

Ltac zlin :=
  unfold rune, RuneError in *; solve [ exfalso; lia | f_equal; lia ].

(** ** Bytes *)

Lemma Z_of_byte_range (b : byte) : 0 <= Z_of_byte b < 256.
Proof.
  unfold Z_of_byte. pose proof (Byte.to_N_bounded b). lia.
Qed.

Lemma Z_of_byte_of_Z (z : Z) : 0 <= z < 256 -> Z_of_byte (byte_of_Z z) = z.
Proof.
  intros Hz. unfold Z_of_byte, byte_of_Z.
  destruct (Byte.of_N (Z.to_N z)) as [b|] eqn:E.
  - apply Byte.to_of_N in E. rewrite E. lia.
  - apply Byte.of_N_None_iff in E. lia.
Qed.

Lemma byte_of_Z_of_byte (b : byte) : byte_of_Z (Z_of_byte b) = b.
Proof.
  unfold Z_of_byte, byte_of_Z. rewrite N2Z.id, Byte.of_to_N. reflexivity.
Qed.

(** ** UTF-8: decoding an encoded rune *)

Lemma decodeRune_1 (x : Z) (rest : gostring) :
  0 <= x < 128 -> decodeRune (byte_of_Z x :: rest) = (x, 1%nat).
Proof.
  intros Hx. cbn [decodeRune]. rewrite Z_of_byte_of_Z by lia.
  zcases; zlin.
Qed.

Lemma decodeRune_2 (q m : Z) (rest : gostring) :
  2 <= q < 32 -> 0 <= m < 64 ->
  decodeRune (byte_of_Z (192 + q) :: byte_of_Z (128 + m) :: rest)
  = (64 * q + m, 2%nat).
Proof.
  intros Hq Hm. cbn [decodeRune]. rewrite !Z_of_byte_of_Z by lia.
  unfold isCont. zcases; zlin.
Qed.

Lemma decodeRune_3 (a b c : Z) (rest : gostring) :
  0 <= a < 16 -> 0 <= b < 64 -> 0 <= c < 64 ->
  (a = 0 -> 32 <= b) -> (a = 13 -> b < 32) ->
  decodeRune (byte_of_Z (224 + a) :: byte_of_Z (128 + b) :: byte_of_Z (128 + c) :: rest)
  = (4096 * a + 64 * b + c, 3%nat).
Proof.
  intros Ha Hb Hc H0 H13. cbn [decodeRune]. rewrite !Z_of_byte_of_Z by lia.
  unfold isCont. zcases; zlin.
Qed.

Lemma decodeRune_4 (a b c d : Z) (rest : gostring) :
  0 <= a <= 4 -> 0 <= b < 64 -> 0 <= c < 64 -> 0 <= d < 64 ->
  (a = 0 -> 16 <= b) -> (a = 4 -> b < 16) ->
  decodeRune (byte_of_Z (240 + a) :: byte_of_Z (128 + b) :: byte_of_Z (128 + c)
              :: byte_of_Z (128 + d) :: rest)
  = (262144 * a + 4096 * b + 64 * c + d, 4%nat).
Proof.
  intros Ha Hb Hc Hd H0 H4. cbn [decodeRune]. rewrite !Z_of_byte_of_Z by lia.
  unfold isCont. zcases; zlin.
Qed.

Lemma encodeRune_1 (r : rune) : 0 <= r <= 127 -> encodeRune r = [byte_of_Z r].
Proof. intros H. unfold encodeRune. zcases; reflexivity. Qed.

Lemma encodeRune_2 (r : rune) :
  128 <= r <= 2047 ->
  encodeRune r = [byte_of_Z (192 + r / 64); byte_of_Z (128 + r mod 64)].
Proof. intros H. unfold encodeRune. zcases; reflexivity. Qed.

Lemma encodeRune_3 (r : rune) :
  2048 <= r <= 65535 -> r < 55296 \/ 57343 < r ->
  encodeRune r = [byte_of_Z (224 + r / 4096); byte_of_Z (128 + (r / 64) mod 64);
                  byte_of_Z (128 + r mod 64)].
Proof. intros H H'. unfold encodeRune. zcases; reflexivity. Qed.

Lemma encodeRune_4 (r : rune) :
  65536 <= r <= 1114111 ->
  encodeRune r = [byte_of_Z (240 + r / 262144); byte_of_Z (128 + (r / 4096) mod 64);
                  byte_of_Z (128 + (r / 64) mod 64); byte_of_Z (128 + r mod 64)].
Proof. intros H. unfold encodeRune. zcases; reflexivity. Qed.

(** The pieces of six bits of a rune. *)
Lemma six_bits (r : Z) :
  0 <= r -> r = 64 * (r / 64) + r mod 64 /\ 0 <= r mod 64 < 64 /\ 0 <= r / 64.
Proof.
  intros Hr. pose proof (Z.div_mod r 64). pose proof (Z.mod_pos_bound r 64).
  pose proof (Z.div_pos r 64). lia.
Qed.

Lemma validRune_cases (r : rune) :
  validRune r = true ->
  0 <= r <= 127 \/ 128 <= r <= 2047
  \/ (2048 <= r <= 65535 /\ (r < 55296 \/ 57343 < r))
  \/ 65536 <= r <= 1114111.
Proof.
  unfold validRune, rune in *. intros Hv. bool_to_prop; lia.
Qed.

Lemma decodeRune_encodeRune (r : rune) (rest : gostring) :
  validRune r = true ->
  decodeRune (encodeRune r ++ rest) = (r, length (encodeRune r)).
Proof.
  intros Hv. apply validRune_cases in Hv. unfold rune in *.
  assert (E2 : r / 4096 = r / 64 / 64) by (rewrite Z.div_div by lia; reflexivity).
  assert (E3 : r / 262144 = r / 64 / 64 / 64) by (rewrite !Z.div_div by lia; reflexivity).
  destruct (six_bits r) as (R1 & R2 & R3); [lia|].
  destruct (six_bits (r / 64) R3) as (Q1 & Q2 & Q3).
  destruct (six_bits (r / 64 / 64) Q3) as (P1 & P2 & P3).
  destruct Hv as [H | [H | [[H H'] | H]]].
  - rewrite encodeRune_1 by exact H. cbn [app length].
    apply decodeRune_1. lia.
  - rewrite encodeRune_2 by exact H. cbn [app length].
    clear E2 E3 Q1 Q2 Q3 P1 P2 P3.
    set (q := r / 64) in *. set (m := r mod 64) in *. clearbody q m.
    rewrite decodeRune_2 by lia. f_equal. lia.
  - rewrite encodeRune_3 by assumption. cbn [app length].
    rewrite E2. clear E2 E3 P1 P2 P3.
    set (a := r / 64 / 64) in *. set (b := (r / 64) mod 64) in *.
    set (q := r / 64) in *. set (c := r mod 64) in *. clearbody a b c q.
    rewrite decodeRune_3 by lia. f_equal. lia.
  - rewrite encodeRune_4 by exact H. cbn [app length].
    rewrite E3, E2. clear E2 E3.
    set (a := r / 64 / 64 / 64) in *. set (b := (r / 64 / 64) mod 64) in *.
    set (p := r / 64 / 64) in *. set (c := (r / 64) mod 64) in *.
    set (q := r / 64) in *. set (d := r mod 64) in *. clearbody a b c d p q.
    rewrite decodeRune_4 by lia. f_equal. lia.
Qed.
(** ** UTF-8: encoding a decoded rune *)

Lemma encodeRune_bytes_1 (b0 : byte) :
  Z_of_byte b0 < 128 -> encodeRune (Z_of_byte b0) = [b0].
Proof.
  intros H. pose proof (Z_of_byte_range b0).
  rewrite encodeRune_1 by lia. rewrite byte_of_Z_of_byte. reflexivity.
Qed.

Lemma encodeRune_bytes_2 (b0 b1 : byte) :
  194 <= Z_of_byte b0 <= 223 -> 128 <= Z_of_byte b1 <= 191 ->
  encodeRune ((Z_of_byte b0 - 192) * 64 + (Z_of_byte b1 - 128)) = [b0; b1].
Proof.
  intros H0 H1.
  rewrite <- (byte_of_Z_of_byte b0) at 2. rewrite <- (byte_of_Z_of_byte b1) at 2.
  set (x0 := Z_of_byte b0) in *. set (x1 := Z_of_byte b1) in *. clearbody x0 x1.
  rewrite encodeRune_2 by lia.
  replace (((x0 - 192) * 64 + (x1 - 128)) / 64) with (x0 - 192)
    by (apply Z.div_unique with (r := x1 - 128); lia).
  replace (((x0 - 192) * 64 + (x1 - 128)) mod 64) with (x1 - 128)
    by (apply Z.mod_unique with (q := x0 - 192); lia).
  repeat f_equal; lia.
Qed.

Lemma encodeRune_bytes_3 (b0 b1 b2 : byte) :
  224 <= Z_of_byte b0 <= 239 -> 128 <= Z_of_byte b1 <= 191 ->
  128 <= Z_of_byte b2 <= 191 ->
  (Z_of_byte b0 = 224 -> 160 <= Z_of_byte b1) ->
  (Z_of_byte b0 = 237 -> Z_of_byte b1 <= 159) ->
  encodeRune ((Z_of_byte b0 - 224) * 4096 + (Z_of_byte b1 - 128) * 64
              + (Z_of_byte b2 - 128)) = [b0; b1; b2].
Proof.
  intros H0 H1 H2 Hlo Hhi.
  rewrite <- (byte_of_Z_of_byte b0) at 2. rewrite <- (byte_of_Z_of_byte b1) at 2.
  rewrite <- (byte_of_Z_of_byte b2) at 2.
  set (x0 := Z_of_byte b0) in *. set (x1 := Z_of_byte b1) in *.
  set (x2 := Z_of_byte b2) in *. clearbody x0 x1 x2.
  set (r := (x0 - 224) * 4096 + (x1 - 128) * 64 + (x2 - 128)).
  assert (E64 : r / 64 = (x0 - 224) * 64 + (x1 - 128))
    by (symmetry; apply Z.div_unique with (r := x2 - 128); subst r; lia).
  assert (E0 : r / 4096 = x0 - 224).
  { change 4096 with (64 * 64). rewrite <- Z.div_div by lia. rewrite E64.
    symmetry; apply Z.div_unique with (r := x1 - 128); lia. }
  assert (E1 : (r / 64) mod 64 = x1 - 128)
    by (rewrite E64; symmetry; apply Z.mod_unique with (q := x0 - 224); lia).
  assert (E2 : r mod 64 = x2 - 128)
    by (symmetry; apply Z.mod_unique with (q := (x0 - 224) * 64 + (x1 - 128)); subst r; lia).
  rewrite encodeRune_3 by (subst r; lia).
  rewrite E0, E1, E2. repeat f_equal; lia.
Qed.

Lemma encodeRune_bytes_4 (b0 b1 b2 b3 : byte) :
  240 <= Z_of_byte b0 <= 244 -> 128 <= Z_of_byte b1 <= 191 ->
  128 <= Z_of_byte b2 <= 191 -> 128 <= Z_of_byte b3 <= 191 ->
  (Z_of_byte b0 = 240 -> 144 <= Z_of_byte b1) ->
  (Z_of_byte b0 = 244 -> Z_of_byte b1 <= 143) ->
  encodeRune ((Z_of_byte b0 - 240) * 262144 + (Z_of_byte b1 - 128) * 4096
              + (Z_of_byte b2 - 128) * 64 + (Z_of_byte b3 - 128))
  = [b0; b1; b2; b3].
Proof.
  intros H0 H1 H2 H3 Hlo Hhi.
  rewrite <- (byte_of_Z_of_byte b0) at 2. rewrite <- (byte_of_Z_of_byte b1) at 2.
  rewrite <- (byte_of_Z_of_byte b2) at 2. rewrite <- (byte_of_Z_of_byte b3) at 2.
  set (x0 := Z_of_byte b0) in *. set (x1 := Z_of_byte b1) in *.
  set (x2 := Z_of_byte b2) in *. set (x3 := Z_of_byte b3) in *.
  clearbody x0 x1 x2 x3.
  set (r := (x0 - 240) * 262144 + (x1 - 128) * 4096 + (x2 - 128) * 64 + (x3 - 128)).
  assert (E64 : r / 64 = (x0 - 240) * 4096 + (x1 - 128) * 64 + (x2 - 128))
    by (symmetry; apply Z.div_unique with (r := x3 - 128); subst r; lia).
  assert (E4096 : r / 4096 = (x0 - 240) * 64 + (x1 - 128)).
  { change 4096 with (64 * 64). rewrite <- Z.div_div by lia. rewrite E64.
    symmetry; apply Z.div_unique with (r := x2 - 128); lia. }
  assert (E0 : r / 262144 = x0 - 240).
  { change 262144 with (4096 * 64). rewrite <- Z.div_div by lia. rewrite E4096.
    symmetry; apply Z.div_unique with (r := x1 - 128); lia. }
  assert (E1 : (r / 4096) mod 64 = x1 - 128)
    by (rewrite E4096; symmetry; apply Z.mod_unique with (q := x0 - 240); lia).
  assert (E2 : (r / 64) mod 64 = x2 - 128)
    by (rewrite E64; symmetry;
        apply Z.mod_unique with (q := (x0 - 240) * 64 + (x1 - 128)); lia).
  assert (E3 : r mod 64 = x3 - 128)
    by (symmetry;
        apply Z.mod_unique with (q := (x0 - 240) * 4096 + (x1 - 128) * 64 + (x2 - 128));
        subst r; lia).
  rewrite encodeRune_4 by (subst r; lia).
  rewrite E0, E1, E2, E3. repeat f_equal; lia.
Qed.

(** What a step of [range] reads: an invalid byte, or the encoding of the
    rune it yields. *)
Lemma decodeRune_spec (b : byte) (t : gostring) :
  let (r, n) := decodeRune (b :: t) in
  (r = RuneError /\ n = 1%nat)
  \/ (encodeRune r = firstn n (b :: t) /\ (1 <= n <= length (b :: t))%nat).
Proof.
  pose proof (Z_of_byte_range b) as Hb.
  unfold decodeRune.
  destruct (Z_of_byte b <? 128) eqn:E1.
  { apply Z.ltb_lt in E1. right. split; [apply encodeRune_bytes_1; exact E1 | cbn; lia]. }
  destruct ((194 <=? Z_of_byte b) && (Z_of_byte b <=? 223)) eqn:E2.
  { destruct t as [|b1 t]; [left; auto|].
    unfold isCont. destruct ((128 <=? Z_of_byte b1) && (Z_of_byte b1 <=? 191)) eqn:E; [|left; auto].
    bool_to_prop. right. split; [apply encodeRune_bytes_2; lia | cbn; lia]. }
  destruct ((224 <=? Z_of_byte b) && (Z_of_byte b <=? 239)) eqn:E3.
  { destruct t as [|b1 [|b2 t]]; [left; auto | left; auto |].
    cbv zeta. unfold isCont.
    match goal with |- context [if ?c then _ else _] => destruct c eqn:E end; [|left; auto].
    right. split; [|cbn; lia].
    apply encodeRune_bytes_3; revert E; zcases; intros; lia || discriminate. }
  destruct ((240 <=? Z_of_byte b) && (Z_of_byte b <=? 244)) eqn:E4.
  { destruct t as [|b1 [|b2 [|b3 t]]]; [left; auto | left; auto | left; auto |].
    cbv zeta. unfold isCont.
    match goal with |- context [if ?c then _ else _] => destruct c eqn:E end; [|left; auto].
    right. split; [|cbn; lia].
    apply encodeRune_bytes_4; revert E; zcases; intros; lia || discriminate. }
  left; auto.
Qed.
(** ** The iterations of [range] *)

Lemma decodeRune_valid (s : gostring) : validRune (fst (decodeRune s)) = true.
Proof.
  destruct s as [|b t]; [reflexivity|].
  pose proof (Z_of_byte_range b) as Hb.
  unfold decodeRune.
  destruct (Z_of_byte b <? 128) eqn:E1.
  { apply Z.ltb_lt in E1. cbn [fst]. unfold validRune. zcases; reflexivity. }
  destruct ((194 <=? Z_of_byte b) && (Z_of_byte b <=? 223)) eqn:E2.
  { destruct t as [|b1 t]; [reflexivity|].
    pose proof (Z_of_byte_range b1).
    unfold isCont. destruct ((128 <=? Z_of_byte b1) && (Z_of_byte b1 <=? 191)) eqn:E;
      [|reflexivity].
    bool_to_prop. cbn [fst]. unfold validRune. zcases; reflexivity. }
  destruct ((224 <=? Z_of_byte b) && (Z_of_byte b <=? 239)) eqn:E3.
  { destruct t as [|b1 [|b2 t]]; [reflexivity | reflexivity |].
    cbv zeta. unfold isCont.
    match goal with |- context [if ?c then _ else _] => destruct c eqn:E end;
      [|reflexivity].
    cbn [fst]. pose proof (Z_of_byte_range b1). pose proof (Z_of_byte_range b2).
    apply andb_true_iff in E3. destruct E3 as [E3 E3'].
    apply Z.leb_le in E3. apply Z.leb_le in E3'. clear E1 E2.
    revert E. unfold validRune. zcases; intros; reflexivity || discriminate. }
  destruct ((240 <=? Z_of_byte b) && (Z_of_byte b <=? 244)) eqn:E4.
  { destruct t as [|b1 [|b2 [|b3 t]]]; [reflexivity | reflexivity | reflexivity |].
    cbv zeta. unfold isCont.
    match goal with |- context [if ?c then _ else _] => destruct c eqn:E end;
      [|reflexivity].
    cbn [fst]. pose proof (Z_of_byte_range b1). pose proof (Z_of_byte_range b2).
    pose proof (Z_of_byte_range b3).
    apply andb_true_iff in E4. destruct E4 as [E4 E4'].
    apply Z.leb_le in E4. apply Z.leb_le in E4'. clear E1 E2 E3.
    revert E. unfold validRune. zcases; intros; reflexivity || discriminate. }
  reflexivity.
Qed.

Lemma rangeFrom_skip (k i : nat) (s : gostring) :
  rangeFrom k i s = rangeFrom 0 (i + k) (skipn k s).
Proof.
  revert i s. induction k as [|k IH]; intros i s.
  - rewrite Nat.add_0_r. reflexivity.
  - destruct s as [|b t]; [reflexivity|].
    cbn [rangeFrom skipn]. rewrite IH. f_equal. lia.
Qed.

Lemma rangeFrom_step (i : nat) (b : byte) (t : gostring) :
  rangeFrom 0 i (b :: t)
  = (i, fst (decodeRune (b :: t)))
    :: rangeFrom 0 (i + snd (decodeRune (b :: t))) (skipn (snd (decodeRune (b :: t))) (b :: t)).
Proof.
  cbn [rangeFrom].
  pose proof (decodeRune_spec b t) as Hs.
  destruct (decodeRune (b :: t)) as [r n]. cbn [fst snd].
  f_equal. rewrite rangeFrom_skip.
  destruct n as [|n]; [exfalso; destruct Hs as [[_ H]|[_ H]]; [discriminate | lia]|].
  cbn [Nat.pred skipn]. f_equal. lia.
Qed.

Lemma map_snd_rangeFrom (k i j : nat) (s : gostring) :
  map snd (rangeFrom k i s) = map snd (rangeFrom k j s).
Proof.
  revert k i j. induction s as [|b t IH]; intros k i j; [reflexivity|].
  cbn [rangeFrom]. destruct k as [|k]; [|apply IH].
  destruct (decodeRune (b :: t)) as [r n]. cbn [map snd]. f_equal. apply IH.
Qed.

Lemma runesOf_step (b : byte) (t : gostring) :
  runesOf (b :: t)
  = fst (decodeRune (b :: t)) :: runesOf (skipn (snd (decodeRune (b :: t))) (b :: t)).
Proof.
  unfold runesOf, rangeStr. rewrite rangeFrom_step. cbn [map snd]. f_equal.
  apply map_snd_rangeFrom.
Qed.

Lemma encodeRune_not_nil (r : rune) : encodeRune r <> [].
Proof. unfold encodeRune. repeat match goal with |- context [if ?c then _ else _] => destruct c end; discriminate. Qed.

Lemma runesOf_encodeRune_app (r : rune) (rest : gostring) :
  validRune r = true -> runesOf (encodeRune r ++ rest) = r :: runesOf rest.
Proof.
  intros Hv. pose proof (decodeRune_encodeRune r rest Hv) as Hd.
  destruct (encodeRune r ++ rest) as [|b t] eqn:E.
  { exfalso. apply app_eq_nil in E. destruct E as [E _].
    exact (encodeRune_not_nil r E). }
  rewrite runesOf_step, Hd. cbn [fst snd]. rewrite <- E.
  rewrite skipn_app, skipn_all, Nat.sub_diag. reflexivity.
Qed.

Lemma runesOf_stringOfRunes (rs : list rune) :
  forallb validRune rs = true -> runesOf (stringOfRunes rs) = rs.
Proof.
  induction rs as [|r rs IH]; intros Hv; [reflexivity|].
  cbn [forallb] in Hv. apply andb_true_iff in Hv. destruct Hv as [Hr Hrs].
  unfold stringOfRunes. cbn [flat_map]. rewrite runesOf_encodeRune_app by exact Hr.
  f_equal. apply IH. exact Hrs.
Qed.

(** Induction on strings by the steps of [range]. *)
Lemma range_ind (P : gostring -> Prop) :
  P [] ->
  (forall b t, P (skipn (snd (decodeRune (b :: t))) (b :: t)) -> P (b :: t)) ->
  forall s, P s.
Proof.
  intros Hnil Hstep s.
  assert (H : forall n s, (length s <= n)%nat -> P s).
  { clear s. induction n as [|n IH]; intros s Hlen.
    - destruct s; [exact Hnil | cbn in Hlen; lia].
    - destruct s as [|b t]; [exact Hnil|].
      apply Hstep. apply IH.
      pose proof (decodeRune_spec b t) as Hs.
      destruct (decodeRune (b :: t)) as [r k]. cbn [snd].
      assert (1 <= k)%nat by (destruct Hs as [[_ H]|[_ H]]; lia).
      rewrite length_skipn. cbn [length] in *. lia. }
  apply (H (length s)). lia.
Qed.

Lemma runesOf_valid (s : gostring) : forallb validRune (runesOf s) = true.
Proof.
  induction s as [|b t IH] using range_ind; [reflexivity|].
  rewrite runesOf_step. cbn [forallb]. rewrite decodeRune_valid, IH. reflexivity.
Qed.

Lemma validFrom_skip (k : nat) (s : gostring) :
  (k <= length s)%nat -> validFrom k s = validFrom 0 (skipn k s).
Proof.
  revert s. induction k as [|k IH]; intros s Hk; [reflexivity|].
  destruct s as [|b t]; [cbn in Hk; lia|].
  cbn [validFrom skipn]. apply IH. cbn in Hk. lia.
Qed.

(** A valid string is the encoding of its runes. *)
Lemma stringOfRunes_runesOf (s : gostring) :
  validString s = true -> stringOfRunes (runesOf s) = s.
Proof.
  unfold validString.
  induction s as [|b t IH] using range_ind; intros Hv; [reflexivity|].
  rewrite runesOf_step. unfold stringOfRunes. cbn [flat_map].
  cbn [validFrom] in Hv.
  pose proof (decodeRune_spec b t) as Hs.
  destruct (decodeRune (b :: t)) as [r n]. cbn [fst snd] in *.
  apply andb_true_iff in Hv. destruct Hv as [Hne Hv].
  destruct Hs as [[Hr Hn] | [He Hn]].
  { subst. cbn in Hne. discriminate. }
  rewrite He. fold (stringOfRunes (runesOf (skipn n (b :: t)))).
  rewrite IH.
  - apply firstn_skipn.
  - destruct n as [|n]; [lia|]. cbn [Nat.pred skipn] in *.
    rewrite <- validFrom_skip; [exact Hv | cbn [length] in Hn; lia].
Qed.
(** ** Escaper *)

Lemma escape_loop_buf (rs buf : list rune) :
  escape_loop rs buf = buf ++ escape_loop rs [].
Proof.
  revert buf. induction rs as [|r rs IH]; intros buf.
  - cbn. rewrite app_nil_r. reflexivity.
  - cbn [escape_loop]. rewrite IH. rewrite (IH (_ ++ [r])).
    destruct (isSpecial r); cbn [app]; rewrite <- ?app_assoc; reflexivity.
Qed.

Lemma escape_loop_cons (r : rune) (rs : list rune) :
  escape_loop (r :: rs) []
  = (if isSpecial r then [r_backslash; r] else [r]) ++ escape_loop rs [].
Proof.
  cbn [escape_loop]. rewrite escape_loop_buf. destruct (isSpecial r); reflexivity.
Qed.

Lemma isSpecial_backslash : isSpecial r_backslash = true.
Proof. reflexivity. Qed.

(** [unescape] reads back what [escape] wrote, rune by rune. *)
Lemma unescape_loop_escape_loop (rs buf : list rune) :
  unescape_loop (escape_loop rs []) false buf = buf ++ rs.
Proof.
  revert buf. induction rs as [|r rs IH]; intros buf.
  - cbn. rewrite app_nil_r. reflexivity.
  - rewrite escape_loop_cons. destruct (isSpecial r) eqn:Hs.
    + cbn [app unescape_loop]. change (r_backslash =? r_backslash) with true.
      cbv iota. rewrite Hs. cbn [negb]. rewrite IH, <- app_assoc. reflexivity.
    + cbn [app unescape_loop].
      destruct (r =? r_backslash) eqn:Hb.
      * apply Z.eqb_eq in Hb. subst r. rewrite isSpecial_backslash in Hs. discriminate.
      * rewrite IH, <- app_assoc. reflexivity.
Qed.

Lemma escape_loop_valid (rs : list rune) :
  forallb validRune rs = true -> forallb validRune (escape_loop rs []) = true.
Proof.
  induction rs as [|r rs IH]; intros Hv; [reflexivity|].
  cbn [forallb] in Hv. apply andb_true_iff in Hv. destruct Hv as [Hr Hrs].
  rewrite escape_loop_cons, forallb_app, (IH Hrs), andb_true_r.
  destruct (isSpecial r); cbn [forallb]; rewrite Hr; reflexivity.
Qed.

(** On every string, [unescape] gives back the runes that [escape] read: the
    string itself, with U+FFFD for each byte that is no valid UTF-8. *)
Lemma unescape_escape_runes (s : gostring) :
  unescape (escape s) = stringOfRunes (runesOf s).
Proof.
  unfold unescape, escape.
  rewrite runesOf_stringOfRunes by (apply escape_loop_valid, runesOf_valid).
  rewrite unescape_loop_escape_loop. reflexivity.
Qed.

(** The encoding of runes is valid UTF-8. *)
Lemma decodeRune_encodeRune_any (r : rune) (rest : gostring) :
  decodeRune (encodeRune r ++ rest)
  = (if validRune r then r else RuneError, length (encodeRune r)).
Proof.
  destruct (validRune r) eqn:Hv; [apply decodeRune_encodeRune; exact Hv|].
  assert (E : encodeRune r = encodeRune RuneError).
  { unfold validRune in Hv. unfold encodeRune at 1. revert Hv.
    zcases; intros; reflexivity || discriminate. }
  rewrite E. apply decodeRune_encodeRune. reflexivity.
Qed.

Lemma encodeRune_length (r : rune) : (1 <= length (encodeRune r) <= 4)%nat.
Proof.
  unfold encodeRune.
  repeat match goal with |- context [if ?c then _ else _] => destruct c end;
    cbn [length]; lia.
Qed.

Lemma encodeRune_length_1 (r : rune) :
  length (encodeRune r) = 1%nat -> validRune r = true /\ r <> RuneError.
Proof.
  unfold encodeRune, validRune, RuneError.
  zcases; cbn [length]; intros E; try discriminate E; split; try reflexivity; lia.
Qed.

Lemma validString_stringOfRunes (rs : list rune) :
  validString (stringOfRunes rs) = true.
Proof.
  unfold validString, stringOfRunes.
  induction rs as [|r rs IH]; [reflexivity|].
  cbn [flat_map].
  pose proof (decodeRune_encodeRune_any r (flat_map encodeRune rs)) as D.
  pose proof (encodeRune_length r) as L1.
  pose proof (encodeRune_length_1 r) as L2.
  destruct (encodeRune r) as [|b t] eqn:E; [cbn in L1; lia|].
  cbn [app validFrom] in *. rewrite D.
  apply andb_true_iff. split.
  - apply negb_true_iff. apply andb_false_iff.
    destruct (Nat.eqb (length (b :: t)) 1) eqn:E1; [|right; reflexivity].
    left. apply Nat.eqb_eq in E1. destruct (L2 E1) as [Hv Hne].
    rewrite Hv. apply Z.eqb_neq. exact Hne.
  - cbn [length Nat.pred]. rewrite validFrom_skip by (rewrite length_app; lia).
    rewrite skipn_app, skipn_all, Nat.sub_diag. exact IH.
Qed.

(** The strings [unescape] gives back from [escape] are exactly the valid
    ones. *)
Lemma unescape_escape_iff (s : gostring) :
  unescape (escape s) = s <-> validString s = true.
Proof.
  split.
  2: { intros Hv. rewrite unescape_escape_runes. apply stringOfRunes_runesOf. exact Hv. }
  intros E. rewrite <- E, unescape_escape_runes. apply validString_stringOfRunes.
Qed.

(** C6, as amended: for every string [s] that is valid UTF-8 (whatever it
    ends in, so also for every valid string without a trailing unescaped
    backslash), [unescape(escape(s)) == s]. *)
Theorem unescape_escape_valid (s : gostring) :
  validString s = true -> unescape (escape s) = s.
Proof.
  intros Hv. rewrite unescape_escape_runes. apply stringOfRunes_runesOf. exact Hv.
Qed.

Lemma unescape_escape_valid_witness :
  validString (str "a b\#c;d\") = true
  /\ unescape (escape (str "a b\#c;d\")) = str "a b\#c;d\".
Proof.
  split; [reflexivity | apply unescape_escape_valid; reflexivity].
Defined.

(** C6, as stated, fails on a string that is no valid UTF-8: the single byte
    0xFF holds no backslash, [escape] reads it as U+FFFD and writes the three
    bytes of U+FFFD, which [unescape] leaves as they are. *)
Lemma unescape_escape_invalid_utf8 :
  existsb (fun b => Z_of_byte b =? r_backslash) [xff] = false
  /\ escape [xff] = [xef; xbf; xbd]
  /\ unescape (escape [xff]) = [xef; xbf; xbd]
  /\ stringEqb (unescape (escape [xff])) [xff] = false.
Proof. repeat split. Qed.

(** ** Tokenizer *)

Lemma endsWithBackslash_snoc (buf : list rune) (r : rune) :
  endsWithBackslash (buf ++ [r]) = (r =? r_backslash).
Proof.
  unfold endsWithBackslash. rewrite rev_app_distr. reflexivity.
Qed.

Lemma noUnescapedSpace_nil : noUnescapedSpace [].
Proof.
  intros a r b E. destruct a; discriminate.
Qed.

Lemma noUnescapedSpace_snoc (buf : list rune) (r : rune) :
  noUnescapedSpace buf ->
  (isSpace r = true -> endsWithBackslash buf = true) ->
  noUnescapedSpace (buf ++ [r]).
Proof.
  intros Hbuf Hr a r0 b E Hs.
  destruct b as [|x b] using rev_ind.
  - apply app_inj_tail in E. destruct E as [<- <-]. auto.
  - clear IHb. rewrite app_comm_cons, app_assoc in E.
    apply app_inj_tail in E. destruct E as [E _].
    exact (Hbuf a r0 b E Hs).
Qed.

Lemma isSpace_backslash : isSpace r_backslash = false.
Proof. reflexivity. Qed.

(** The loop sets [esc] after a backslash that is itself escaped: the first
    space below closes no token. *)
Example tokenize_backslash_pair :
  tokenize (str "a\\ b c") = [str "a\\ b"; str "c"].
Proof. reflexivity. Qed.

Lemma stringOfRunes_app (a b : list rune) :
  stringOfRunes (a ++ b) = stringOfRunes a ++ stringOfRunes b.
Proof. apply flat_map_app. Qed.



(** After a separator the convention starts anew: what is escaped in a
    token does not depend on the tokens before it. *)
Lemma escapePending_after_separator (p : list rune) (sp : rune) (t : list rune) :
  escapePending p = false -> isSpace sp = true ->
  escapePending (p ++ sp :: t) = escapePending t.
Proof.
  intros Hp Hs. unfold escapePending. rewrite fold_left_app. cbn [fold_left].
  change (fold_left (fun pending r => negb pending && (r =? r_backslash)) p false)
    with (escapePending p).
  rewrite Hp. cbn [negb andb].
  destruct (sp =? r_backslash) eqn:E; [|reflexivity].
  apply Z.eqb_eq in E. subst sp. discriminate Hs.
Qed.




(** The conditions above determine the tokens: the separators are exactly
    the white space runes that are not escaped. *)
Lemma splitTokens_unique (closed1 : list (list rune * rune)) :
  forall (final1 : list rune) (closed2 : list (list rune * rune)) (final2 : list rune),
  flat_map (fun ts => fst ts ++ [snd ts]) closed1 ++ final1
  = flat_map (fun ts => fst ts ++ [snd ts]) closed2 ++ final2 ->
  Forall splitToken closed1 -> Forall (fun ts => spaceEscaped (fst ts)) closed1 ->
  spaceEscaped final1 ->
  Forall splitToken closed2 -> Forall (fun ts => spaceEscaped (fst ts)) closed2 ->
  spaceEscaped final2 ->
  closed1 = closed2 /\ final1 = final2.
Proof.
  assert (clash : forall (t : list rune) (sp : rune) (u : list rune),
            splitToken (t, sp) -> spaceEscaped u ->
            forall l, u = t ++ sp :: l -> False).
  { intros t sp u (Hsp & Hend) Hu l E. cbn [fst snd] in *.
    specialize (Hu t sp l E Hsp). congruence. }
  assert (head_eq : forall (t1 : list rune) (sp1 : rune) (r1 t2 : list rune)
                           (sp2 : rune) (r2 : list rune),
            splitToken (t1, sp1) -> spaceEscaped t1 ->
            splitToken (t2, sp2) -> spaceEscaped t2 ->
            t1 ++ sp1 :: r1 = t2 ++ sp2 :: r2 ->
            t1 = t2 /\ sp1 = sp2 /\ r1 = r2).
  { intros t1 sp1 r1 t2 sp2 r2 C1 H1 C2 H2 E.
    apply app_eq_app in E. destruct E as (l & [[E1 E2] | [E1 E2]]).
    - destruct l as [|x l].
      + rewrite app_nil_r in E1. cbn [app] in E2. inversion E2. auto.
      + exfalso. cbn [app] in E2. inversion E2; subst.
        apply (clash t2 x (t2 ++ x :: l) C2 H1 l). reflexivity.
    - destruct l as [|x l].
      + rewrite app_nil_r in E1. cbn [app] in E2. inversion E2. auto.
      + exfalso. cbn [app] in E2. inversion E2; subst.
        apply (clash t1 x (t1 ++ x :: l) C1 H2 l). reflexivity. }
  induction closed1 as [|[t1 sp1] closed1 IH];
    intros final1 [|[t2 sp2] closed2] final2 E C1 S1 F1 C2 S2 F2.
  - cbn [flat_map app] in E. auto.
  - exfalso. cbn [flat_map app fst snd] in E.
    rewrite <- !app_assoc in E. cbn [app] in E.
    exact (clash t2 sp2 final1 (Forall_inv C2) F1 _ E).
  - exfalso. cbn [flat_map app fst snd] in E.
    rewrite <- !app_assoc in E. cbn [app] in E.
    exact (clash t1 sp1 final2 (Forall_inv C1) F2 _ (eq_sym E)).
  - cbn [flat_map app fst snd] in E.
    rewrite <- !app_assoc in E. cbn [app] in E.
    destruct (head_eq _ _ _ _ _ _ (Forall_inv C1) (Forall_inv S1)
                (Forall_inv C2) (Forall_inv S2) E) as (-> & -> & E').
    destruct (IH final1 closed2 final2 E' (Forall_inv_tail C1) (Forall_inv_tail S1) F1
                 (Forall_inv_tail C2) (Forall_inv_tail S2) F2) as [-> ->].
    auto.
Qed.




(** ** The fuel of [strings.TrimRightFunc] *)

Lemma lastRuneStart_le (fuel : nat) (s : gostring) (lim : Z) :
  forall start, lastRuneStart fuel s start lim <= start.
Proof.
  induction fuel as [|f IH]; intros start; cbn [lastRuneStart].
  - destruct (start <? lim); lia.
  - destruct (start <? lim); [lia|].
    destruct (runeStart (byteAt s start)); [lia|].
    specialize (IH (start - 1)). lia.
Qed.

Lemma decodeLastRune_size (s : gostring) :
  s <> [] -> (1 <= snd (decodeLastRune s) <= length s)%nat.
Proof.
  intros Hne. unfold decodeLastRune.
  assert (Hlen : (0 < length s)%nat) by (destruct s; [contradiction | cbn; lia]).
  destruct (Z.of_nat (length s) =? 0) eqn:E0; [apply Z.eqb_eq in E0; lia|].
  destruct (Z_of_byte (byteAt s (Z.of_nat (length s) - 1)) <? 128); [cbn; lia|].
  pose proof (lastRuneStart_le 4 s (Z.max 0 (Z.of_nat (length s) - 4))
                (Z.of_nat (length s) - 2)) as Hle.
  set (start := Z.max 0 (lastRuneStart 4 s (Z.of_nat (length s) - 2)
                           (Z.max 0 (Z.of_nat (length s) - 4)))) in *.
  destruct (decodeRune (skipn (Z.to_nat start) s)) as [r size].
  destruct (start + Z.of_nat size =? Z.of_nat (length s)) eqn:E; [|cbn; lia].
  apply Z.eqb_eq in E. cbn [snd]. lia.
Qed.

(** The loop of [lastIndexFunc] never uses up a fuel of [i] or more. *)
Lemma lastIndexNotSpace_fuel (s : gostring) (f1 : nat) :
  forall (f2 i : nat),
  (i <= f1)%nat -> (i <= f2)%nat -> (i <= length s)%nat ->
  lastIndexNotSpace f1 s i = lastIndexNotSpace f2 s i.
Proof.
  induction f1 as [|f1 IH]; intros f2 i H1 H2 Hs.
  - assert (i = 0%nat) by lia. subst i. destruct f2; reflexivity.
  - destruct i as [|i]; [destruct f2; reflexivity|].
    destruct f2 as [|f2]; [lia|].
    cbn [lastIndexNotSpace].
    assert (Hne : firstn (S i) s <> []).
    { intros E. apply (f_equal (@length byte)) in E.
      rewrite length_firstn in E. cbn [length] in E. lia. }
    pose proof (decodeLastRune_size _ Hne) as Hsize.
    destruct (decodeLastRune (firstn (S i) s)) as [r size]. cbn [snd] in Hsize.
    destruct (negb (isSpace r)); [reflexivity|].
    apply IH; lia.
Qed.

(** ** StructuredLineParser *)

(** C1: [readPairs] on the five lines of the example succeeds with three
    rows, in order; the comment line and the empty line give no row, and the
    quoted value is one field, without its quotes and with its space. *)
Theorem readPairs_example :
  readPairs (str "key1 value1" ++ nl ++ str "key2 'value two'" ++ nl
             ++ str "# comment" ++ nl ++ nl ++ str "key3 value3")
  = ([[str "key1"; str "value1"];
      [str "key2"; str "value two"];
      [str "key3"; str "value3"]], None)
  /\ scanLines (str "key1 value1" ++ nl ++ str "key2 'value two'" ++ nl
                ++ str "# comment" ++ nl ++ nl ++ str "key3 value3")
     = [str "key1 value1"; str "key2 'value two'"; str "# comment"; str "";
        str "key3 value3"]
  /\ candidateFields (str "# comment") = None
  /\ candidateFields (str "") = None
  /\ candidateFields (str "key2 'value two'") = Some [str "key2"; str "'value two'"]
  /\ stripQuotes (str "'value two'") = str "value two".
Proof. vm_compute. repeat split. Qed.

Lemma outOfBounds_iff (arr : list gostring) (min_cols max_cols : Z) :
  outOfBounds arr min_cols max_cols = true
  <-> Z.of_nat (length arr) < min_cols \/ max_cols < Z.of_nat (length arr).
Proof.
  unfold outOfBounds. rewrite orb_true_iff, Z.ltb_lt, Z.gtb_ltb, Z.ltb_lt. lia.
Qed.

(** The loop stops at the first line whose fields are out of bounds, whatever
    rows it has gathered. *)
Lemma readArrays_loop_error (min_cols max_cols : Z) (lines : list gostring) :
  forall arrays,
  (exists text arr, In text lines /\ candidateFields text = Some arr
                    /\ outOfBounds arr min_cols max_cols = true) ->
  exists before text arr after,
    lines = before ++ text :: after
    /\ candidateFields text = Some arr
    /\ outOfBounds arr min_cols max_cols = true
    /\ (forall t a, In t before -> candidateFields t = Some a ->
                    outOfBounds a min_cols max_cols = false)
    /\ readArrays_loop lines min_cols max_cols arrays
       = ([], Some (columnsError min_cols max_cols text)).
Proof.
  induction lines as [|l lines IH]; intros arrays (text & arr & Hin & Hc & Ho).
  - destruct Hin.
  - cbn [readArrays_loop].
    destruct (candidateFields l) as [a|] eqn:Hl.
    + destruct (outOfBounds a min_cols max_cols) eqn:Ha.
      * exists [], l, a, lines. repeat split; auto. intros t a' [].
      * destruct Hin as [-> | Hin]; [congruence|].
        destruct (IH (arrays ++ [map stripQuotes a])) as (before & t & a' & after & E & Hc' & Ho' & Hb & R).
        { exists text, arr. auto. }
        exists (l :: before), t, a', after. subst lines. repeat split; auto.
        intros t0 a0 [<- | Hin0] Ht0; [congruence | eauto].
    + destruct Hin as [-> | Hin]; [congruence|].
      destruct (IH arrays) as (before & t & a' & after & E & Hc' & Ho' & Hb & R).
      { exists text, arr. auto. }
      exists (l :: before), t, a', after. subst lines. repeat split; auto.
      intros t0 a0 [<- | Hin0] Ht0; [congruence | eauto].
Qed.

Lemma byte_eqb_sym (a b : byte) : Byte.eqb a b = Byte.eqb b a.
Proof.
  destruct (Byte.eqb a b) eqn:E1, (Byte.eqb b a) eqn:E2; try reflexivity.
  - apply Byte.byte_dec_bl in E1. subst b.
    rewrite (Byte.byte_dec_lb (eq_refl a)) in E2. discriminate.
  - apply Byte.byte_dec_bl in E2. subst b.
    rewrite (Byte.byte_dec_lb (eq_refl a)) in E1. discriminate.
Qed.

(** A line with its newline is delivered when it fits the buffer; else the
    scan stops. *)
Lemma scan_loop_line (l : gostring) :
  forall (rest cur : gostring),
  existsb (Byte.eqb b_newline) l = false ->
  scan_loop (l ++ nl ++ rest) cur
  = if Z.of_nat (length (cur ++ l)) <? maxScanTokenSize
    then dropCR (cur ++ l) :: scan_loop rest []
    else [].
Proof.
  induction l as [|b l IH]; intros rest cur Hl.
  - rewrite app_nil_r. reflexivity.
  - cbn [existsb] in Hl. apply orb_false_iff in Hl. destruct Hl as [Hb Hl].
    cbn [app scan_loop].
    rewrite (byte_eqb_sym b b_newline), Hb.
    rewrite (IH rest (cur ++ [b]) Hl), <- app_assoc. reflexivity.
Qed.

(** Lines shorter than the buffer, each with its newline, are delivered
    whatever follows them. *)
Lemma scan_loop_short_lines (lines : list gostring) (rest : gostring) :
  Forall (fun l => existsb (Byte.eqb b_newline) l = false
                   /\ Z.of_nat (length l) < maxScanTokenSize) lines ->
  scan_loop (flat_map (fun l => l ++ nl) lines ++ rest) []
  = map dropCR lines ++ scan_loop rest [].
Proof.
  induction lines as [|l lines IH]; intros H; [reflexivity|].
  pose proof (Forall_inv H) as [Hnl Hlen]. apply Forall_inv_tail in H.
  cbn [flat_map map]. rewrite <- !app_assoc.
  rewrite (scan_loop_line l _ [] Hnl). cbn [app].
  apply Z.ltb_lt in Hlen. rewrite Hlen, (IH H). reflexivity.
Qed.

Lemma existsb_repeat (c b : byte) (n : nat) :
  Byte.eqb c b = false -> existsb (Byte.eqb c) (repeat b n) = false.
Proof.
  intros H. induction n as [|n IH]; [reflexivity|].
  cbn [repeat existsb]. rewrite H, IH. reflexivity.
Qed.

(** C2, as amended: when the candidate fields of a line that the scanner
    delivers are fewer than [min_cols] or more than [max_cols], [readArrays]
    returns no row and the error of the first such line: the expected count
    ([min_cols] alone when the bounds are equal, else both bounds) followed
    by the line as the scanner gave it, comment and quotes included.  The
    scanner delivers every line that only lines shorter than its buffer
    precede and that is shorter than the buffer itself.  The literal cases:
    three fields where two are expected, a line with quotes and a comment,
    and a range of bounds. *)
Theorem readArrays_malformed_row :
  (forall (data : gostring) (min_cols max_cols : Z) (text : gostring)
          (arr : list gostring),
     In text (scanLines data) ->
     candidateFields text = Some arr ->
     Z.of_nat (length arr) < min_cols \/ max_cols < Z.of_nat (length arr) ->
     exists before bad fields after,
       scanLines data = before ++ bad :: after
       /\ candidateFields bad = Some fields
       /\ (Z.of_nat (length fields) < min_cols \/ max_cols < Z.of_nat (length fields))
       /\ (forall t a, In t before -> candidateFields t = Some a ->
             min_cols <= Z.of_nat (length a) <= max_cols)
       /\ readArrays data min_cols max_cols
          = ([], Some (if min_cols =? max_cols
                       then str "expected " ++ fmtInt min_cols
                            ++ str " columns but found: " ++ bad
                       else str "expected " ++ fmtInt min_cols ++ str "~"
                            ++ fmtInt max_cols ++ str " columns but found: " ++ bad)))
  /\ (forall (lines : list gostring) (rest : gostring) (min_cols max_cols : Z)
             (line : gostring) (arr : list gostring),
        Forall (fun l => existsb (Byte.eqb b_newline) l = false
                         /\ Z.of_nat (length l) < maxScanTokenSize) lines ->
        In line lines ->
        candidateFields (dropCR line) = Some arr ->
        Z.of_nat (length arr) < min_cols \/ max_cols < Z.of_nat (length arr) ->
        exists bad fields,
          In bad (scanLines (flat_map (fun l => l ++ nl) lines ++ rest))
          /\ candidateFields bad = Some fields
          /\ (Z.of_nat (length fields) < min_cols \/ max_cols < Z.of_nat (length fields))
          /\ readArrays (flat_map (fun l => l ++ nl) lines ++ rest) min_cols max_cols
             = ([], Some (if min_cols =? max_cols
                          then str "expected " ++ fmtInt min_cols
                               ++ str " columns but found: " ++ bad
                          else str "expected " ++ fmtInt min_cols ++ str "~"
                               ++ fmtInt max_cols ++ str " columns but found: " ++ bad)))
  /\ readArrays (str "a b c") 2 2
     = ([], Some (str "expected 2 columns but found: a b c"))
  /\ readArrays (str "k v" ++ nl ++ str "a 'b c' d # three" ++ nl ++ str "x y") 2 2
     = ([], Some (str "expected 2 columns but found: a 'b c' d # three"))
  /\ readArrays (str "a") 2 3
     = ([], Some (str "expected 2~3 columns but found: a")).
Proof.
  assert (H : forall (data : gostring) (min_cols max_cols : Z) (text : gostring)
          (arr : list gostring),
     In text (scanLines data) ->
     candidateFields text = Some arr ->
     Z.of_nat (length arr) < min_cols \/ max_cols < Z.of_nat (length arr) ->
     exists before bad fields after,
       scanLines data = before ++ bad :: after
       /\ candidateFields bad = Some fields
       /\ (Z.of_nat (length fields) < min_cols \/ max_cols < Z.of_nat (length fields))
       /\ (forall t a, In t before -> candidateFields t = Some a ->
             min_cols <= Z.of_nat (length a) <= max_cols)
       /\ readArrays data min_cols max_cols
          = ([], Some (if min_cols =? max_cols
                       then str "expected " ++ fmtInt min_cols
                            ++ str " columns but found: " ++ bad
                       else str "expected " ++ fmtInt min_cols ++ str "~"
                            ++ fmtInt max_cols ++ str " columns but found: " ++ bad))).
  { intros data min_cols max_cols text arr Hin Hc Ho. apply outOfBounds_iff in Ho.
    destruct (readArrays_loop_error min_cols max_cols (scanLines data) [])
      as (before & bad & fields & after & E & Hc' & Ho' & Hb & R).
    { exists text, arr. auto. }
    exists before, bad, fields, after.
    split; [exact E|]. split; [exact Hc'|].
    split; [apply outOfBounds_iff; exact Ho'|]. split; [|exact R].
    intros t a Ht Ha. specialize (Hb t a Ht Ha).
    destruct (Z_le_gt_dec min_cols (Z.of_nat (length a))) as [Hle|Hgt];
      [destruct (Z_le_gt_dec (Z.of_nat (length a)) max_cols) as [Hle'|Hgt']|].
    - lia.
    - exfalso. assert (Hx : outOfBounds a min_cols max_cols = true)
        by (apply outOfBounds_iff; lia). congruence.
    - exfalso. assert (Hx : outOfBounds a min_cols max_cols = true)
        by (apply outOfBounds_iff; lia). congruence. }
  split; [exact H|]. split; [|vm_compute; repeat split].
  intros lines rest min_cols max_cols line arr Hshort Hin Hc Ho.
  destruct (H (flat_map (fun l => l ++ nl) lines ++ rest) min_cols max_cols
              (dropCR line) arr) as (before & bad & fields & after & E & Hc' & Ho' & _ & R).
  - unfold scanLines. rewrite (scan_loop_short_lines lines rest Hshort).
    apply in_or_app. left. apply in_map. exact Hin.
  - exact Hc.
  - exact Ho.
  - exists bad, fields. split; [|auto].
    rewrite E. apply in_elt.
Qed.

Lemma readArrays_malformed_row_witness :
  exists before bad fields after,
    scanLines (str "x y" ++ nl ++ str "a 'b c' d # three") = before ++ bad :: after
    /\ candidateFields bad = Some fields
    /\ (Z.of_nat (length fields) < 2 \/ 2 < Z.of_nat (length fields))
    /\ (forall t a, In t before -> candidateFields t = Some a ->
          2 <= Z.of_nat (length a) <= 2)
    /\ readArrays (str "x y" ++ nl ++ str "a 'b c' d # three") 2 2
       = ([], Some (if 2 =? 2
                    then str "expected " ++ fmtInt 2
                         ++ str " columns but found: " ++ bad
                    else str "expected " ++ fmtInt 2 ++ str "~"
                         ++ fmtInt 2 ++ str " columns but found: " ++ bad)).
Proof.
  apply (proj1 readArrays_malformed_row
           (str "x y" ++ nl ++ str "a 'b c' d # three") 2 2
           (str "a 'b c' d # three") [str "a"; str "'b c'"; str "d"]).
  - vm_compute. right. left. reflexivity.
  - vm_compute. reflexivity.
  - right. vm_compute. reflexivity.
Defined.

(** The scanner delivers nothing from a line of 65536 bytes on. *)
Lemma scanLines_stops (first long rest : gostring) :
  existsb (Byte.eqb b_newline) first = false ->
  Z.of_nat (length first) < maxScanTokenSize ->
  existsb (Byte.eqb b_newline) long = false ->
  maxScanTokenSize <= Z.of_nat (length long) ->
  scanLines (first ++ nl ++ long ++ nl ++ rest) = [dropCR first].
Proof.
  intros Hfirst Hshort Hnl Hlen. unfold scanLines.
  rewrite (scan_loop_line first (long ++ nl ++ rest) [] Hfirst). cbn [app].
  replace (Z.of_nat (length first) <? maxScanTokenSize) with true
    by (symmetry; apply Z.ltb_lt; exact Hshort).
  rewrite (scan_loop_line long rest [] Hnl). cbn [app].
  replace (Z.of_nat (length long) <? maxScanTokenSize) with false
    by (symmetry; apply Z.ltb_ge; exact Hlen).
  reflexivity.
Qed.

(** C2, as stated, fails for a line that follows a line of 65536 bytes:
    the scanner stops at the long line, [readArrays] does not ask it for
    the error, and the line with three fields is never seen; the row read
    before is returned without error. *)
Lemma readArrays_after_long_line :
  candidateFields (str "c d e") = Some [str "c"; str "d"; str "e"]
  /\ readArrays (str "a b" ++ nl ++ repeat x78 (Z.to_nat maxScanTokenSize) ++ nl
                 ++ str "c d e" ++ nl) 2 2
     = ([[str "a"; str "b"]], None).
Proof.
  split; [vm_compute; reflexivity|].
  unfold readArrays.
  rewrite (scanLines_stops (str "a b") (repeat x78 (Z.to_nat maxScanTokenSize))
             (str "c d e" ++ nl)).
  - vm_compute. reflexivity.
  - reflexivity.
  - vm_compute. reflexivity.
  - apply existsb_repeat. reflexivity.
  - rewrite repeat_length, Z2Nat.id by (vm_compute; discriminate). apply Z.le_refl.
Qed.

(** ** NaturalComparator *)

Lemma stringEqb_eq (s1 s2 : gostring) : stringEqb s1 s2 = true <-> s1 = s2.
Proof.
  revert s2. induction s1 as [|b1 t1 IH]; intros [|b2 t2]; cbn [stringEqb];
    try (split; [discriminate | congruence]); [split; reflexivity|].
  rewrite andb_true_iff, IH. split.
  - intros [Hb ->]. apply Byte.byte_dec_bl in Hb. congruence.
  - intros E. inversion E. split; [apply Byte.byte_dec_lb|]; reflexivity.
Qed.

Lemma stringEqb_refl (s : gostring) : stringEqb s s = true.
Proof. apply stringEqb_eq. reflexivity. Qed.

Lemma stringEqb_neq (s1 s2 : gostring) : s1 <> s2 -> stringEqb s1 s2 = false.
Proof.
  intros H. destruct (stringEqb s1 s2) eqn:E; [|reflexivity].
  apply stringEqb_eq in E. contradiction.
Qed.

Lemma spanRun_app (d : bool) (s : gostring) :
  fst (spanRun d s) ++ snd (spanRun d s) = s.
Proof.
  induction s as [|b t IH]; [reflexivity|].
  cbn [spanRun]. destruct (Bool.eqb (isDigit b) d); [|reflexivity].
  destruct (spanRun d t) as [run rest]. cbn [fst snd app] in *. congruence.
Qed.

Lemma spanRun_length (d : bool) (s : gostring) :
  (length (snd (spanRun d s)) <= length s)%nat.
Proof.
  rewrite <- (spanRun_app d s) at 2. rewrite length_app. lia.
Qed.

(** What [spanRun] leaves starts with a byte of the other kind. *)
Lemma spanRun_rest (d : bool) (s : gostring) :
  match snd (spanRun d s) with
  | b :: _ => isDigit b = negb d
  | [] => True
  end.
Proof.
  induction s as [|b t IH]; [exact I|].
  cbn [spanRun]. destruct (Bool.eqb (isDigit b) d) eqn:E.
  - destruct (spanRun d t) as [run rest]. exact IH.
  - cbn [snd]. destruct (isDigit b), d; cbn in *; congruence.
Qed.

Lemma spanRun_run (d : bool) (s : gostring) :
  forallb (fun b => Bool.eqb (isDigit b) d) (fst (spanRun d s)) = true.
Proof.
  induction s as [|b t IH]; [reflexivity|].
  cbn [spanRun]. destruct (Bool.eqb (isDigit b) d) eqn:E; [|reflexivity].
  destruct (spanRun d t) as [run rest]. cbn [fst forallb] in *. rewrite E, IH.
  reflexivity.
Qed.

(** [spanRun] stops where a run ends. *)
Lemma spanRun_exact (d : bool) (q rest : gostring) :
  forallb (fun b => Bool.eqb (isDigit b) d) q = true ->
  match rest with b :: _ => isDigit b = negb d | [] => True end ->
  spanRun d (q ++ rest) = (q, rest).
Proof.
  intros Hq Hrest. induction q as [|b q IH].
  - cbn [app]. destruct rest as [|b rest]; [reflexivity|].
    cbn [spanRun]. rewrite Hrest. destruct d; reflexivity.
  - cbn [forallb] in Hq. apply andb_true_iff in Hq. destruct Hq as [Hb Hq].
    cbn [app spanRun]. rewrite Hb, (IH Hq). reflexivity.
Qed.

(** The loop gives the same result for every fuel above [len(s1)]. *)
Lemma naturalLess_loop_fuel (f1 : nat) :
  forall (f2 : nat) (s1 s2 : gostring),
  (length s1 < f1)%nat -> (length s1 < f2)%nat ->
  naturalLess_loop f1 s1 s2 = naturalLess_loop f2 s1 s2.
Proof.
  induction f1 as [|f1 IH]; intros f2 s1 s2 H1 H2; [lia|].
  destruct f2 as [|f2]; [lia|].
  cbn [naturalLess_loop].
  destruct s1 as [|b1 t1]; [reflexivity|].
  destruct s2 as [|b2 t2]; [reflexivity|].
  pose proof (spanRun_length (isDigit b1) t1) as Hlen.
  cbn [spanRun]. rewrite !Bool.eqb_reflx.
  destruct (spanRun (isDigit b1) t1) as [run1 rest1]. cbn [snd] in Hlen.
  destruct (spanRun (isDigit b2) t2) as [run2 rest2].
  destruct (stringEqb (b1 :: run1) (b2 :: run2)); [|reflexivity].
  apply IH; cbn [length] in *; lia.
Qed.

(** One iteration of the loop of [naturalLess]. *)
Lemma naturalLess_step (b1 b2 : byte) (t1 t2 : gostring) :
  naturalLess (b1 :: t1) (b2 :: t2)
  = let (run1, rest1) := spanRun (isDigit b1) (b1 :: t1) in
    let (run2, rest2) := spanRun (isDigit b2) (b2 :: t2) in
    if stringEqb run1 run2 then naturalLess rest1 rest2
    else if isDigit b1 && isDigit b2 then
      match Atoi run1, Atoi run2 with
      | Some num1, Some num2 => num1 <? num2
      | _, _ => stringLtb run1 run2
      end
    else stringLtb run1 run2.
Proof.
  unfold naturalLess at 1. cbn [naturalLess_loop].
  pose proof (spanRun_length (isDigit b1) t1) as Hlen.
  cbn [spanRun]. rewrite !Bool.eqb_reflx.
  destruct (spanRun (isDigit b1) t1) as [run1 rest1]. cbn [snd] in Hlen.
  destruct (spanRun (isDigit b2) t2) as [run2 rest2].
  destruct (stringEqb (b1 :: run1) (b2 :: run2)); [|reflexivity].
  unfold naturalLess. apply naturalLess_loop_fuel; cbn [length]; lia.
Qed.

Lemma naturalLess_nil_r (s1 : gostring) : naturalLess s1 [] = false.
Proof. destruct s1; reflexivity. Qed.

Lemma runBoundary_nil_r (p : gostring) : runBoundary p [].
Proof. unfold runBoundary. destruct (rev p); exact I. Qed.

Lemma runBoundary_app (q p u : gostring) :
  p <> [] -> runBoundary (q ++ p) u -> runBoundary p u.
Proof.
  intros Hp. unfold runBoundary. rewrite rev_app_distr.
  destruct (rev p) as [|last rp] eqn:E.
  - exfalso. apply Hp. apply (f_equal (@rev byte)) in E.
    rewrite rev_involutive in E. exact E.
  - cbn [app]. auto.
Qed.

(** When [q] is all of one kind and a run ends between [q] and [u], the
    first byte of [u] is of the other kind. *)
Lemma runBoundary_head (d : bool) (q u : gostring) :
  q <> [] ->
  forallb (fun b => Bool.eqb (isDigit b) d) q = true ->
  runBoundary q u ->
  match u with b :: _ => isDigit b = negb d | [] => True end.
Proof.
  intros Hq Hall Hb. destruct u as [|b u]; [exact I|].
  unfold runBoundary in Hb. destruct (rev q) as [|last rq] eqn:E.
  - exfalso. apply Hq. apply (f_equal (@rev byte)) in E.
    rewrite rev_involutive in E. exact E.
  - assert (Hin : In last q) by (apply in_rev; rewrite E; left; reflexivity).
    rewrite forallb_forall in Hall. specialize (Hall last Hin).
    destruct (isDigit last), (isDigit b), d; cbn in *; congruence.
Qed.

(** The loop passes a common prefix made of whole runs. *)
Lemma naturalLess_common_prefix (n : nat) :
  forall p u1 u2 : gostring,
  (length p <= n)%nat ->
  runBoundary p u1 -> runBoundary p u2 ->
  naturalLess (p ++ u1) (p ++ u2) = naturalLess u1 u2.
Proof.
  induction n as [|n IH]; intros p u1 u2 Hn B1 B2.
  - destruct p; [reflexivity | cbn in Hn; lia].
  - destruct p as [|c p]; [reflexivity|].
    cbn [app]. rewrite naturalLess_step.
    pose proof (spanRun_app (isDigit c) (c :: p)) as Happ.
    pose proof (spanRun_run (isDigit c) (c :: p)) as Hrun.
    pose proof (spanRun_rest (isDigit c) (c :: p)) as Hrest.
    pose proof (spanRun_length (isDigit c) p) as Hlen.
    assert (Hne : fst (spanRun (isDigit c) (c :: p)) <> []).
    { cbn [spanRun]. rewrite Bool.eqb_reflx. destruct (spanRun (isDigit c) p). discriminate. }
    assert (Hlen' : (length (snd (spanRun (isDigit c) (c :: p))) <= n)%nat).
    { cbn [spanRun]. rewrite Bool.eqb_reflx.
      destruct (spanRun (isDigit c) p). cbn [snd length] in *. lia. }
    destruct (spanRun (isDigit c) (c :: p)) as [q p'']. cbn [fst snd] in *.
    assert (Hspan : forall u, runBoundary (c :: p) u ->
              spanRun (isDigit c) (c :: p ++ u) = (q, p'' ++ u)).
    { intros u Bu. rewrite app_comm_cons, <- Happ, <- app_assoc.
      apply spanRun_exact; [exact Hrun|].
      destruct p'' as [|x p'']; [|exact Hrest].
      cbn [app]. rewrite app_nil_r in Happ. subst q.
      apply (runBoundary_head (isDigit c) (c :: p) u); auto. }
    rewrite (Hspan u1 B1), (Hspan u2 B2), stringEqb_refl.
    destruct p'' as [|x p'']; [reflexivity|].
    apply IH; [exact Hlen' | |].
    + apply (runBoundary_app q); [discriminate | rewrite Happ; exact B1].
    + apply (runBoundary_app q); [discriminate | rewrite Happ; exact B2].
Qed.

Lemma isRunOf_head (d : bool) (r : gostring) :
  isRunOf d r -> exists b t, r = b :: t /\ isDigit b = d.
Proof.
  intros [Hne Hall]. destruct r as [|b t]; [contradiction|].
  exists b, t. split; [reflexivity|].
  cbn [forallb] in Hall. apply andb_true_iff in Hall. destruct Hall as [Hb _].
  apply Bool.eqb_prop in Hb. exact Hb.
Qed.

Lemma isRunOf_digits (r : gostring) :
  isRunOf true r -> forallb isDigit r = true.
Proof.
  intros [_ Hall]. rewrite forallb_forall in *. intros b Hb.
  specialize (Hall b Hb). apply Bool.eqb_prop in Hall. exact Hall.
Qed.

Lemma digitsValue_nonneg_acc (ds : gostring) (acc : Z) :
  0 <= acc ->
  forallb isDigit ds = true ->
  0 <= fold_left (fun a d => 10 * a + (Z_of_byte d - 48)) ds acc.
Proof.
  revert acc. induction ds as [|d ds IH]; intros acc Hacc Hall; [exact Hacc|].
  cbn [forallb] in Hall. apply andb_true_iff in Hall. destruct Hall as [Hd Hall].
  cbn [fold_left]. apply IH; [|exact Hall].
  unfold isDigit in Hd. bool_to_prop. lia.
Qed.

Lemma digitsValue_nonneg (ds : gostring) :
  forallb isDigit ds = true -> 0 <= digitsValue ds.
Proof. apply digitsValue_nonneg_acc. lia. Qed.

(** [strconv.Atoi] on a run of digits: its value, unless it is above the
    largest [int]. *)
Lemma Atoi_digits (r : gostring) :
  isRunOf true r ->
  Atoi r = if digitsValue r <=? maxInt then Some (digitsValue r) else None.
Proof.
  intros Hr. pose proof (isRunOf_digits r Hr) as Hall.
  destruct (isRunOf_head true r Hr) as (b & t & -> & Hb).
  unfold Atoi.
  assert (E1 : Byte.eqb b x2b = false).
  { destruct (Byte.eqb b x2b) eqn:E; [|reflexivity].
    apply Byte.byte_dec_bl in E. subst b. discriminate. }
  assert (E2 : Byte.eqb b x2d = false).
  { destruct (Byte.eqb b x2d) eqn:E; [|reflexivity].
    apply Byte.byte_dec_bl in E. subst b. discriminate. }
  rewrite E1, E2, Hall.
  pose proof (digitsValue_nonneg _ Hall) as Hpos.
  replace (minInt <=? digitsValue (b :: t)) with true
    by (symmetry; apply Z.leb_le; unfold minInt; lia).
  reflexivity.
Qed.

(** The comparison of the first pair of runs that differ. *)
Lemma naturalLess_runs (d1 d2 : bool) (r1 t1 r2 t2 : gostring) :
  isRunOf d1 r1 -> isRunOf d2 r2 ->
  runBoundary r1 t1 -> runBoundary r2 t2 ->
  r1 <> r2 ->
  naturalLess (r1 ++ t1) (r2 ++ t2)
  = if d1 && d2 then
      match Atoi r1, Atoi r2 with
      | Some num1, Some num2 => num1 <? num2
      | _, _ => stringLtb r1 r2
      end
    else stringLtb r1 r2.
Proof.
  intros H1 H2 B1 B2 Hneq.
  destruct (isRunOf_head d1 r1 H1) as (b1 & q1 & E1 & Hb1).
  destruct (isRunOf_head d2 r2 H2) as (b2 & q2 & E2 & Hb2).
  assert (S1 : spanRun d1 (r1 ++ t1) = (r1, t1)).
  { apply spanRun_exact; [apply H1|].
    apply (runBoundary_head d1 r1 t1); [apply H1 | apply H1 | exact B1]. }
  assert (S2 : spanRun d2 (r2 ++ t2) = (r2, t2)).
  { apply spanRun_exact; [apply H2|].
    apply (runBoundary_head d2 r2 t2); [apply H2 | apply H2 | exact B2]. }
  rewrite E1 in S1 |- *. rewrite E2 in S2 |- *. cbn [app] in *.
  rewrite naturalLess_step, Hb1, Hb2, S1, S2.
  rewrite stringEqb_neq by congruence. reflexivity.
Qed.

(** C4, as amended: the three literal cases; and where [p] is a common
    prefix of whole runs and [r1], [r2] are the first runs that differ: two
    runs of digits whose values both fit an [int] are compared as integers;
    two runs of which one is no run of digits, or two runs of digits of which
    one does not fit an [int], are compared as strings. *)
Theorem naturalLess_first_difference :
  naturalLess (str "img2") (str "img10") = true
  /\ naturalLess (str "img10") (str "img2") = false
  /\ naturalLess (str "bar2bar") (str "foo10bar") = true
  /\ (forall p r1 t1 r2 t2 : gostring,
        isRunOf true r1 -> isRunOf true r2 ->
        runBoundary p r1 -> runBoundary p r2 ->
        runBoundary r1 t1 -> runBoundary r2 t2 ->
        r1 <> r2 ->
        digitsValue r1 <= maxInt -> digitsValue r2 <= maxInt ->
        naturalLess (p ++ r1 ++ t1) (p ++ r2 ++ t2)
        = (digitsValue r1 <? digitsValue r2))
  /\ (forall (d1 d2 : bool) (p r1 t1 r2 t2 : gostring),
        isRunOf d1 r1 -> isRunOf d2 r2 ->
        runBoundary p r1 -> runBoundary p r2 ->
        runBoundary r1 t1 -> runBoundary r2 t2 ->
        r1 <> r2 ->
        d1 = false \/ d2 = false ->
        naturalLess (p ++ r1 ++ t1) (p ++ r2 ++ t2) = stringLtb r1 r2)
  /\ (forall p r1 t1 r2 t2 : gostring,
        isRunOf true r1 -> isRunOf true r2 ->
        runBoundary p r1 -> runBoundary p r2 ->
        runBoundary r1 t1 -> runBoundary r2 t2 ->
        r1 <> r2 ->
        maxInt < digitsValue r1 \/ maxInt < digitsValue r2 ->
        naturalLess (p ++ r1 ++ t1) (p ++ r2 ++ t2) = stringLtb r1 r2).
Proof.
  assert (boundary_app : forall p r t : gostring,
            r <> [] -> runBoundary p r -> runBoundary p (r ++ t)).
  { intros p r t Hr. unfold runBoundary. destruct (rev p); [auto|].
    destruct r; [contradiction | auto]. }
  assert (walk : forall p r1 t1 r2 t2 d1 d2,
            isRunOf d1 r1 -> isRunOf d2 r2 ->
            runBoundary p r1 -> runBoundary p r2 ->
            naturalLess (p ++ r1 ++ t1) (p ++ r2 ++ t2)
            = naturalLess (r1 ++ t1) (r2 ++ t2)).
  { intros p r1 t1 r2 t2 d1 d2 H1 H2 B1 B2.
    apply (naturalLess_common_prefix (length p)); [lia | |];
      apply boundary_app; auto; [apply H1 | apply H2]. }
  split; [reflexivity|]. split; [reflexivity|]. split; [reflexivity|].
  split; [|split].
  - intros p r1 t1 r2 t2 H1 H2 P1 P2 B1 B2 Hneq V1 V2.
    rewrite (walk p r1 t1 r2 t2 true true) by assumption.
    rewrite (naturalLess_runs true true) by assumption.
    rewrite !Atoi_digits by assumption.
    apply Z.leb_le in V1, V2. rewrite V1, V2. reflexivity.
  - intros d1 d2 p r1 t1 r2 t2 H1 H2 P1 P2 B1 B2 Hneq Hd.
    rewrite (walk p r1 t1 r2 t2 d1 d2) by assumption.
    rewrite (naturalLess_runs d1 d2) by assumption.
    destruct Hd; subst; [|rewrite andb_false_r]; reflexivity.
  - intros p r1 t1 r2 t2 H1 H2 P1 P2 B1 B2 Hneq Hv.
    rewrite (walk p r1 t1 r2 t2 true true) by assumption.
    rewrite (naturalLess_runs true true) by assumption.
    rewrite !Atoi_digits by assumption.
    destruct Hv as [Hv | Hv]; apply Z.leb_gt in Hv; rewrite Hv;
      [reflexivity | destruct (digitsValue r1 <=? maxInt); reflexivity].
Qed.

Lemma naturalLess_first_difference_witness :
  naturalLess (str "foo" ++ str "2" ++ str "bar") (str "foo" ++ str "10" ++ str "bar")
  = (digitsValue (str "2") <? digitsValue (str "10"))
  /\ naturalLess (str "12" ++ str "ab" ++ str "3") (str "12" ++ str "-" ++ str "7")
     = stringLtb (str "ab") (str "-").
Proof.
  split.
  - apply (proj1 (proj2 (proj2 (proj2 naturalLess_first_difference)))).
    + split; [discriminate | reflexivity].
    + split; [discriminate | reflexivity].
    + cbn. discriminate.
    + cbn. discriminate.
    + cbn. discriminate.
    + cbn. discriminate.
    + discriminate.
    + vm_compute. discriminate.
    + vm_compute. discriminate.
  - apply (proj1 (proj2 (proj2 (proj2 (proj2 naturalLess_first_difference)))) false false).
    + split; [discriminate | reflexivity].
    + split; [discriminate | reflexivity].
    + cbn. discriminate.
    + cbn. discriminate.
    + cbn. discriminate.
    + cbn. discriminate.
    + discriminate.
    + left. reflexivity.
Defined.

(** C4, as stated, fails for runs of digits above the largest [int]:
    [strconv.Atoi] reports an error for both runs below, and the runs are
    compared as strings, with the opposite result. *)
Lemma naturalLess_overflow_lexical :
  forallb isDigit (str "9223372036854775808") = true
  /\ forallb isDigit (str "10000000000000000000") = true
  /\ (digitsValue (str "9223372036854775808")
      <? digitsValue (str "10000000000000000000")) = true
  /\ naturalLess (str "9223372036854775808") (str "10000000000000000000") = false
  /\ naturalLess (str "img9223372036854775808.png")
                 (str "img10000000000000000000.png") = false.
Proof. vm_compute. repeat split. Qed.

(** C5: when the runs compared so far are equal and one string ends there
    ([s] against [s ++ t], where [t] starts a new run), the string that ended
    sorts first: [naturalLess(s, s ++ t)] is true and [naturalLess(s ++ t, s)]
    is false; two strings that end together are equal, so
    [naturalLess(s, s)] is false. *)
Theorem naturalLess_exhausted :
  (forall s t : gostring,
     t <> [] -> runBoundary s t ->
     naturalLess s (s ++ t) = true /\ naturalLess (s ++ t) s = false)
  /\ (forall s : gostring, naturalLess s s = false).
Proof.
  split.
  - intros s t Ht B. split.
    + rewrite <- (app_nil_r s) at 1.
      rewrite (naturalLess_common_prefix (length s));
        [| lia | apply runBoundary_nil_r | exact B].
      destruct t; [contradiction | reflexivity].
    + rewrite <- (app_nil_r s) at 2.
      rewrite (naturalLess_common_prefix (length s));
        [| lia | exact B | apply runBoundary_nil_r].
      apply naturalLess_nil_r.
  - intros s. rewrite <- (app_nil_r s).
    rewrite (naturalLess_common_prefix (length s));
      [reflexivity | lia | apply runBoundary_nil_r | apply runBoundary_nil_r].
Qed.

Lemma naturalLess_exhausted_witness :
  naturalLess (str "img") (str "img" ++ str "12") = true
  /\ naturalLess (str "img" ++ str "12") (str "img") = false.
Proof.
  apply (proj1 naturalLess_exhausted).
  - discriminate.
  - cbn. discriminate.
Defined.

(** ** DisplayWidthSlicer *)

Lemma skipn_nth_cons (A : Type) (d : A) (l : list A) (i : nat) :
  (i < length l)%nat -> skipn i l = nth i l d :: skipn (S i) l.
Proof.
  revert i. induction l as [|x l IH]; intros i Hi; [cbn in Hi; lia|].
  destruct i as [|i]; [reflexivity|].
  cbn [skipn nth]. apply IH. cbn in Hi. lia.
Qed.

Lemma last_app_cons (A : Type) (d : A) (pre : list A) (x : A) (l : list A) :
  last (pre ++ x :: l) d = last (x :: l) d.
Proof.
  induction pre as [|y pre IH]; [reflexivity|].
  cbn [app]. rewrite <- IH. cbn [last].
  destruct (pre ++ x :: l) eqn:E; [destruct pre; discriminate | reflexivity].
Qed.

Lemma sampleWidth_nonneg (r : rune) : 0 <= sampleWidth r.
Proof.
  unfold sampleWidth.
  repeat match goal with |- context [if ?c then _ else _] => destruct c end; lia.
Qed.

Section DisplayWidthProofs.

Variable RuneWidth : rune -> Z.

Lemma fold_width_acc (rs : list rune) (acc : Z) :
  fold_left (fun w r => w + RuneWidth r) rs acc = acc + runeSliceWidth RuneWidth rs.
Proof.
  unfold runeSliceWidth. revert acc. induction rs as [|r rs IH]; intros acc.
  - cbn. lia.
  - cbn [fold_left]. rewrite IH, (IH (0 + RuneWidth r)). lia.
Qed.

Lemma width_nil : runeSliceWidth RuneWidth [] = 0.
Proof. reflexivity. Qed.

Lemma width_cons (r : rune) (rs : list rune) :
  runeSliceWidth RuneWidth (r :: rs) = RuneWidth r + runeSliceWidth RuneWidth rs.
Proof.
  unfold runeSliceWidth at 1. cbn [fold_left]. rewrite fold_width_acc. lia.
Qed.

Lemma width_app (a b : list rune) : runeSliceWidth RuneWidth (a ++ b) = runeSliceWidth RuneWidth a + runeSliceWidth RuneWidth b.
Proof.
  induction a as [|r a IH]; [rewrite width_nil; reflexivity|].
  cbn [app]. rewrite !width_cons, IH. lia.
Qed.

(** The loop of [runeSliceWidthLastRange] keeps [lastWidth] the columns of
    [rs[n:]], never above [maxWidth]. *)
Lemma widthLastRange_loop_spec (rs : list rune) (maxWidth : Z) (n : nat) :
  forall lastWidth,
  (n <= length rs)%nat ->
  lastWidth = runeSliceWidth RuneWidth (skipn n rs) ->
  lastWidth <= maxWidth ->
  exists before,
    rs = before ++ widthLastRange_loop RuneWidth rs maxWidth n lastWidth
    /\ runeSliceWidth RuneWidth (widthLastRange_loop RuneWidth rs maxWidth n lastWidth) <= maxWidth
    /\ (before = []
        \/ exists before' r,
             before = before' ++ [r]
             /\ maxWidth
                < runeSliceWidth RuneWidth (r :: widthLastRange_loop RuneWidth rs maxWidth n lastWidth)).
Proof.
  induction n as [|i IH]; intros lastWidth Hn Hw Hmax.
  - exists []. cbn [widthLastRange_loop skipn app] in *. subst. auto.
  - cbn [widthLastRange_loop].
    assert (Hs : skipn i rs = nth i rs 0 :: skipn (S i) rs)
      by (apply skipn_nth_cons; lia).
    destruct (lastWidth + RuneWidth (nth i rs 0) >? maxWidth) eqn:E.
    + exists (firstn i rs ++ [nth i rs 0]). split; [|split].
      * rewrite <- app_assoc. cbn [app]. rewrite <- Hs. symmetry. apply firstn_skipn.
      * lia.
      * right. exists (firstn i rs), (nth i rs 0). split; [reflexivity|].
        rewrite width_cons, <- Hw. apply Z.gtb_lt in E. lia.
    + apply IH; [lia | rewrite Hs, width_cons; lia |].
      rewrite Z.gtb_ltb in E. apply Z.ltb_ge in E. lia.
Qed.

Hypothesis width_nonneg : forall r, 0 <= RuneWidth r.

Lemma width_pos (rs : list rune) : 0 <= runeSliceWidth RuneWidth rs.
Proof.
  induction rs as [|r rs IH]; [rewrite width_nil; lia|].
  rewrite width_cons. specialize (width_nonneg r). lia.
Qed.

Lemma width_last_pos (rs : list rune) :
  rs <> [] -> 0 < RuneWidth (last rs 0) -> 0 < runeSliceWidth RuneWidth rs.
Proof.
  intros Hne Hl.
  replace (runeSliceWidth RuneWidth rs)
    with (runeSliceWidth RuneWidth (removelast rs ++ [last rs 0]))
    by (rewrite <- app_removelast_last; auto).
  rewrite width_app, width_cons, width_nil.
  pose proof (width_pos (removelast rs)). lia.
Qed.

(** Every proper prefix is narrower than a sequence whose last rune takes
    room. *)
Lemma width_prefix_lt (rs before : list rune) (r : rune) (rest : list rune) :
  0 < RuneWidth (last rs 0) ->
  rs = before ++ r :: rest ->
  runeSliceWidth RuneWidth before < runeSliceWidth RuneWidth rs.
Proof.
  intros Hl E. subst rs. rewrite last_app_cons in Hl.
  rewrite width_app. assert (0 < runeSliceWidth RuneWidth (r :: rest)); [|lia].
  apply width_last_pos; [discriminate | exact Hl].
Qed.

Lemma width_prefix_le (rs before : list rune) (r : rune) (rest : list rune) :
  rs = before ++ r :: rest ->
  runeSliceWidth RuneWidth before + RuneWidth r <= runeSliceWidth RuneWidth rs.
Proof.
  intros E. subst rs. rewrite width_app, width_cons.
  pose proof (width_pos rest). lia.
Qed.

(** The loop of [runeSliceWidthRange] returns all of [rs] when the begin
    boundary is found at the first rune or never, and no rune meets the
    end. *)
Lemma widthRange_loop_all (all : list rune) (beg end_ : Z) :
  (forall before r rest, all = before ++ r :: rest ->
     runeSliceWidth RuneWidth before <> end_ /\ runeSliceWidth RuneWidth before + RuneWidth r <= end_) ->
  forall (rest before : list rune) (b : nat) (foundb : bool),
  all = before ++ rest ->
  b = 0%nat ->
  (foundb = true
   \/ (forall pre r post, all = pre ++ r :: post -> runeSliceWidth RuneWidth pre < beg)
   \/ (before = [] /\ beg <= 0)) ->
  widthRange_loop RuneWidth all rest beg end_ (length before) (runeSliceWidth RuneWidth before) b foundb
  = all.
Proof.
  intros Hend rest. induction rest as [|r rest IH]; intros before b foundb E Hb Hf.
  - cbn [widthRange_loop]. subst b. reflexivity.
  - cbn [widthRange_loop].
    destruct (Hend before r rest E) as [Hne Hle].
    assert (Hstop : (runeSliceWidth RuneWidth before =? end_) || (runeSliceWidth RuneWidth before + RuneWidth r >? end_) = false).
    { apply orb_false_iff. split; [apply Z.eqb_neq; exact Hne|].
      rewrite Z.gtb_ltb. apply Z.ltb_ge. exact Hle. }
    assert (Hnext : all = (before ++ [r]) ++ rest)
      by (rewrite <- app_assoc; exact E).
    assert (Hlen : S (length before) = length (before ++ [r]))
      by (rewrite length_app; cbn; lia).
    assert (Hwid : runeSliceWidth RuneWidth before + RuneWidth r = runeSliceWidth RuneWidth (before ++ [r]))
      by (rewrite width_app, width_cons, width_nil; lia).
    destruct ((runeSliceWidth RuneWidth before >=? beg) && negb foundb) eqn:Hfound.
    + apply andb_true_iff in Hfound. destruct Hfound as [Hge Hnf].
      apply negb_true_iff in Hnf. subst foundb.
      destruct Hf as [Hf | [Hf | [Hf _]]].
      * discriminate.
      * exfalso. specialize (Hf before r rest E).
        rewrite Z.geb_leb in Hge. apply Z.leb_le in Hge. lia.
      * subst before. cbn [length]. rewrite Hstop.
        change 1%nat with (length ([] ++ [r])). rewrite Hwid.
        apply IH; auto.
    + rewrite Hstop, Hlen, Hwid. apply IH; [exact Hnext | exact Hb |].
      destruct Hf as [Hf | [Hf | [Hf Hbeg]]]; [auto | auto |].
      left. subst before. rewrite width_nil in Hfound.
      destruct foundb; [reflexivity|]. exfalso.
      rewrite andb_true_r in Hfound. rewrite Z.geb_leb in Hfound.
      apply Z.leb_gt in Hfound. lia.
Qed.

(** C8: with widths that are never negative and [maxWidth >= 0],
    [runeSliceWidthLastRange(rs, maxWidth)] is a suffix of [rs] that takes at
    most [maxWidth] columns; unless it is all of [rs], it takes more than
    [maxWidth] with the rune before it; and no suffix of [rs] within
    [maxWidth] is longer. *)
Theorem runeSliceWidthLastRange_longest (rs : list rune) (maxWidth : Z) :
  0 <= maxWidth ->
  exists before,
    rs = before ++ runeSliceWidthLastRange RuneWidth rs maxWidth
    /\ runeSliceWidth RuneWidth (runeSliceWidthLastRange RuneWidth rs maxWidth)
       <= maxWidth
    /\ (before = []
        \/ exists before' r,
             before = before' ++ [r]
             /\ maxWidth
                < runeSliceWidth RuneWidth
                    (r :: runeSliceWidthLastRange RuneWidth rs maxWidth))
    /\ (forall pre suf,
          rs = pre ++ suf ->
          runeSliceWidth RuneWidth suf <= maxWidth ->
          (length suf <= length (runeSliceWidthLastRange RuneWidth rs maxWidth))%nat).
Proof.
  intros Hmax. unfold runeSliceWidthLastRange.
  destruct (widthLastRange_loop_spec rs maxWidth (length rs) 0)
    as (before & E & Hw & Hb).
  { lia. }
  { rewrite skipn_all. reflexivity. }
  { exact Hmax. }
  set (res := widthLastRange_loop RuneWidth rs maxWidth (length rs) 0) in *.
  exists before. repeat split; auto.
  intros pre suf Es Hs.
  destruct Hb as [-> | (before' & r & -> & Hr)].
  - cbn [app] in E. rewrite <- E, Es, length_app. lia.
  - destruct (Nat.le_gt_cases (length suf) (length res)) as [Hle | Hgt]; [exact Hle|].
    exfalso. rewrite <- app_assoc in E. cbn [app] in E.
    rewrite Es in E. apply app_eq_app in E. destruct E as (l & [[E1 E2] | [E1 E2]]).
    + assert (l = []).
      { apply (f_equal (@length rune)) in E2. rewrite length_app in E2.
        cbn [length] in E2. destruct l; [reflexivity | cbn [length] in E2; lia]. }
      subst l. cbn [app] in E2. subst suf. lia.
    + subst suf. rewrite width_app in Hs. pose proof (width_pos l). lia.
Qed.

(** C7, as amended: with widths that are never negative, when [rs] is empty
    or its last rune has a positive width,
    [runeSliceWidthRange(rs, 0, runeSliceWidth(rs))] is [rs]. *)
Theorem runeSliceWidthRange_whole (rs : list rune) :
  rs = [] \/ 0 < RuneWidth (last rs 0) ->
  runeSliceWidthRange RuneWidth rs 0 (runeSliceWidth RuneWidth rs) = rs.
Proof.
  intros [-> | Hl]; [reflexivity|].
  destruct rs as [|r0 rs0] eqn:Ers; [reflexivity|]. rewrite <- Ers in *.
  assert (Hne : rs <> []) by (subst rs; discriminate).
  pose proof (width_last_pos rs Hne Hl) as Hpos.
  unfold runeSliceWidthRange.
  destruct (0 =? runeSliceWidth RuneWidth rs) eqn:E0;
    [apply Z.eqb_eq in E0; lia|].
  apply (widthRange_loop_all rs 0 (runeSliceWidth RuneWidth rs)) with (before := []).
  - intros before r rest E. split.
    + pose proof (width_prefix_lt rs before r rest Hl E). lia.
    + apply (width_prefix_le rs before r rest E).
  - reflexivity.
  - reflexivity.
  - right. right. split; [reflexivity | lia].
Qed.

(** C9, as amended: with widths that are never negative, for a sequence
    [rs] that is not empty and [beg < end] with [beg >= runeSliceWidth(rs)],
    [runeSliceWidthRange(rs, beg, end)] is all of [rs] when [beg] is above
    [runeSliceWidth(rs)], or [runeSliceWidth(rs)] is 0, or the last rune of
    [rs] has a positive width. *)
Theorem runeSliceWidthRange_begin_past_end (rs : list rune) (beg end_ : Z) :
  rs <> [] ->
  beg < end_ ->
  runeSliceWidth RuneWidth rs <= beg ->
  (runeSliceWidth RuneWidth rs < beg
   \/ runeSliceWidth RuneWidth rs = 0
   \/ 0 < RuneWidth (last rs 0)) ->
  runeSliceWidthRange RuneWidth rs beg end_ = rs.
Proof.
  intros Hne Hlt Hge Hcase.
  unfold runeSliceWidthRange.
  destruct (beg =? end_) eqn:E0; [apply Z.eqb_eq in E0; lia|].
  apply (widthRange_loop_all rs beg end_) with (before := []).
  - intros before r rest E.
    pose proof (width_prefix_le rs before r rest E).
    pose proof (width_nonneg r). lia.
  - reflexivity.
  - reflexivity.
  - right. destruct Hcase as [H | [H | H]].
    + left. intros pre r post E.
      pose proof (width_prefix_le rs pre r post E).
      pose proof (width_nonneg r). lia.
    + pose proof (width_pos rs).
      destruct (Z.eq_dec beg 0) as [-> | Hb]; [right; split; [reflexivity | lia]|].
      left. intros pre r post E.
      pose proof (width_prefix_le rs pre r post E).
      pose proof (width_nonneg r). lia.
    + left. intros pre r post E.
      pose proof (width_prefix_lt rs pre r post H E). lia.
Qed.

End DisplayWidthProofs.

Section DisplayWidthConverse.

Variable RuneWidth : rune -> Z.

(** When some rune of [rest] starts at the column [end_], the loop stops
    before the end of [rs]. *)
Lemma widthRange_loop_stops (all : list rune) (beg end_ : Z) :
  forall (rest before : list rune) (b : nat) (foundb : bool),
  all = before ++ rest ->
  (exists pre r post,
     rest = pre ++ r :: post
     /\ runeSliceWidth RuneWidth (before ++ pre) = end_) ->
  (length (widthRange_loop RuneWidth all rest beg end_ (length before)
             (runeSliceWidth RuneWidth before) b foundb)
   < length all)%nat.
Proof.
  intros rest. induction rest as [|r0 rest IH];
    intros before b foundb E (pre & r & post & Er & Hw).
  - destruct pre; discriminate.
  - cbn [widthRange_loop].
    assert (Hall : (length before < length all)%nat)
      by (rewrite E, length_app; cbn [length]; lia).
    destruct ((runeSliceWidth RuneWidth before >=? beg) && negb foundb);
      (destruct ((runeSliceWidth RuneWidth before =? end_)
                 || (runeSliceWidth RuneWidth before + RuneWidth r0 >? end_)) eqn:Hstop;
       [rewrite length_firstn; lia|]);
      apply orb_false_iff in Hstop; destruct Hstop as [Hne _];
      apply Z.eqb_neq in Hne;
      (destruct pre as [|x pre];
       [rewrite app_nil_r in Hw; contradiction|]);
      cbn [app] in Er; inversion Er; subst x rest;
      replace (S (length before)) with (length (before ++ [r0]))
        by (rewrite length_app; cbn; lia);
      replace (runeSliceWidth RuneWidth before + RuneWidth r0)
        with (runeSliceWidth RuneWidth (before ++ [r0]))
        by (rewrite width_app, width_cons, width_nil; lia);
      (apply IH; [rewrite <- app_assoc; exact E|]);
      exists pre, r, post; (split; [reflexivity|]);
      rewrite <- app_assoc; exact Hw.
Qed.

(** Where C7 fails: a sequence that is not empty and whose last rune takes
    no column comes back shorter. *)
Lemma runeSliceWidthRange_whole_only_if (rs : list rune) :
  rs <> [] ->
  RuneWidth (last rs 0) = 0 ->
  (length (runeSliceWidthRange RuneWidth rs 0 (runeSliceWidth RuneWidth rs))
   < length rs)%nat.
Proof.
  intros Hne Hl. unfold runeSliceWidthRange.
  destruct (0 =? runeSliceWidth RuneWidth rs).
  { destruct rs; [contradiction | cbn; lia]. }
  apply (widthRange_loop_stops rs 0 (runeSliceWidth RuneWidth rs) rs [] 0%nat false).
  - reflexivity.
  - exists (removelast rs), (last rs 0), []. split.
    + apply app_removelast_last. exact Hne.
    + cbn [app].
      replace (runeSliceWidth RuneWidth rs)
        with (runeSliceWidth RuneWidth (removelast rs ++ [last rs 0]))
        by (rewrite <- app_removelast_last; auto).
      rewrite width_app, width_cons, width_nil. lia.
Qed.

Hypothesis width_nonneg : forall r, 0 <= RuneWidth r.

(** Once the begin boundary is found and no rune meets the end, the loop
    returns [rs[b:]]. *)
Lemma widthRange_loop_found (all : list rune) (beg end_ : Z) :
  (forall before r rest, all = before ++ r :: rest ->
     runeSliceWidth RuneWidth before <> end_
     /\ runeSliceWidth RuneWidth before + RuneWidth r <= end_) ->
  forall (rest before : list rune) (b : nat),
  all = before ++ rest ->
  widthRange_loop RuneWidth all rest beg end_ (length before)
    (runeSliceWidth RuneWidth before) b true
  = skipn b all.
Proof.
  intros Hend rest. induction rest as [|r rest IH]; intros before b E.
  - reflexivity.
  - cbn [widthRange_loop]. rewrite andb_false_r.
    destruct (Hend before r rest E) as [Hne Hle].
    replace ((runeSliceWidth RuneWidth before =? end_)
             || (runeSliceWidth RuneWidth before + RuneWidth r >? end_)) with false.
    2: { symmetry. apply orb_false_iff. split; [apply Z.eqb_neq; exact Hne|].
         rewrite Z.gtb_ltb. apply Z.ltb_ge. exact Hle. }
    replace (S (length before)) with (length (before ++ [r]))
      by (rewrite length_app; cbn; lia).
    replace (runeSliceWidth RuneWidth before + RuneWidth r)
      with (runeSliceWidth RuneWidth (before ++ [r]))
      by (rewrite width_app, width_cons, width_nil; lia).
    apply IH. rewrite <- app_assoc. exact E.
Qed.

(** When the begin boundary is found past the first rune and no rune meets
    the end, the loop returns less than [rs]. *)
Lemma widthRange_loop_late (all : list rune) (beg end_ : Z) :
  (forall before r rest, all = before ++ r :: rest ->
     runeSliceWidth RuneWidth before <> end_
     /\ runeSliceWidth RuneWidth before + RuneWidth r <= end_) ->
  forall (rest before : list rune) (b : nat),
  all = before ++ rest ->
  before <> [] \/ runeSliceWidth RuneWidth before < beg ->
  (exists pre r post,
     rest = pre ++ r :: post
     /\ beg <= runeSliceWidth RuneWidth (before ++ pre)) ->
  (length (widthRange_loop RuneWidth all rest beg end_ (length before)
             (runeSliceWidth RuneWidth before) b false)
   < length all)%nat.
Proof.
  intros Hend rest. induction rest as [|r0 rest IH];
    intros before b E Hb (pre & r & post & Er & Hw).
  - destruct pre; discriminate.
  - cbn [widthRange_loop]. rewrite andb_true_r.
    destruct (Hend before r0 rest E) as [Hne Hle].
    assert (Hstop : (runeSliceWidth RuneWidth before =? end_)
             || (runeSliceWidth RuneWidth before + RuneWidth r0 >? end_) = false).
    { apply orb_false_iff. split; [apply Z.eqb_neq; exact Hne|].
      rewrite Z.gtb_ltb. apply Z.ltb_ge. exact Hle. }
    assert (Hlen : S (length before) = length (before ++ [r0]))
      by (rewrite length_app; cbn; lia).
    assert (Hwid : runeSliceWidth RuneWidth before + RuneWidth r0
                   = runeSliceWidth RuneWidth (before ++ [r0]))
      by (rewrite width_app, width_cons, width_nil; lia).
    assert (Hnext : all = (before ++ [r0]) ++ rest)
      by (rewrite <- app_assoc; exact E).
    destruct (runeSliceWidth RuneWidth before >=? beg) eqn:Hge.
    + rewrite Hstop, Hlen, Hwid.
      rewrite (widthRange_loop_found all beg end_ Hend rest (before ++ [r0])
                 (length before) Hnext).
      rewrite Z.geb_leb in Hge. apply Z.leb_le in Hge.
      destruct Hb as [Hb | Hb]; [|lia].
      rewrite length_skipn. rewrite E, length_app. cbn [length].
      destruct before; [contradiction | cbn [length]; lia].
    + rewrite Hstop, Hlen, Hwid.
      rewrite Z.geb_leb in Hge. apply Z.leb_gt in Hge.
      destruct pre as [|x pre]; [rewrite app_nil_r in Hw; lia|].
      cbn [app] in Er. inversion Er; subst x rest.
      apply IH; [exact Hnext | left; destruct before; discriminate |].
      exists pre, r, post. split; [reflexivity|].
      rewrite <- app_assoc. exact Hw.
Qed.

(** Where C9 fails: when [beg] is exactly the columns of [rs], more than
    none, and the last rune of [rs] takes no column, less than [rs] comes
    back. *)
Lemma runeSliceWidthRange_begin_past_end_only_if (rs : list rune) (beg end_ : Z) :
  rs <> [] ->
  beg < end_ ->
  runeSliceWidth RuneWidth rs = beg ->
  0 < beg ->
  RuneWidth (last rs 0) = 0 ->
  (length (runeSliceWidthRange RuneWidth rs beg end_) < length rs)%nat.
Proof.
  intros Hne Hlt Hw Hpos Hl. unfold runeSliceWidthRange.
  destruct (beg =? end_) eqn:E0; [apply Z.eqb_eq in E0; lia|].
  apply (widthRange_loop_late rs beg end_) with (before := []).
  - intros before r rest E.
    pose proof (width_prefix_le RuneWidth width_nonneg rs before r rest E).
    pose proof (width_nonneg r). lia.
  - reflexivity.
  - right. rewrite width_nil. exact Hpos.
  - exists (removelast rs), (last rs 0), []. split.
    + apply app_removelast_last. exact Hne.
    + cbn [app]. rewrite <- Hw.
      replace (runeSliceWidth RuneWidth rs)
        with (runeSliceWidth RuneWidth (removelast rs ++ [last rs 0]))
        by (rewrite <- app_removelast_last; auto).
      rewrite width_app, width_cons, width_nil. lia.
Qed.

End DisplayWidthConverse.


Lemma runeSliceWidthLastRange_longest_witness :
  exists before,
    sampleRunes = before ++ runeSliceWidthLastRange sampleWidth sampleRunes 3
    /\ runeSliceWidth sampleWidth (runeSliceWidthLastRange sampleWidth sampleRunes 3)
       <= 3
    /\ (before = []
        \/ exists before' r,
             before = before' ++ [r]
             /\ 3 < runeSliceWidth sampleWidth
                      (r :: runeSliceWidthLastRange sampleWidth sampleRunes 3))
    /\ (forall pre suf,
          sampleRunes = pre ++ suf ->
          runeSliceWidth sampleWidth suf <= 3 ->
          (length suf <= length (runeSliceWidthLastRange sampleWidth sampleRunes 3))%nat).
Proof.
  apply (runeSliceWidthLastRange_longest sampleWidth sampleWidth_nonneg).
  lia.
Defined.

Lemma runeSliceWidthRange_whole_witness :
  runeSliceWidthRange sampleWidth [97; 769; 20013] 0
    (runeSliceWidth sampleWidth [97; 769; 20013])
  = [97; 769; 20013].
Proof.
  apply (runeSliceWidthRange_whole sampleWidth sampleWidth_nonneg).
  right. vm_compute. reflexivity.
Defined.

(** C7, as stated, fails when [rs] ends in a rune that takes no column: the
    scan stops where the columns are used up, before a final combining
    accent; and a sequence that takes no column at all gives the empty
    range. *)
Lemma runeSliceWidthRange_drops_zero_width :
  runeSliceWidth sampleWidth [101; 769] = 1
  /\ runeSliceWidthRange sampleWidth [101; 769] 0
       (runeSliceWidth sampleWidth [101; 769]) = [101]
  /\ runeSliceWidthRange sampleWidth [769] 0
       (runeSliceWidth sampleWidth [769]) = [].
Proof. vm_compute. repeat split. Qed.

Lemma runeSliceWidthRange_begin_past_end_witness :
  runeSliceWidthRange sampleWidth [97; 20013] 3 5 = [97; 20013].
Proof.
  apply (runeSliceWidthRange_begin_past_end sampleWidth sampleWidth_nonneg).
  - discriminate.
  - lia.
  - vm_compute. discriminate.
  - right. right. vm_compute. reflexivity.
Defined.

(** C9, as stated, fails when [beg] is exactly the columns of [rs] and [rs]
    ends in a rune that takes no column: the begin boundary is found at that
    rune, and the result is the final accent alone. *)
Lemma runeSliceWidthRange_begin_at_end_zero_width :
  runeSliceWidth sampleWidth [101; 769] = 1
  /\ runeSliceWidthRange sampleWidth [101; 769] 1 2 = [769].
Proof. vm_compute. repeat split. Qed.

(** ** Locale *)

Section LocaleProofs.

Variable Tag : Type.
Variable Parse : gostring -> Tag * option error.
Variable Detect : Tag * option error.
Variable Collator : Type.
Variable CollateOption : Type.
Variable collateNew : Tag -> list CollateOption -> Collator.
Variable fmtQuoted : gostring -> gostring.



End LocaleProofs.



(** * Further properties *)

(** ** Escaper and tokenizer together *)

Lemma escape_loop_app (a b : list rune) :
  escape_loop (a ++ b) [] = escape_loop a [] ++ escape_loop b [].
Proof.
  induction a as [|r a IH]; [reflexivity|].
  cbn [app]. rewrite !escape_loop_cons, IH, app_assoc. reflexivity.
Qed.

Lemma endsWithBackslash_escape_loop (rs : list rune) :
  endsWithBackslash (escape_loop rs []) = endsWithBackslash rs.
Proof.
  destruct rs as [|r rs] using rev_ind; [reflexivity|].
  rewrite escape_loop_app, escape_loop_cons. cbn [escape_loop].
  rewrite app_nil_r, endsWithBackslash_snoc.
  destruct (isSpecial r).
  - change [r_backslash; r] with ([r_backslash] ++ [r]).
    rewrite app_assoc, endsWithBackslash_snoc. reflexivity.
  - rewrite endsWithBackslash_snoc. reflexivity.
Qed.

Lemma isSpecial_space (r : rune) : isSpace r = true -> isSpecial r = true.
Proof. intros H. unfold isSpecial. rewrite H. reflexivity. Qed.

(** What [escape] writes holds no white space but after a backslash. *)
Lemma noUnescapedSpace_escape_loop (rs : list rune) :
  noUnescapedSpace (escape_loop rs []).
Proof.
  induction rs as [|r rs IH] using rev_ind; [apply noUnescapedSpace_nil|].
  rewrite escape_loop_app, escape_loop_cons. cbn [escape_loop]. rewrite app_nil_r.
  destruct (isSpecial r) eqn:Hs.
  - change [r_backslash; r] with ([r_backslash] ++ [r]). rewrite app_assoc.
    apply noUnescapedSpace_snoc.
    + apply noUnescapedSpace_snoc; [exact IH|].
      rewrite isSpace_backslash. discriminate.
    + intros _. apply endsWithBackslash_snoc.
  - apply noUnescapedSpace_snoc; [exact IH|].
    intros H. apply isSpecial_space in H. congruence.
Qed.

Lemma noUnescapedSpace_app_l (a b : list rune) :
  noUnescapedSpace (a ++ b) -> noUnescapedSpace a.
Proof.
  intros H x r y E Hs. apply (H x r (y ++ b)); [|exact Hs].
  rewrite E, <- app_assoc. reflexivity.
Qed.

(** The loop of [tokenize] reads runes without unescaped white space into
    the token it is building. *)
Lemma tokenize_loop_token (a : list rune) :
  forall (rest : list rune) (esc : bool) (buf : list rune) (toks : list gostring),
  esc = endsWithBackslash buf ->
  noUnescapedSpace (buf ++ a) ->
  tokenize_loop (a ++ rest) esc buf toks
  = tokenize_loop rest (endsWithBackslash (buf ++ a)) (buf ++ a) toks.
Proof.
  induction a as [|r a IH]; intros rest esc buf toks Hesc Hn.
  - rewrite app_nil_r. subst esc. reflexivity.
  - assert (Hn' : noUnescapedSpace ((buf ++ [r]) ++ a))
      by (rewrite <- app_assoc; exact Hn).
    replace (buf ++ r :: a) with ((buf ++ [r]) ++ a)
      by (rewrite <- app_assoc; reflexivity).
    cbn [app tokenize_loop].
    destruct (r =? r_backslash) eqn:Hb.
    { apply IH; [|exact Hn'].
      rewrite endsWithBackslash_snoc, Hb. reflexivity. }
    destruct esc.
    { apply IH; [|exact Hn'].
      rewrite endsWithBackslash_snoc, Hb. reflexivity. }
    destruct (isSpace r) eqn:Hs; cbn [negb].
    + exfalso. specialize (Hn buf r a eq_refl Hs). congruence.
    + apply IH; [|exact Hn'].
      rewrite endsWithBackslash_snoc, Hb. reflexivity.
Qed.

Lemma runesOf_stringOfRunes_app (rs : list rune) (rest : gostring) :
  forallb validRune rs = true ->
  runesOf (stringOfRunes rs ++ rest) = rs ++ runesOf rest.
Proof.
  induction rs as [|r rs IH]; intros Hv; [reflexivity|].
  cbn [forallb] in Hv. apply andb_true_iff in Hv. destruct Hv as [Hr Hrs].
  unfold stringOfRunes. cbn [flat_map]. rewrite <- app_assoc.
  rewrite runesOf_encodeRune_app by exact Hr.
  cbn [app]. f_equal. apply IH. exact Hrs.
Qed.

Lemma runesOf_escape_app (s rest : gostring) :
  runesOf (escape s ++ rest) = escape_loop (runesOf s) [] ++ runesOf rest.
Proof.
  unfold escape. apply runesOf_stringOfRunes_app.
  apply escape_loop_valid, runesOf_valid.
Qed.

(** X1: an escaped string is one token. *)
Theorem tokenize_escape (s : gostring) : tokenize (escape s) = [escape s].
Proof.
  unfold tokenize.
  rewrite <- (app_nil_r (escape s)) at 1. rewrite runesOf_escape_app.
  change (runesOf []) with (@nil rune).
  rewrite (tokenize_loop_token (escape_loop (runesOf s) []) [] false [] []).
  - reflexivity.
  - reflexivity.
  - apply noUnescapedSpace_escape_loop.
Qed.

Lemma tokenize_loop_join (args : list gostring) :
  forall toks,
  args <> [] ->
  (forall a, In a (removelast args) -> endsWithBackslash (runesOf a) = false) ->
  tokenize_loop (runesOf (Join (map escape args) (str " "))) false [] toks
  = toks ++ map escape args.
Proof.
  induction args as [|a args IH]; intros toks Hne Hargs; [contradiction|].
  destruct args as [|a' args].
  - cbn [map Join]. rewrite <- (app_nil_r (escape a)) at 1.
    rewrite runesOf_escape_app. change (runesOf []) with (@nil rune).
    rewrite (tokenize_loop_token (escape_loop (runesOf a) []) [] false [] toks);
      [reflexivity | reflexivity | apply noUnescapedSpace_escape_loop].
  - change (Join (map escape (a :: a' :: args)) (str " "))
      with (escape a ++ str " " ++ Join (map escape (a' :: args)) (str " ")).
    rewrite runesOf_escape_app.
    change (str " ") with (encodeRune 32).
    rewrite runesOf_encodeRune_app by reflexivity.
    rewrite (tokenize_loop_token (escape_loop (runesOf a) []) _ false [] toks);
      [| reflexivity | apply noUnescapedSpace_escape_loop].
    cbn [app]. rewrite endsWithBackslash_escape_loop.
    rewrite (Hargs a) by (left; reflexivity).
    cbn [tokenize_loop]. change (32 =? r_backslash) with false.
    change (isSpace 32) with true. cbn [negb].
    rewrite IH.
    + rewrite <- app_assoc. reflexivity.
    + discriminate.
    + intros x Hx. apply Hargs. right. exact Hx.
Qed.

(** X2: arguments escaped and joined with spaces are read back by [tokenize]
    as the escaped arguments, when none but the last ends in a backslash. *)
Theorem tokenize_join_escape (args : list gostring) :
  args <> [] ->
  (forall a, In a (removelast args) -> endsWithBackslash (runesOf a) = false) ->
  tokenize (Join (map escape args) (str " ")) = map escape args.
Proof.
  intros Hne Hargs. unfold tokenize.
  rewrite (tokenize_loop_join args [] Hne Hargs). reflexivity.
Qed.

Lemma tokenize_join_escape_witness :
  tokenize (Join (map escape [str "my file"; str "a#b"; str "c\"]) (str " "))
  = map escape [str "my file"; str "a#b"; str "c\"].
Proof.
  apply tokenize_join_escape.
  - discriminate.
  - intros a [<- | [<- | []]]; reflexivity.
Defined.

(** An argument that ends in a backslash takes the next one into its
    token. *)
Example tokenize_join_escape_backslash :
  tokenize (Join (map escape [str "c\"; str "d"]) (str " ")) = [str "c\\ d"].
Proof. reflexivity. Qed.

Lemma unescape_loop_noEscapePair (rs : list rune) :
  (noEscapePair rs = true -> forall buf, unescape_loop rs false buf = buf ++ rs)
  /\ (noEscapePair (r_backslash :: rs) = true ->
      forall buf, unescape_loop rs true buf = buf ++ r_backslash :: rs).
Proof.
  induction rs as [|r rs [IH1 IH2]]; split; intros Hn buf.
  - cbn. rewrite app_nil_r. reflexivity.
  - reflexivity.
  - cbn [unescape_loop]. destruct (r =? r_backslash) eqn:Hb.
    + apply Z.eqb_eq in Hb. subst r. apply IH2. exact Hn.
    + cbn [noEscapePair] in Hn. apply andb_true_iff in Hn. destruct Hn as [_ Hn].
      rewrite IH1 by exact Hn. rewrite <- app_assoc. reflexivity.
  - cbn [unescape_loop]. cbn [noEscapePair] in Hn.
    apply andb_true_iff in Hn. destruct Hn as [Hr Hn].
    apply andb_true_iff in Hn. destruct Hn as [_ Hn].
    change (r_backslash =? r_backslash) with true in Hr. cbn [andb] in Hr.
    rewrite Hr. rewrite IH1 by exact Hn.
    rewrite <- !app_assoc. reflexivity.
Qed.

(** X3: [unescape] leaves a valid string as it is when no backslash in it
    stands before white space, a backslash, a semicolon or a hash sign; a
    backslash before another rune, or at the end, stays. *)
Theorem unescape_noEscapePair (s : gostring) :
  validString s = true ->
  noEscapePair (runesOf s) = true ->
  unescape s = s.
Proof.
  intros Hv Hn. unfold unescape.
  rewrite (proj1 (unescape_loop_noEscapePair (runesOf s)) Hn). cbn [app].
  apply stringOfRunes_runesOf. exact Hv.
Qed.

Lemma unescape_noEscapePair_witness :
  unescape (str "C:\dir name\") = str "C:\dir name\".
Proof. apply unescape_noEscapePair; reflexivity. Defined.

(** ** Cutting a string between two iterations of [range] *)

(** [decodeRune] reads no further than the rune it returns, or than the
    bytes that show there is none. *)
Lemma decodeRune_app (a b : gostring) :
  a <> [] ->
  (snd (decodeRune (a ++ b)) <= length a)%nat ->
  decodeRune (a ++ b) = decodeRune a.
Proof.
  intros Hne.
  destruct a as [|a0 [|a1 [|a2 [|a3 a]]]]; [contradiction | | | | reflexivity].
  - destruct b as [|b0 [|b1 [|b2 b]]]; cbn [app]; unfold decodeRune;
      repeat match goal with
             | |- context [if ?c then _ else _] => destruct c
             end; cbn [snd length]; intros H; try reflexivity; lia.
  - destruct b as [|b0 [|b1 b]]; cbn [app]; unfold decodeRune;
      repeat match goal with
             | |- context [if ?c then _ else _] => destruct c
             end; cbn [snd length]; intros H; try reflexivity; lia.
  - destruct b as [|b0 b]; cbn [app]; unfold decodeRune;
      repeat match goal with
             | |- context [if ?c then _ else _] => destruct c
             end; cbn [snd length]; intros H; try reflexivity; lia.
Qed.

Lemma decodeRune_size (b : byte) (t : gostring) :
  (1 <= snd (decodeRune (b :: t)) <= length (b :: t))%nat.
Proof.
  pose proof (decodeRune_spec b t) as H.
  destruct (decodeRune (b :: t)) as [r n]. cbn [snd].
  destruct H as [[_ H] | [_ H]]; [cbn [length]; lia | exact H].
Qed.

Lemma rangeFrom_index_ge (s : gostring) :
  forall i j r, In (j, r) (rangeFrom 0 i s) -> (i <= j < i + length s)%nat.
Proof.
  induction s as [|b t IH] using range_ind; intros i j r Hin; [destruct Hin|].
  rewrite rangeFrom_step in Hin. pose proof (decodeRune_size b t) as Hs.
  destruct Hin as [E | Hin].
  - inversion E; subst. cbn [length]. lia.
  - apply IH in Hin. rewrite length_skipn in Hin. lia.
Qed.

(** The iterations of [range] before and from an index it reaches are the
    iterations over the two parts of the string cut there. *)
Lemma rangeFrom_split (pre : list (nat * rune)) :
  forall (s : gostring) (i j : nat) (r : rune) (post : list (nat * rune)),
  rangeFrom 0 i s = pre ++ (j, r) :: post ->
  (i <= j)%nat
  /\ rangeFrom 0 i (firstn (j - i) s) = pre
  /\ rangeFrom 0 j (skipn (j - i) s) = (j, r) :: post.
Proof.
  induction pre as [|[i0 r0] pre IH]; intros s i j r post E.
  - destruct s as [|b t]; [discriminate|].
    cbn [app] in E.
    assert (Hj : j = i).
    { pose proof E as E'. rewrite rangeFrom_step in E'.
      set (d := decodeRune (b :: t)) in *. clearbody d.
      injection E' as Ei _ _. congruence. }
    subst j. rewrite Nat.sub_diag. cbn [firstn skipn].
    repeat split; [lia | exact E].
  - destruct s as [|b t]; [discriminate|].
    cbn [app] in E. rewrite rangeFrom_step in E.
    pose proof (decodeRune_size b t) as Hs.
    assert (Hstep : forall k x y, rangeFrom 0 k (x :: y)
              = (k, fst (decodeRune (x :: y)))
                :: rangeFrom 0 (k + snd (decodeRune (x :: y)))
                     (skipn (snd (decodeRune (x :: y))) (x :: y)))
      by (intros; apply rangeFrom_step).
    assert (Hloc : forall m, (snd (decodeRune (b :: t)) <= m)%nat ->
              decodeRune (firstn m (b :: t)) = decodeRune (b :: t)).
    { intros m Hm. rewrite <- (firstn_skipn m (b :: t)) at 2. symmetry.
      apply decodeRune_app.
      - destruct m; [lia | discriminate].
      - rewrite firstn_skipn, length_firstn. lia. }
    set (d := decodeRune (b :: t)) in *. clearbody d.
    destruct d as [r1 n]. cbn [fst snd] in *.
    injection E as Ei Er E'. subst i0 r0.
    destruct (IH _ _ _ _ _ E') as (Hle & Hpre & Hpost).
    split; [lia|]. split.
    + specialize (Hloc (j - i)%nat ltac:(lia)).
      destruct (firstn (j - i) (b :: t)) as [|b' t'] eqn:Ef.
      { destruct (j - i)%nat eqn:Ej; [lia | discriminate]. }
      rewrite Hstep, Hloc. cbn [fst snd]. f_equal.
      rewrite <- Ef, skipn_firstn_comm.
      replace (j - i - n)%nat with (j - (i + n))%nat by lia.
      exact Hpre.
    + replace (j - i)%nat with ((j - (i + n)) + n)%nat by lia.
      rewrite <- skipn_skipn. exact Hpost.
Qed.

(** ** splitWord *)

Lemma forallb_map (A B : Type) (f : A -> B) (p : B -> bool) (l : list A) :
  forallb p (map f l) = forallb (fun x => p (f x)) l.
Proof.
  induction l as [|x l IH]; [reflexivity|].
  cbn [map forallb]. rewrite IH. reflexivity.
Qed.

Lemma forallb_eq (A : Type) (p q : A -> bool) (l : list A) :
  (forall x, p x = q x) -> forallb p l = forallb q l.
Proof.
  intros H. induction l as [|x l IH]; [reflexivity|].
  cbn [forallb]. rewrite H, IH. reflexivity.
Qed.

Lemma find_split (A : Type) (p : A -> bool) (l : list A) (x : A) :
  find p l = Some x ->
  exists pre post,
    l = pre ++ x :: post /\ forallb (fun y => negb (p y)) pre = true /\ p x = true.
Proof.
  induction l as [|y l IH]; [discriminate|].
  cbn [find]. destruct (p y) eqn:Hy.
  - intros E. inversion E; subst. exists [], l. auto.
  - intros E. destruct (IH E) as (pre & post & -> & Hpre & Hx).
    exists (y :: pre), post. cbn [forallb]. rewrite Hy, Hpre. auto.
Qed.

Lemma find_none_forallb (A : Type) (p : A -> bool) (l : list A) :
  find p l = None -> forallb (fun y => negb (p y)) l = true.
Proof.
  induction l as [|y l IH]; [reflexivity|].
  cbn [find forallb]. destruct (p y); [discriminate|]. exact IH.
Qed.

Lemma decodeRune_head (s : gostring) (i : nat) (r : rune) (post : list (nat * rune)) :
  rangeFrom 0 i s = (i, r) :: post -> s <> [] /\ fst (decodeRune s) = r.
Proof.
  destruct s as [|b t]; [discriminate|].
  rewrite rangeFrom_step. set (d := decodeRune (b :: t)). clearbody d.
  intros E. injection E as Er _. split; [discriminate | exact Er].
Qed.

(** [strings.TrimLeftFunc(s, unicode.IsSpace)] takes the white space runes
    off the front of [s], and nothing else. *)
Lemma trimLeftSpace_spec (s : gostring) :
  exists lead,
    s = lead ++ trimLeftSpace s
    /\ allSpace lead = true
    /\ (trimLeftSpace s = [] \/ isSpace (fst (decodeRune (trimLeftSpace s))) = false).
Proof.
  unfold trimLeftSpace, allSpace.
  destruct (find (fun ir => negb (isSpace (snd ir))) (rangeStr s)) as [[i r]|] eqn:F.
  - apply find_split in F. destruct F as (pre & post & E & Hpre & Hr).
    cbn [snd] in Hr. apply negb_true_iff in Hr.
    destruct (rangeFrom_split pre s 0 i r post E) as (_ & Hp & Hq).
    rewrite Nat.sub_0_r in Hp, Hq.
    exists (firstn i s). split; [symmetry; apply firstn_skipn|]. split.
    + unfold runesOf, rangeStr. rewrite Hp, forallb_map.
      rewrite <- Hpre. apply forallb_eq. intros [j x]. cbn [snd].
      rewrite negb_involutive. reflexivity.
    + right. apply decodeRune_head in Hq. destruct Hq as [_ ->]. exact Hr.
  - apply find_none_forallb in F. exists s. split; [rewrite app_nil_r; reflexivity|].
    split; [|left; reflexivity].
    unfold runesOf. rewrite forallb_map. rewrite <- F.
    apply forallb_eq. intros [j x]. cbn [snd]. rewrite negb_involutive. reflexivity.
Qed.

(** The word ends at the first white space rune. *)
Lemma firstSpaceIndex_spec (s : gostring) :
  noSpace (firstn (firstSpaceIndex s) s) = true
  /\ (firstSpaceIndex s <= length s)%nat
  /\ (s <> [] -> isSpace (fst (decodeRune s)) = false ->
      (0 < firstSpaceIndex s)%nat).
Proof.
  unfold firstSpaceIndex, noSpace.
  destruct (find (fun ir => isSpace (snd ir)) (rangeStr s)) as [[i r]|] eqn:F.
  - apply find_split in F. destruct F as (pre & post & E & Hpre & Hr).
    cbn [snd] in Hr.
    destruct (rangeFrom_split pre s 0 i r post E) as (_ & Hp & Hq).
    rewrite Nat.sub_0_r in Hp, Hq. split; [|split].
    + unfold runesOf, rangeStr. rewrite Hp, forallb_map. exact Hpre.
    + assert (Hin : In (i, r) (rangeFrom 0 0 s))
        by (unfold rangeStr in E; rewrite E; apply in_elt).
      apply rangeFrom_index_ge in Hin. lia.
    + intros Hne Hd. destruct pre as [|[j x] pre].
      * cbn [app] in E. apply decodeRune_head in Hq.
        destruct i as [|i]; [|lia].
        cbn [skipn] in Hq. destruct Hq as [_ Hq]. congruence.
      * destruct s as [|b t]; [contradiction|].
        unfold rangeStr in E. rewrite rangeFrom_step in E.
        pose proof (decodeRune_size b t) as Hs.
        set (d := decodeRune (b :: t)) in *. clearbody d.
        cbn [app] in E. injection E as _ _ E.
        assert (Hin : In (i, r) (pre ++ (i, r) :: post)) by apply in_elt.
        rewrite <- E in Hin. apply rangeFrom_index_ge in Hin. lia.
  - apply find_none_forallb in F. rewrite firstn_all. split; [|split].
    + unfold runesOf. rewrite forallb_map. exact F.
    + lia.
    + intros Hne _. destruct s; [contradiction | cbn; lia].
Qed.

(** X4: [splitWord] cuts [s] into leading white space, the word, white space
    and the rest; nothing else is taken off. *)
Theorem splitWord_parts (s : gostring) :
  exists lead gap,
    s = lead ++ fst (splitWord s) ++ gap ++ snd (splitWord s)
    /\ allSpace lead = true
    /\ allSpace gap = true.
Proof.
  unfold splitWord. cbn [fst snd].
  destruct (trimLeftSpace_spec s) as (lead & E1 & Hlead & _).
  set (s1 := trimLeftSpace s) in *.
  destruct (trimLeftSpace_spec (skipn (firstSpaceIndex s1) s1)) as (gap & E2 & Hgap & _).
  exists lead, gap. split; [|auto].
  rewrite <- E2, firstn_skipn. exact E1.
Qed.

(** X5: the word of [splitWord] holds no white space rune, the rest does not
    start with one, and the word is empty only when the rest is. *)
Theorem splitWord_word (s : gostring) :
  noSpace (fst (splitWord s)) = true
  /\ (snd (splitWord s) = []
      \/ isSpace (fst (decodeRune (snd (splitWord s)))) = false)
  /\ (fst (splitWord s) = [] -> snd (splitWord s) = []).
Proof.
  unfold splitWord. cbn [fst snd].
  destruct (trimLeftSpace_spec s) as (lead & _ & _ & Hs1).
  set (s1 := trimLeftSpace s) in *.
  destruct (firstSpaceIndex_spec s1) as (Hword & Hle & Hpos).
  destruct (trimLeftSpace_spec (skipn (firstSpaceIndex s1) s1)) as (gap & _ & _ & Hrest).
  split; [exact Hword|]. split; [exact Hrest|].
  intros Hw. destruct Hs1 as [Hs1 | Hs1].
  - rewrite Hs1. reflexivity.
  - destruct s1 as [|b t] eqn:E; [reflexivity|].
    assert (0 < firstSpaceIndex (b :: t))%nat by (apply Hpos; [discriminate | exact Hs1]).
    destruct (firstSpaceIndex (b :: t)); [lia | discriminate].
Qed.

(** X6: a string without white space is its own word, and the rest is
    empty. *)
Theorem splitWord_noSpace (s : gostring) :
  noSpace s = true -> splitWord s = (s, []).
Proof.
  unfold noSpace, runesOf. rewrite forallb_map. intros H.
  assert (Htrim : trimLeftSpace s = s).
  { unfold trimLeftSpace. destruct s as [|b t]; [reflexivity|].
    unfold rangeStr in *. rewrite rangeFrom_step in *.
    cbn [forallb find snd] in *. apply andb_true_iff in H. destruct H as [H _].
    rewrite H. reflexivity. }
  assert (Hind : firstSpaceIndex s = length s).
  { unfold firstSpaceIndex.
    destruct (find (fun ir => isSpace (snd ir)) (rangeStr s)) as [[i r]|] eqn:F;
      [|reflexivity].
    apply find_some in F. destruct F as [Hin Hr]. cbn [snd] in Hr.
    rewrite forallb_forall in H. specialize (H _ Hin). cbn [snd] in H.
    rewrite Hr in H. discriminate. }
  unfold splitWord. rewrite Htrim, Hind, firstn_all, skipn_all. reflexivity.
Qed.

Lemma splitWord_noSpace_witness :
  splitWord (str "set") = (str "set", []).
Proof. apply splitWord_noSpace. reflexivity. Defined.

Example splitWord_ex :
  splitWord (str "  map  gg top ") = (str "map", str "gg top ").
Proof. reflexivity. Qed.

(** ** The scanner *)

Lemma dropCR_plain (l : gostring) :
  match rev l with
  | b :: _ => negb (Byte.eqb b b_return)
  | [] => true
  end = true ->
  dropCR l = l.
Proof.
  unfold dropCR. destruct (rev l) as [|b r]; [reflexivity|].
  intros H. apply negb_true_iff in H. rewrite H. reflexivity.
Qed.

Lemma scan_loop_last (l : gostring) :
  forall cur : gostring,
  existsb (Byte.eqb b_newline) l = false ->
  scan_loop l cur
  = match cur ++ l with
    | [] => []
    | _ => if Z.of_nat (length (cur ++ l)) <? maxScanTokenSize
           then [dropCR (cur ++ l)] else []
    end.
Proof.
  induction l as [|b l IH]; intros cur Hl.
  - rewrite app_nil_r. reflexivity.
  - cbn [existsb] in Hl. apply orb_false_iff in Hl. destruct Hl as [Hb Hl].
    cbn [scan_loop].
    rewrite (byte_eqb_sym b b_newline), Hb.
    rewrite (IH (cur ++ [b]) Hl), <- app_assoc. reflexivity.
Qed.

(** X7: lines written one after the other, each followed by a newline, and a
    last line with or without one, are the lines the scanner delivers. *)
Theorem scanLines_lines (lines : list gostring) (last : gostring) :
  forallb plainLine lines = true ->
  plainLine last = true ->
  scanLines (flat_map (fun l => l ++ nl) lines ++ last)
  = lines ++ match last with [] => [] | _ => [last] end.
Proof.
  unfold scanLines. intros Hlines Hlast.
  induction lines as [|l lines IH].
  - cbn [flat_map app]. unfold plainLine in Hlast.
    apply andb_true_iff in Hlast. destruct Hlast as [Hlast Hlen].
    apply andb_true_iff in Hlast. destruct Hlast as [Hnl Hcr].
    apply negb_true_iff in Hnl.
    rewrite (scan_loop_last last [] Hnl). cbn [app].
    destruct last as [|b t]; [reflexivity|].
    rewrite Hlen, (dropCR_plain _ Hcr). reflexivity.
  - cbn [forallb] in Hlines. apply andb_true_iff in Hlines.
    destruct Hlines as [Hl Hlines]. unfold plainLine in Hl.
    apply andb_true_iff in Hl. destruct Hl as [Hl Hlen].
    apply andb_true_iff in Hl. destruct Hl as [Hnl Hcr].
    apply negb_true_iff in Hnl.
    cbn [flat_map]. rewrite <- !app_assoc.
    rewrite (scan_loop_line l _ [] Hnl). cbn [app].
    rewrite Hlen, (dropCR_plain _ Hcr), (IH Hlines). reflexivity.
Qed.

Lemma scanLines_lines_witness :
  scanLines (flat_map (fun l => l ++ nl) [str "a b"; str ""; str "# c"] ++ str "d")
  = [str "a b"; str ""; str "# c"] ++ [str "d"].
Proof. apply (scanLines_lines [str "a b"; str ""; str "# c"] (str "d")); reflexivity. Defined.

Lemma existsb_dropCR (p : byte -> bool) (l : gostring) :
  existsb p l = false -> existsb p (dropCR l) = false.
Proof.
  unfold dropCR. destruct (rev l) as [|b r] eqn:E; [auto|].
  destruct (Byte.eqb b b_return); [|auto].
  intros H. apply (f_equal (@rev byte)) in E. rewrite rev_involutive in E.
  subst l. cbn [rev] in H. rewrite existsb_app in H.
  apply orb_false_iff in H. apply H.
Qed.

Lemma length_dropCR (l : gostring) : (length (dropCR l) <= length l)%nat.
Proof.
  unfold dropCR. destruct (rev l) as [|b r] eqn:E; [lia|].
  destruct (Byte.eqb b b_return); [|lia].
  apply (f_equal (@length byte)) in E. rewrite length_rev in E.
  rewrite length_rev. cbn [length] in E. lia.
Qed.

Lemma scan_loop_lines (data : gostring) :
  forall (cur line : gostring),
  existsb (Byte.eqb b_newline) cur = false ->
  In line (scan_loop data cur) ->
  existsb (Byte.eqb b_newline) line = false
  /\ Z.of_nat (length line) < maxScanTokenSize.
Proof.
  induction data as [|b data IH]; intros cur line Hcur Hin.
  - cbn [scan_loop] in Hin. destruct cur as [|c cur]; [destruct Hin|].
    destruct (Z.of_nat (length (c :: cur)) <? maxScanTokenSize) eqn:E; [|destruct Hin].
    destruct Hin as [<- | []]. apply Z.ltb_lt in E.
    split; [apply existsb_dropCR; exact Hcur|].
    pose proof (length_dropCR (c :: cur)). lia.
  - cbn [scan_loop] in Hin. destruct (Byte.eqb b b_newline) eqn:Hb.
    + destruct (Z.of_nat (length cur) <? maxScanTokenSize) eqn:E; [|destruct Hin].
      destruct Hin as [<- | Hin].
      * apply Z.ltb_lt in E. split; [apply existsb_dropCR; exact Hcur|].
        pose proof (length_dropCR cur). lia.
      * apply (IH [] line); [reflexivity | exact Hin].
    + apply (IH (cur ++ [b]) line); [|exact Hin].
      rewrite existsb_app, Hcur. cbn [existsb orb].
      rewrite (byte_eqb_sym b_newline b), Hb. reflexivity.
Qed.

(** X8: no line the scanner delivers holds a newline, and every one is
    shorter than the scanner's buffer. *)
Theorem scanLines_line (data line : gostring) :
  In line (scanLines data) ->
  existsb (Byte.eqb b_newline) line = false
  /\ Z.of_nat (length line) < maxScanTokenSize.
Proof. apply scan_loop_lines. reflexivity. Qed.

Lemma scanLines_line_witness :
  existsb (Byte.eqb b_newline) (str "b") = false
  /\ Z.of_nat (length (str "b")) < maxScanTokenSize.
Proof.
  apply (scanLines_line (str "a" ++ nl ++ str "b" ++ [b_return] ++ nl)).
  right. left. reflexivity.
Defined.

(** ** Comments *)

(** X9: [readArrays] takes a line as it is or cuts it at a hash sign; a
    line without hash sign is never cut. *)
Theorem stripComment_cut (line : gostring) (q : quotes) :
  (stripComment line q = line
   \/ exists rest, line = stripComment line q ++ x23 :: rest)
  /\ (existsb (Byte.eqb x23) line = false -> stripComment line q = line).
Proof.
  revert q. induction line as [|b line IH]; intros q.
  - split; [left|]; reflexivity.
  - cbn [stripComment existsb].
    destruct (unquoted (fst (toggle q (Z_of_byte b))) && (Z_of_byte b =? r_hash)) eqn:E.
    + apply andb_true_iff in E. destruct E as [_ E]. apply Z.eqb_eq in E.
      assert (Hb : b = x23).
      { rewrite <- (byte_of_Z_of_byte b), E. reflexivity. }
      subst b. split.
      * right. exists line. reflexivity.
      * cbn. discriminate.
    + destruct (IH (fst (toggle q (Z_of_byte b)))) as [[IH1 | (rest & IH1)] IH2]; split.
      * left. rewrite IH1. reflexivity.
      * intros H. apply orb_false_iff in H. rewrite IH2 by apply H. reflexivity.
      * right. exists rest. cbn [app]. rewrite <- IH1. reflexivity.
      * intros H. apply orb_false_iff in H. rewrite IH2 by apply H. reflexivity.
Qed.

(** ** The result of readArrays *)

Lemma readArrays_loop_result (min_cols max_cols : Z) (lines : list gostring) :
  forall arrays,
  readArrays_loop lines min_cols max_cols arrays
  = match find (badLine min_cols max_cols) lines with
    | Some text => ([], Some (columnsError min_cols max_cols text))
    | None => (arrays ++ rowsOf lines, None)
    end.
Proof.
  induction lines as [|l lines IH]; intros arrays.
  - cbn. rewrite app_nil_r. reflexivity.
  - cbn [readArrays_loop find rowsOf flat_map]. unfold badLine at 1.
    destruct (candidateFields l) as [arr|].
    + destruct (outOfBounds arr min_cols max_cols); [reflexivity|].
      rewrite IH. fold (rowsOf lines).
      destruct (find (badLine min_cols max_cols) lines); [reflexivity|].
      rewrite <- app_assoc. reflexivity.
    + rewrite IH. reflexivity.
Qed.

(** X10: [readArrays] returns the error of the first line whose fields are
    out of bounds and no row, or, when there is no such line, the rows of
    all the lines that are not skipped, in order, and no error. *)
Theorem readArrays_result (data : gostring) (min_cols max_cols : Z) :
  readArrays data min_cols max_cols
  = match find (badLine min_cols max_cols) (scanLines data) with
    | Some text => ([], Some (columnsError min_cols max_cols text))
    | None => (rowsOf (scanLines data), None)
    end.
Proof.
  unfold readArrays. rewrite readArrays_loop_result. reflexivity.
Qed.

Lemma rowsOf_bounded (min_cols max_cols : Z) (lines : list gostring) :
  find (badLine min_cols max_cols) lines = None ->
  Forall (fun row => min_cols <= Z.of_nat (length row) <= max_cols) (rowsOf lines).
Proof.
  induction lines as [|l lines IH]; intros F; [constructor|].
  cbn [find] in F. destruct (badLine min_cols max_cols l) eqn:B; [discriminate|].
  unfold rowsOf. cbn [flat_map]. fold (rowsOf lines).
  unfold badLine in B. destruct (candidateFields l) as [arr|]; [|apply IH; exact F].
  cbn [app]. constructor; [|apply IH; exact F].
  rewrite length_map. unfold outOfBounds in B.
  apply orb_false_iff in B. destruct B as [B1 B2].
  apply Z.ltb_ge in B1. rewrite Z.gtb_ltb in B2. apply Z.ltb_ge in B2. lia.
Qed.

(** X11: every row [readArrays] returns without error has between
    [min_cols] and [max_cols] fields. *)
Theorem readArrays_rows_bounded (data : gostring) (min_cols max_cols : Z)
    (rows : list (list gostring)) :
  readArrays data min_cols max_cols = (rows, None) ->
  Forall (fun row => min_cols <= Z.of_nat (length row) <= max_cols) rows.
Proof.
  unfold readArrays. rewrite readArrays_loop_result.
  destruct (find (badLine min_cols max_cols) (scanLines data)) eqn:F; [discriminate|].
  intros E. inversion E; subst. cbn [app]. apply rowsOf_bounded. exact F.
Qed.

Lemma readArrays_rows_bounded_witness :
  Forall (fun row => 1 <= Z.of_nat (length row) <= 3)
    [[str "a"; str "b c"]; [str "d"]].
Proof.
  apply (readArrays_rows_bounded (str "a 'b c'" ++ nl ++ str "# x" ++ nl ++ str "d") 1 3).
  vm_compute. reflexivity.
Defined.

(** ** Quotes *)

Lemma stripQuotes_loop_plain (rs : list rune) :
  forall (q : quotes) (buf : list rune),
  forallb (fun r => negb ((r =? r_squote) || (r =? r_dquote))) rs = true ->
  stripQuotes_loop rs q buf = buf ++ rs.
Proof.
  induction rs as [|r rs IH]; intros q buf H.
  - cbn. rewrite app_nil_r. reflexivity.
  - cbn [forallb] in H. apply andb_true_iff in H. destruct H as [Hr H].
    apply negb_true_iff in Hr. apply orb_false_iff in Hr. destruct Hr as [H1 H2].
    cbn [stripQuotes_loop]. unfold toggle. destruct q as [sq dq].
    rewrite H1, H2. cbn [andb]. rewrite (IH _ _ H), <- app_assoc. reflexivity.
Qed.

(** X12: a field without quote characters is kept as it is. *)
Theorem stripQuotes_plain (field : gostring) :
  validString field = true ->
  forallb (fun r => negb ((r =? r_squote) || (r =? r_dquote))) (runesOf field) = true ->
  stripQuotes field = field.
Proof.
  intros Hv H. unfold stripQuotes.
  rewrite (stripQuotes_loop_plain _ noQuotes [] H). cbn [app].
  apply stringOfRunes_runesOf. exact Hv.
Qed.

Lemma stripQuotes_plain_witness : stripQuotes (str "value#1") = str "value#1".
Proof. apply stripQuotes_plain; reflexivity. Defined.

(** Inside single quotes every rune but a single quote is kept, and inside
    double quotes every rune but a double quote. *)
Lemma stripQuotes_loop_inside (single : bool) (body : list rune) :
  forall (rest buf : list rune),
  forallb (fun r => negb (r =? (if single then r_squote else r_dquote))) body = true ->
  stripQuotes_loop (body ++ rest) (single, negb single) buf
  = stripQuotes_loop rest (single, negb single) (buf ++ body).
Proof.
  induction body as [|r body IH]; intros rest buf H.
  - rewrite app_nil_r. reflexivity.
  - cbn [forallb] in H. apply andb_true_iff in H. destruct H as [Hr H].
    apply negb_true_iff in Hr.
    cbn [app stripQuotes_loop]. unfold toggle.
    destruct single; cbn [negb andb] in *.
    + rewrite Hr. rewrite andb_false_r. cbn [andb].
      rewrite (IH _ _ H), <- app_assoc. reflexivity.
    + rewrite andb_false_r, Hr. cbn [andb].
      rewrite (IH _ _ H), <- app_assoc. reflexivity.
Qed.

(** X13: a field between two single quotes, with no single quote inside, or
    between two double quotes, with no double quote inside, loses the two
    quotes and nothing else; quotes of the other kind inside are kept. *)
Theorem stripQuotes_quoted (single : bool) (body : gostring) :
  validString body = true ->
  forallb (fun r => negb (r =? (if single then r_squote else r_dquote)))
    (runesOf body) = true ->
  stripQuotes ([if single then x27 else x22] ++ body ++ [if single then x27 else x22])
  = body.
Proof.
  intros Hv H. unfold stripQuotes.
  assert (Hr : runesOf ([if single then x27 else x22] ++ body
                        ++ [if single then x27 else x22])
               = (if single then r_squote else r_dquote)
                 :: runesOf body ++ [if single then r_squote else r_dquote]).
  { assert (Hq : forall (b : byte) (r : rune),
              validRune r = true -> encodeRune r = [b] ->
              runesOf ([b] ++ body ++ [b]) = r :: runesOf body ++ [r]).
    { intros b r Hr Hb. rewrite <- Hb.
      rewrite runesOf_encodeRune_app by exact Hr.
      f_equal. rewrite <- (stringOfRunes_runesOf body Hv) at 1.
      rewrite runesOf_stringOfRunes_app by apply runesOf_valid.
      f_equal. rewrite <- (app_nil_r (encodeRune r)).
      rewrite runesOf_encodeRune_app by exact Hr. reflexivity. }
    destruct single; apply Hq; reflexivity. }
  rewrite Hr. clear Hr.
  assert (Hopen : forall rest,
            stripQuotes_loop ((if single then r_squote else r_dquote) :: rest)
              noQuotes []
            = stripQuotes_loop rest (single, negb single) []).
  { intros rest. destruct single; reflexivity. }
  rewrite Hopen, (stripQuotes_loop_inside single _ _ [] H). cbn [app].
  assert (Hclose : forall buf,
            stripQuotes_loop [if single then r_squote else r_dquote]
              (single, negb single) buf = buf).
  { intros buf. destruct single; reflexivity. }
  rewrite Hclose. apply stringOfRunes_runesOf. exact Hv.
Qed.

Lemma stripQuotes_quoted_witness :
  stripQuotes ([x27] ++ [x22; x61; x20; x62; x22] ++ [x27]) = [x22; x61; x20; x62; x22].
Proof. apply (stripQuotes_quoted true); reflexivity. Defined.

(** ** The order of naturalLess *)

Lemma stringLtb_irrefl (s : gostring) : stringLtb s s = false.
Proof.
  induction s as [|b s IH]; [reflexivity|].
  cbn [stringLtb]. rewrite Z.ltb_irrefl. exact IH.
Qed.

Lemma stringLtb_asym (s1 s2 : gostring) :
  stringLtb s1 s2 = true -> stringLtb s2 s1 = false.
Proof.
  revert s2. induction s1 as [|b1 s1 IH]; intros [|b2 s2]; cbn [stringLtb];
    try reflexivity; try discriminate.
  destruct (Z.ltb_spec (Z_of_byte b1) (Z_of_byte b2)),
           (Z.ltb_spec (Z_of_byte b2) (Z_of_byte b1));
    try reflexivity; try discriminate; try lia.
  apply IH.
Qed.

Lemma stringEqb_sym (s1 s2 : gostring) : stringEqb s1 s2 = stringEqb s2 s1.
Proof.
  destruct (stringEqb s1 s2) eqn:E1, (stringEqb s2 s1) eqn:E2; try reflexivity.
  - apply stringEqb_eq in E1. subst. rewrite stringEqb_refl in E2. discriminate.
  - apply stringEqb_eq in E2. subst. rewrite stringEqb_refl in E1. discriminate.
Qed.

Lemma naturalLess_asym_bounded (n : nat) :
  forall s1 s2 : gostring,
  (length s1 <= n)%nat ->
  naturalLess s1 s2 = true -> naturalLess s2 s1 = false.
Proof.
  induction n as [|n IH]; intros s1 s2 Hn H.
  - destruct s1; [|cbn in Hn; lia]. apply naturalLess_nil_r.
  - destruct s1 as [|b1 t1]; [apply naturalLess_nil_r|].
    destruct s2 as [|b2 t2]; [discriminate H|].
    rewrite naturalLess_step in H. rewrite naturalLess_step.
    pose proof (spanRun_length (isDigit b1) t1) as Hlen.
    assert (Hrest : (length (snd (spanRun (isDigit b1) (b1 :: t1))) <= n)%nat).
    { cbn [spanRun]. rewrite Bool.eqb_reflx.
      destruct (spanRun (isDigit b1) t1). cbn [snd length] in *. lia. }
    destruct (spanRun (isDigit b1) (b1 :: t1)) as [run1 rest1].
    destruct (spanRun (isDigit b2) (b2 :: t2)) as [run2 rest2].
    cbn [snd] in Hrest. rewrite (stringEqb_sym run2 run1).
    destruct (stringEqb run1 run2).
    + apply IH; assumption.
    + rewrite (andb_comm (isDigit b2)).
      destruct (isDigit b1 && isDigit b2); [|apply stringLtb_asym; exact H].
      destruct (Atoi run1) as [n1|], (Atoi run2) as [n2|];
        try (apply stringLtb_asym; exact H).
      apply Z.ltb_lt in H. apply Z.ltb_ge. lia.
Qed.

(** X14: [naturalLess] never puts two strings each before the other. *)
Theorem naturalLess_asym (s1 s2 : gostring) :
  naturalLess s1 s2 = true -> naturalLess s2 s1 = false.
Proof. apply (naturalLess_asym_bounded (length s1)). lia. Qed.

Lemma naturalLess_asym_witness :
  naturalLess (str "img10.png") (str "img9.png") = false.
Proof. apply naturalLess_asym. reflexivity. Defined.

Lemma spanRun_all (d : bool) (s : gostring) :
  forallb (fun b => Bool.eqb (isDigit b) d) s = true -> spanRun d s = (s, []).
Proof.
  intros H. rewrite <- (app_nil_r s) at 1. apply spanRun_exact; [exact H | exact I].
Qed.

Lemma forallb_head (A : Type) (p : A -> bool) (x : A) (l : list A) :
  forallb p (x :: l) = true -> p x = true.
Proof. cbn [forallb]. intros H. apply andb_true_iff in H. apply H. Qed.

(** X15: on strings without digits [naturalLess] is the order of the
    bytes. *)
Theorem naturalLess_no_digit (s1 s2 : gostring) :
  forallb (fun b => negb (isDigit b)) s1 = true ->
  forallb (fun b => negb (isDigit b)) s2 = true ->
  naturalLess s1 s2 = stringLtb s1 s2.
Proof.
  intros H1 H2.
  assert (conv : forall s, forallb (fun b => negb (isDigit b)) s = true ->
            forallb (fun b => Bool.eqb (isDigit b) false) s = true).
  { intros s H. rewrite forallb_forall in *. intros b Hb.
    specialize (H b Hb). destruct (isDigit b); [discriminate | reflexivity]. }
  destruct s1 as [|b1 t1]; [destruct s2; reflexivity|].
  destruct s2 as [|b2 t2]; [reflexivity|].
  rewrite naturalLess_step.
  pose proof (forallb_head _ _ _ _ H1) as D1. apply negb_true_iff in D1.
  pose proof (forallb_head _ _ _ _ H2) as D2. apply negb_true_iff in D2.
  rewrite D1, D2, (spanRun_all false _ (conv _ H1)), (spanRun_all false _ (conv _ H2)).
  cbn [andb].
  destruct (stringEqb (b1 :: t1) (b2 :: t2)) eqn:E; [|reflexivity].
  apply stringEqb_eq in E. rewrite E, stringLtb_irrefl. reflexivity.
Qed.

Lemma naturalLess_no_digit_witness :
  naturalLess (str "Makefile") (str "README.md") = stringLtb (str "Makefile") (str "README.md").
Proof. apply naturalLess_no_digit; reflexivity. Defined.

(** X16: two strings of digits whose values fit an [int] are compared by
    value, so zeros in front count for nothing. *)
Theorem naturalLess_digits (s1 s2 : gostring) :
  s1 <> [] -> s2 <> [] ->
  forallb isDigit s1 = true -> forallb isDigit s2 = true ->
  digitsValue s1 <= maxInt -> digitsValue s2 <= maxInt ->
  naturalLess s1 s2 = (digitsValue s1 <? digitsValue s2).
Proof.
  intros N1 N2 H1 H2 V1 V2.
  assert (conv : forall s, forallb isDigit s = true ->
            forallb (fun b => Bool.eqb (isDigit b) true) s = true).
  { intros s H. rewrite forallb_forall in *. intros b Hb.
    rewrite (H b Hb). reflexivity. }
  assert (R1 : isRunOf true s1) by (split; [exact N1 | apply conv; exact H1]).
  assert (R2 : isRunOf true s2) by (split; [exact N2 | apply conv; exact H2]).
  destruct s1 as [|b1 t1]; [contradiction|].
  destruct s2 as [|b2 t2]; [contradiction|].
  rewrite naturalLess_step.
  rewrite (forallb_head _ _ _ _ H1), (forallb_head _ _ _ _ H2).
  rewrite (spanRun_all true _ (conv _ H1)), (spanRun_all true _ (conv _ H2)).
  cbn [andb].
  destruct (stringEqb (b1 :: t1) (b2 :: t2)) eqn:E.
  - apply stringEqb_eq in E. rewrite E, Z.ltb_irrefl. reflexivity.
  - rewrite (Atoi_digits _ R1), (Atoi_digits _ R2).
    apply Z.leb_le in V1, V2. rewrite V1, V2. reflexivity.
Qed.

Lemma naturalLess_digits_witness :
  naturalLess (str "007") (str "7") = (digitsValue (str "007") <? digitsValue (str "7")).
Proof.
  apply naturalLess_digits; try discriminate; try reflexivity; vm_compute; discriminate.
Defined.

(** X17: after a common prefix of whole runs, two runs of digits that
    differ as text but have the same value (zeros in front) end the
    comparison: neither string is before the other, whatever follows the
    runs. *)
Theorem naturalLess_equal_values (p r1 t1 r2 t2 : gostring) :
  r1 <> [] -> r2 <> [] ->
  forallb isDigit r1 = true -> forallb isDigit r2 = true ->
  runBoundary p r1 -> runBoundary p r2 ->
  runBoundary r1 t1 -> runBoundary r2 t2 ->
  r1 <> r2 ->
  digitsValue r1 = digitsValue r2 ->
  digitsValue r1 <= maxInt ->
  naturalLess (p ++ r1 ++ t1) (p ++ r2 ++ t2) = false
  /\ naturalLess (p ++ r2 ++ t2) (p ++ r1 ++ t1) = false.
Proof.
  intros N1 N2 H1 H2 P1 P2 B1 B2 Hneq Hv Hmax.
  assert (conv : forall s, forallb isDigit s = true ->
            forallb (fun b => Bool.eqb (isDigit b) true) s = true).
  { intros s H. rewrite forallb_forall in *. intros b Hb.
    rewrite (H b Hb). reflexivity. }
  assert (R1 : isRunOf true r1) by (split; [exact N1 | apply conv; exact H1]).
  assert (R2 : isRunOf true r2) by (split; [exact N2 | apply conv; exact H2]).
  assert (A1 : Atoi r1 = Some (digitsValue r1)).
  { rewrite (Atoi_digits _ R1). apply Z.leb_le in Hmax. rewrite Hmax. reflexivity. }
  assert (A2 : Atoi r2 = Some (digitsValue r1)).
  { rewrite (Atoi_digits _ R2), <- Hv. apply Z.leb_le in Hmax. rewrite Hmax.
    reflexivity. }
  assert (boundary_app : forall r t : gostring,
            r <> [] -> runBoundary p r -> runBoundary p (r ++ t)).
  { intros r t Hr. unfold runBoundary. destruct (rev p); [auto|].
    destruct r; [contradiction | auto]. }
  split.
  - rewrite (naturalLess_common_prefix (length p)) by auto.
    rewrite (naturalLess_runs true true r1 t1 r2 t2 R1 R2 B1 B2 Hneq).
    cbn [andb]. rewrite A1, A2. apply Z.ltb_irrefl.
  - rewrite (naturalLess_common_prefix (length p)) by auto.
    rewrite (naturalLess_runs true true r2 t2 r1 t1 R2 R1 B2 B1 (not_eq_sym Hneq)).
    cbn [andb]. rewrite A1, A2. apply Z.ltb_irrefl.
Qed.

Lemma naturalLess_equal_values_witness :
  naturalLess (str "img" ++ str "01" ++ str "b") (str "img" ++ str "1" ++ str "a") = false
  /\ naturalLess (str "img" ++ str "1" ++ str "a") (str "img" ++ str "01" ++ str "b") = false.
Proof.
  apply naturalLess_equal_values; try discriminate; try reflexivity;
    vm_compute; discriminate.
Defined.

(** So the order is no strict weak order: 1a is before 1b, and 01b is
    neither before nor after either of them. *)
Example naturalLess_leading_zero :
  naturalLess (str "1a") (str "1b") = true
  /\ naturalLess (str "01b") (str "1a") = false
  /\ naturalLess (str "1a") (str "01b") = false
  /\ naturalLess (str "01b") (str "1b") = false
  /\ naturalLess (str "1b") (str "01b") = false.
Proof. vm_compute. repeat split. Qed.

(** ** The window of runeSliceWidthRange *)

Lemma skipn_length_app (A : Type) (a l : list A) : skipn (length a) (a ++ l) = l.
Proof. induction a as [|x a IH]; [reflexivity | exact IH]. Qed.

Lemma firstn_length_app (A : Type) (a l : list A) : firstn (length a) (a ++ l) = a.
Proof. induction a as [|x a IH]; [reflexivity | cbn; f_equal; exact IH]. Qed.

Lemma snoc_split (A : Type) (l : list A) (r : A) (p : list A) (x : A) (q : list A) :
  l ++ [r] = p ++ x :: q ->
  (p = l /\ q = []) \/ exists q', l = p ++ x :: q'.
Proof.
  revert p. induction l as [|y l IH]; intros p E.
  - destruct p as [|z p]; cbn in E.
    + injection E as _ <-. left. auto.
    + injection E as _ E. destruct p; discriminate E.
  - destruct p as [|z p]; cbn in E.
    + injection E as -> E. right. exists l. reflexivity.
    + injection E as -> E. destruct (IH p E) as [[-> ->] | (q' & ->)].
      * left. auto.
      * right. exists q'. reflexivity.
Qed.

Section DisplayWidthWindow.

Variable RuneWidth : rune -> Z.

(** The loop of [runeSliceWidthRange] with [end_ >= 0]: [curr] stays within
    [end_]; [b], once found, is the length of the shortest prefix that takes
    [beg] columns or more. *)
Lemma widthRange_loop_window (all : list rune) (beg end_ : Z) :
  0 <= end_ ->
  forall (rest before : list rune) (b : nat) (foundb : bool),
  all = before ++ rest ->
  runeSliceWidth RuneWidth before <= end_ ->
  (if foundb
   then exists a a2, before = a ++ a2 /\ length a = b /\ beg <= runeSliceWidth RuneWidth a
          /\ (forall a' x a'', a = a' ++ x :: a'' -> runeSliceWidth RuneWidth a' < beg)
   else b = 0%nat /\ forall p x q, before = p ++ x :: q -> runeSliceWidth RuneWidth p < beg) ->
  exists a c,
    all = a ++ widthRange_loop RuneWidth all rest beg end_ (length before)
                 (runeSliceWidth RuneWidth before) b foundb ++ c
    /\ ((a = []
         /\ forall p x q,
              widthRange_loop RuneWidth all rest beg end_ (length before)
                (runeSliceWidth RuneWidth before) b foundb = p ++ x :: q -> runeSliceWidth RuneWidth p < beg)
        \/ (beg <= runeSliceWidth RuneWidth a
            /\ forall a' x a'', a = a' ++ x :: a'' -> runeSliceWidth RuneWidth a' < beg))
    /\ runeSliceWidth RuneWidth (a ++ widthRange_loop RuneWidth all rest beg end_ (length before)
                     (runeSliceWidth RuneWidth before) b foundb) <= end_
    /\ (c = []
        \/ runeSliceWidth RuneWidth (a ++ widthRange_loop RuneWidth all rest beg end_ (length before)
                         (runeSliceWidth RuneWidth before) b foundb) = end_
        \/ exists r c', c = r :: c'
             /\ end_ < runeSliceWidth RuneWidth (a ++ widthRange_loop RuneWidth all rest beg end_
                                     (length before) (runeSliceWidth RuneWidth before) b foundb)
                       + RuneWidth r).
Proof.
  intros Hend rest. induction rest as [|r rest IH]; intros before b foundb E Hw Hf.
  - cbn [widthRange_loop]. rewrite app_nil_r in E. subst all.
    destruct foundb.
    + destruct Hf as (a & a2 & Eb & Hb & Hge & Hsh). subst before b.
      rewrite skipn_length_app. exists a, []. rewrite app_nil_r.
      repeat split; auto.
    + destruct Hf as [-> Hlt]. cbn [skipn]. exists [], []. rewrite app_nil_r.
      cbn [app]. repeat split; auto.
  - cbn [widthRange_loop].
    set (curr := runeSliceWidth RuneWidth before) in *.
    assert (Hf' : let '(b', f') := if (curr >=? beg) && negb foundb
                                   then (length before, true) else (b, foundb) in
              (if f'
               then exists a a2, before = a ++ a2 /\ length a = b' /\ beg <= runeSliceWidth RuneWidth a
                      /\ (forall a' x a'', a = a' ++ x :: a'' -> runeSliceWidth RuneWidth a' < beg)
               else b' = 0%nat /\ curr < beg
                    /\ forall p x q, before = p ++ x :: q -> runeSliceWidth RuneWidth p < beg)).
    { destruct foundb.
      - rewrite andb_false_r. exact Hf.
      - rewrite andb_true_r. destruct Hf as [Hb Hlt].
        destruct (curr >=? beg) eqn:G.
        + exists before, []. rewrite app_nil_r. repeat split; auto.
          rewrite Z.geb_leb in G. apply Z.leb_le in G. exact G.
        + rewrite Z.geb_leb in G. apply Z.leb_gt in G. auto. }
    destruct (if (curr >=? beg) && negb foundb
              then (length before, true) else (b, foundb)) as [b' f'].
    destruct ((curr =? end_) || (curr + RuneWidth r >? end_)) eqn:Stop.
    + assert (Hc : curr = end_ \/ end_ < curr + RuneWidth r).
      { apply orb_true_iff in Stop. destruct Stop as [S1 | S2].
        - left. apply Z.eqb_eq. exact S1.
        - right. apply Z.gtb_lt in S2. exact S2. }
      destruct f'.
      * destruct Hf' as (a & a2 & Eb & Hb & Hge & Hsh).
        assert (Hres : firstn (length before - b') (skipn b' all) = a2).
        { subst all before b'. rewrite <- app_assoc, skipn_length_app.
          rewrite length_app.
          replace (length a + length a2 - length a)%nat with (length a2) by lia.
          apply firstn_length_app. }
        rewrite Hres. exists a, (r :: rest).
        rewrite <- Eb. split; [|split; [|split]].
        -- rewrite E, Eb, <- app_assoc. reflexivity.
        -- right. auto.
        -- exact Hw.
        -- destruct Hc as [Hc | Hc]; [right; left; exact Hc|].
           right. right. exists r, rest. auto.
      * destruct Hf' as (-> & Hlt & Hsh).
        rewrite Nat.sub_0_r. cbn [skipn].
        assert (Hres : firstn (length before) all = before)
          by (subst all; apply firstn_length_app).
        rewrite Hres. exists [], (r :: rest). cbn [app].
        split; [|split; [|split]].
        -- exact E.
        -- left. auto.
        -- exact Hw.
        -- destruct Hc as [Hc | Hc]; [right; left; exact Hc|].
           right. right. exists r, rest. auto.
    + apply orb_false_iff in Stop. destruct Stop as [S1 S2].
      rewrite Z.gtb_ltb in S2. apply Z.ltb_ge in S2.
      assert (Hwid : curr + RuneWidth r = runeSliceWidth RuneWidth (before ++ [r]))
        by (rewrite width_app, width_cons, width_nil; subst curr; lia).
      assert (Hlen : S (length before) = length (before ++ [r]))
        by (rewrite length_app; cbn; lia).
      rewrite Hwid, Hlen. apply IH.
      * rewrite <- app_assoc. exact E.
      * rewrite <- Hwid. exact S2.
      * destruct f'.
        -- destruct Hf' as (a & a2 & Eb & Hb & Hge & Hsh).
           exists a, (a2 ++ [r]). rewrite app_assoc, <- Eb. auto.
        -- destruct Hf' as (Hb & Hlt & Hsh). split; [exact Hb|].
           intros p x q Ep. apply snoc_split in Ep.
           destruct Ep as [[-> _] | (q' & Ep)]; [exact Hlt|].
           apply (Hsh p x q' Ep).
Qed.

(** X18: for [end_ >= 0] and [beg <> end_], [runeSliceWidthRange] cuts
    [rs] as [a ++ result ++ c]: [a ++ result] takes at most [end_] columns,
    and the cut ends at the end of [rs], at the column [end_] exactly, or
    before a rune that would pass [end_]; [a] is the shortest prefix of
    [rs] that takes [beg] columns or more, or else it is empty and no
    proper prefix of the result takes [beg] columns. *)
Theorem runeSliceWidthRange_window (rs : list rune) (beg end_ : Z) :
  0 <= end_ -> beg <> end_ ->
  exists a c,
    rs = a ++ runeSliceWidthRange RuneWidth rs beg end_ ++ c
    /\ ((a = []
         /\ forall p x q,
              runeSliceWidthRange RuneWidth rs beg end_ = p ++ x :: q ->
              runeSliceWidth RuneWidth p < beg)
        \/ (beg <= runeSliceWidth RuneWidth a
            /\ forall a' x a'', a = a' ++ x :: a'' -> runeSliceWidth RuneWidth a' < beg))
    /\ runeSliceWidth RuneWidth (a ++ runeSliceWidthRange RuneWidth rs beg end_) <= end_
    /\ (c = []
        \/ runeSliceWidth RuneWidth (a ++ runeSliceWidthRange RuneWidth rs beg end_) = end_
        \/ exists r c', c = r :: c'
             /\ end_ < runeSliceWidth RuneWidth (a ++ runeSliceWidthRange RuneWidth rs beg end_)
                       + RuneWidth r).
Proof.
  intros Hend Hne. unfold runeSliceWidthRange.
  destruct (beg =? end_) eqn:E0; [apply Z.eqb_eq in E0; contradiction|].
  apply (widthRange_loop_window rs beg end_ Hend rs [] 0%nat false).
  - reflexivity.
  - rewrite width_nil. exact Hend.
  - split; [reflexivity|]. intros p x q Ep. destruct p; discriminate Ep.
Qed.

(** X19: from the column 0 (any [beg <= 0]) to [end_ >= 0],
    [runeSliceWidthRange] gives a prefix of [rs] within [end_] columns,
    which ends at the end of [rs], at the column [end_] exactly, or before
    a rune that would pass [end_]. *)
Theorem runeSliceWidthRange_prefix (rs : list rune) (beg end_ : Z) :
  beg <= 0 -> 0 <= end_ ->
  exists c,
    rs = runeSliceWidthRange RuneWidth rs beg end_ ++ c
    /\ runeSliceWidth RuneWidth (runeSliceWidthRange RuneWidth rs beg end_) <= end_
    /\ (c = []
        \/ runeSliceWidth RuneWidth (runeSliceWidthRange RuneWidth rs beg end_) = end_
        \/ exists r c', c = r :: c'
             /\ end_ < runeSliceWidth RuneWidth (runeSliceWidthRange RuneWidth rs beg end_)
                       + RuneWidth r).
Proof.
  intros Hbeg Hend. unfold runeSliceWidthRange.
  destruct (beg =? end_) eqn:E0.
  - apply Z.eqb_eq in E0. exists rs. cbn [app]. rewrite width_nil.
    split; [reflexivity|]. split; [lia|]. right. left. lia.
  - destruct (widthRange_loop_window rs beg end_ Hend rs [] 0%nat false)
      as (a & c & E & Ha & Hw & Hc).
    + reflexivity.
    + rewrite width_nil. exact Hend.
    + split; [reflexivity|]. intros p x q Ep. destruct p; discriminate Ep.
    + assert (a = []).
      { destruct Ha as [[Ha _] | [_ Hsh]]; [exact Ha|].
        destruct a as [|x a'']; [reflexivity|].
        specialize (Hsh [] x a'' eq_refl). rewrite width_nil in Hsh. lia. }
      subst a. cbn [app] in *. exists c. auto.
Qed.

(** With [end_ < beg] the loop keeps [b = 0], as it does with [beg = 0]. *)
Lemma widthRange_loop_reversed (all : list rune) (beg end_ : Z) :
  end_ < beg ->
  forall (rest : list rune) (i : nat) (curr : Z) (f1 f2 : bool),
  i = 0%nat \/ curr <= end_ ->
  f2 = true \/ (i = 0%nat /\ 0 <= curr) ->
  widthRange_loop RuneWidth all rest beg end_ i curr 0 f1
  = widthRange_loop RuneWidth all rest 0 end_ i curr 0 f2.
Proof.
  intros Hlt rest. induction rest as [|r rest IH]; intros i curr f1 f2 H1 H2.
  - reflexivity.
  - cbn [widthRange_loop].
    assert (B1 : exists f1', (if (curr >=? beg) && negb f1 then (i, true) else (0%nat, f1))
                             = (0%nat, f1')).
    { destruct ((curr >=? beg) && negb f1) eqn:G; [|eauto].
      destruct H1 as [-> | H1]; [eauto|].
      apply andb_true_iff in G. destruct G as [G _].
      rewrite Z.geb_leb in G. apply Z.leb_le in G. lia. }
    assert (B2 : exists f2', (if (curr >=? 0) && negb f2 then (i, true) else (0%nat, f2))
                             = (0%nat, f2') /\ f2' = true).
    { destruct H2 as [-> | [-> H0]].
      - rewrite andb_false_r. eauto.
      - destruct f2; [rewrite andb_false_r; eauto|].
        rewrite andb_true_r.
        replace (curr >=? 0) with true; [eauto|].
        symmetry. rewrite Z.geb_leb. apply Z.leb_le. exact H0. }
    destruct B1 as (f1' & ->). destruct B2 as (f2' & -> & ->).
    destruct ((curr =? end_) || (curr + RuneWidth r >? end_)) eqn:Stop;
      [reflexivity|].
    apply IH; [|left; reflexivity].
    right. apply orb_false_iff in Stop. destruct Stop as [_ S2].
    rewrite Z.gtb_ltb in S2. apply Z.ltb_ge in S2. exact S2.
Qed.

(** X20: with [end_ < beg] the begin column is not used:
    [runeSliceWidthRange(rs, beg, end_)] is the prefix
    [runeSliceWidthRange(rs, 0, end_)]. *)
Theorem runeSliceWidthRange_reversed (rs : list rune) (beg end_ : Z) :
  end_ < beg ->
  runeSliceWidthRange RuneWidth rs beg end_
  = runeSliceWidthRange RuneWidth rs 0 end_.
Proof.
  intros Hlt. unfold runeSliceWidthRange.
  destruct (beg =? end_) eqn:E0; [apply Z.eqb_eq in E0; lia|].
  destruct (0 =? end_) eqn:E1.
  - apply Z.eqb_eq in E1. subst end_.
    destruct rs as [|r rs]; [reflexivity|].
    cbn [widthRange_loop]. cbn [Z.eqb orb].
    destruct ((0 >=? beg) && negb false); reflexivity.
  - apply widthRange_loop_reversed; [exact Hlt | left; reflexivity |].
    right. split; [reflexivity | lia].
Qed.

Hypothesis width_nonneg : forall r, 0 <= RuneWidth r.

(** X21: with widths that are never negative,
    [runeSliceWidthLastRange] gives no rune for a negative [maxWidth] and
    all of [rs] when [rs] fits in [maxWidth] columns. *)
Theorem runeSliceWidthLastRange_edges (rs : list rune) (maxWidth : Z) :
  (maxWidth < 0 -> runeSliceWidthLastRange RuneWidth rs maxWidth = [])
  /\ (runeSliceWidth RuneWidth rs <= maxWidth -> runeSliceWidthLastRange RuneWidth rs maxWidth = rs).
Proof.
  split.
  - intros Hneg. unfold runeSliceWidthLastRange.
    destruct (length rs) as [|i] eqn:El.
    + destruct rs; [reflexivity | discriminate El].
    + cbn [widthLastRange_loop].
      pose proof (width_nonneg (nth i rs 0)) as Hw.
      replace (0 + RuneWidth (nth i rs 0) >? maxWidth) with true
        by (symmetry; apply Z.gtb_lt; lia).
      rewrite <- El. apply skipn_all.
  - intros Hfit. unfold runeSliceWidthLastRange.
    pose proof (width_pos RuneWidth width_nonneg rs) as Hpos.
    destruct (widthLastRange_loop_spec RuneWidth rs maxWidth (length rs) 0)
      as (before & E & Hw & Hb).
    + lia.
    + rewrite skipn_all. reflexivity.
    + lia.
    + destruct Hb as [-> | (before' & r & -> & Hr)]; [symmetry; exact E|].
      exfalso. pose proof (f_equal (runeSliceWidth RuneWidth) E) as Ew.
      rewrite <- app_assoc, width_app in Ew. cbn [app] in Ew.
      pose proof (width_pos RuneWidth width_nonneg before') as Hp. lia.
Qed.

End DisplayWidthWindow.

Lemma runeSliceWidthRange_window_witness :
  exists a c,
    sampleRunes = a ++ runeSliceWidthRange sampleWidth sampleRunes 2 6 ++ c
    /\ ((a = []
         /\ forall p x q,
              runeSliceWidthRange sampleWidth sampleRunes 2 6 = p ++ x :: q ->
              runeSliceWidth sampleWidth p < 2)
        \/ (2 <= runeSliceWidth sampleWidth a
            /\ forall a' x a'', a = a' ++ x :: a'' -> runeSliceWidth sampleWidth a' < 2))
    /\ runeSliceWidth sampleWidth (a ++ runeSliceWidthRange sampleWidth sampleRunes 2 6) <= 6
    /\ (c = []
        \/ runeSliceWidth sampleWidth (a ++ runeSliceWidthRange sampleWidth sampleRunes 2 6) = 6
        \/ exists r c', c = r :: c'
             /\ 6 < runeSliceWidth sampleWidth (a ++ runeSliceWidthRange sampleWidth sampleRunes 2 6)
                     + sampleWidth r).
Proof. apply (runeSliceWidthRange_window sampleWidth sampleRunes 2 6); lia. Defined.

(** The columns 2 to 6 of a, U+4E2D, b, U+4E2D, c, U+4E2D, d: the first
    ideograph takes the columns 1 and 2 and is left out, the rune c starts
    at the column 6. *)
Example runeSliceWidthRange_window_ex :
  runeSliceWidthRange sampleWidth sampleRunes 2 6 = [98; 20013].
Proof. reflexivity. Qed.

Lemma runeSliceWidthRange_prefix_witness :
  exists c,
    sampleRunes = runeSliceWidthRange sampleWidth sampleRunes 0 5 ++ c
    /\ runeSliceWidth sampleWidth (runeSliceWidthRange sampleWidth sampleRunes 0 5) <= 5
    /\ (c = []
        \/ runeSliceWidth sampleWidth (runeSliceWidthRange sampleWidth sampleRunes 0 5) = 5
        \/ exists r c', c = r :: c'
             /\ 5 < runeSliceWidth sampleWidth (runeSliceWidthRange sampleWidth sampleRunes 0 5)
                     + sampleWidth r).
Proof. apply (runeSliceWidthRange_prefix sampleWidth sampleRunes 0 5); lia. Defined.

Lemma runeSliceWidthRange_reversed_witness :
  runeSliceWidthRange sampleWidth sampleRunes 7 4
  = runeSliceWidthRange sampleWidth sampleRunes 0 4.
Proof. apply (runeSliceWidthRange_reversed sampleWidth sampleRunes 7 4). lia. Defined.

Lemma runeSliceWidthLastRange_edges_witness :
  (-1 < 0 -> runeSliceWidthLastRange sampleWidth sampleRunes (-1) = [])
  /\ (runeSliceWidth sampleWidth sampleRunes <= -1 ->
      runeSliceWidthLastRange sampleWidth sampleRunes (-1) = sampleRunes).
Proof. apply (runeSliceWidthLastRange_edges sampleWidth sampleWidth_nonneg). Defined.

(** ** Locale *)

Section LocaleResult.

Variable Tag : Type.
Variable Parse : gostring -> Tag * option error.
Variable Detect : Tag * option error.
Variable Collator : Type.
Variable CollateOption : Type.
Variable collateNew : Tag -> list CollateOption -> Collator.
Variable fmtQuoted : gostring -> gostring.

(** X22: [makeCollator] returns a collator or an error, never both and
    never neither; the collator is made of the tag that [getLocaleTag]
    returns without error for a locale string that is not empty. *)
Theorem makeCollator_result (localeStr : gostring) (o : list CollateOption) :
  (exists tag,
     localeStr <> localeStrDisable
     /\ getLocaleTag Tag Parse Detect fmtQuoted localeStr = (tag, None)
     /\ makeCollator Tag Parse Detect Collator CollateOption collateNew fmtQuoted
          localeStr o = (Some (collateNew tag o), None))
  \/ (exists e,
        (localeStr = localeStrDisable
         \/ snd (getLocaleTag Tag Parse Detect fmtQuoted localeStr) = Some e)
        /\ makeCollator Tag Parse Detect Collator CollateOption collateNew fmtQuoted
             localeStr o = (None, Some e)).
Proof.
  unfold makeCollator.
  destruct (stringEqb localeStr localeStrDisable) eqn:E.
  - right. apply stringEqb_eq in E. eauto.
  - destruct (getLocaleTag Tag Parse Detect fmtQuoted localeStr) as [tag [e|]].
    + right. exists e. cbn [snd]. auto.
    + left. exists tag. repeat split.
      intros ->. rewrite stringEqb_refl in E. discriminate.
Qed.

End LocaleResult.

(** ** getFileExtension *)

Section FileExtensionProofs.

Variable IsPathSeparator : byte -> bool.

Lemma Ext_loop_step (pre : gostring) (c : byte) (post : gostring) :
  Ext_loop IsPathSeparator (pre ++ c :: post) (S (length pre))
  = if IsPathSeparator c then []
    else if Byte.eqb c b_dot then c :: post
    else Ext_loop IsPathSeparator (pre ++ c :: post) (length pre).
Proof.
  cbn [Ext_loop]. rewrite nth_middle, skipn_length_app. reflexivity.
Qed.

(** The loop passes the bytes that are neither a dot nor a separator. *)
Lemma Ext_loop_skip (suf : gostring) :
  forall pre post : gostring,
  forallb (extByte IsPathSeparator) suf = true ->
  Ext_loop IsPathSeparator (pre ++ suf ++ post) (length pre + length suf)
  = Ext_loop IsPathSeparator (pre ++ suf ++ post) (length pre).
Proof.
  induction suf as [|c suf IH]; intros pre post H.
  - cbn [length]. rewrite Nat.add_0_r. reflexivity.
  - cbn [forallb] in H. apply andb_true_iff in H. destruct H as [Hc H].
    unfold extByte in Hc. apply andb_true_iff in Hc. destruct Hc as [Hd Hs].
    apply negb_true_iff in Hd, Hs.
    replace (pre ++ (c :: suf) ++ post) with ((pre ++ [c]) ++ suf ++ post)
      by (rewrite <- app_assoc; reflexivity).
    replace (length pre + length (c :: suf))%nat
      with (length (pre ++ [c]) + length suf)%nat
      by (rewrite length_app; cbn [length]; lia).
    rewrite (IH (pre ++ [c]) post H).
    replace (length (pre ++ [c])) with (S (length pre))
      by (rewrite length_app; cbn [length]; lia).
    rewrite <- app_assoc. cbn [app].
    rewrite Ext_loop_step, Hs, Hd. reflexivity.
Qed.

Lemma Ext_loop_shape (pre : gostring) :
  forall suf : gostring,
  forallb (extByte IsPathSeparator) suf = true ->
  Ext_loop IsPathSeparator (pre ++ suf) (length pre) = []
  \/ exists stem e,
       pre ++ suf = stem ++ b_dot :: e
       /\ Ext_loop IsPathSeparator (pre ++ suf) (length pre) = b_dot :: e
       /\ forallb (extByte IsPathSeparator) e = true.
Proof.
  induction pre as [|c pre IH] using rev_ind; intros suf H.
  - left. reflexivity.
  - rewrite <- app_assoc. cbn [app].
    replace (length (pre ++ [c])) with (S (length pre))
      by (rewrite length_app; cbn [length]; lia).
    rewrite Ext_loop_step.
    destruct (IsPathSeparator c) eqn:Hs; [left; reflexivity|].
    destruct (Byte.eqb c b_dot) eqn:Hd.
    + apply Byte.byte_dec_bl in Hd. subst c. right. exists pre, suf. auto.
    + apply (IH (c :: suf)). cbn [forallb]. unfold extByte at 1.
      rewrite Hs, Hd. exact H.
Qed.

(** [filepath.Ext] gives nothing, or the last dot of the path with the
    bytes after it, none of them a separator. *)
Lemma Ext_shape (path : gostring) :
  Ext IsPathSeparator path = []
  \/ exists stem e,
       path = stem ++ b_dot :: e
       /\ Ext IsPathSeparator path = b_dot :: e
       /\ forallb (extByte IsPathSeparator) e = true.
Proof.
  unfold Ext. pose proof (Ext_loop_shape path [] eq_refl) as H.
  rewrite app_nil_r in H. exact H.
Qed.

Lemma Ext_dot (stem e : gostring) :
  IsPathSeparator b_dot = false ->
  forallb (extByte IsPathSeparator) e = true ->
  Ext IsPathSeparator (stem ++ b_dot :: e) = b_dot :: e.
Proof.
  intros Hs He. unfold Ext.
  replace (stem ++ b_dot :: e) with ((stem ++ [b_dot]) ++ e ++ [])
    by (rewrite app_nil_r, <- app_assoc; reflexivity).
  replace (length ((stem ++ [b_dot]) ++ e ++ []))
    with (length (stem ++ [b_dot]) + length e)%nat
    by (rewrite !length_app; cbn [length]; lia).
  rewrite Ext_loop_skip by exact He.
  replace (length (stem ++ [b_dot])) with (S (length stem))
    by (rewrite length_app; cbn [length]; lia).
  rewrite app_nil_r, <- app_assoc. cbn [app].
  rewrite Ext_loop_step, Hs. reflexivity.
Qed.

Lemma Count_app (a b : gostring) (c : byte) : Count (a ++ b) c = Count a c + Count b c.
Proof. unfold Count. rewrite filter_app, length_app. lia. Qed.

Lemma Count_cons (x : byte) (s : gostring) (c : byte) :
  Count (x :: s) c = (if Byte.eqb c x then 1 else 0) + Count s c.
Proof.
  unfold Count. cbn [filter]. destruct (Byte.eqb c x); cbn [length]; lia.
Qed.

Lemma Count_nonneg (s : gostring) (c : byte) : 0 <= Count s c.
Proof. unfold Count. lia. Qed.

Lemma Count_none (s : gostring) (c : byte) :
  existsb (Byte.eqb c) s = false -> Count s c = 0.
Proof.
  induction s as [|x s IH]; [reflexivity|]. cbn [existsb]. intros H.
  apply orb_false_iff in H. destruct H as [Hx H].
  rewrite Count_cons, Hx, (IH H). reflexivity.
Qed.

(** X23: [getFileExtension] never fails on the index [file.Name()[0]],
    and what it returns is empty, or the end of the name from its last dot
    on, with no path separator after the dot. *)
Theorem getFileExtension_shape (file : FileInfo) :
  exists ext,
    getFileExtension IsPathSeparator file = Some ext
    /\ (ext = []
        \/ exists stem e,
             Name file = stem ++ ext
             /\ ext = b_dot :: e
             /\ forallb (extByte IsPathSeparator) e = true).
Proof.
  assert (HExt : exists ext, Some (Ext IsPathSeparator (Name file)) = Some ext
            /\ (ext = []
                \/ exists stem e,
                     Name file = stem ++ ext /\ ext = b_dot :: e
                     /\ forallb (extByte IsPathSeparator) e = true)).
  { exists (Ext IsPathSeparator (Name file)). split; [reflexivity|].
    destruct (Ext_shape (Name file)) as [E | (stem & e & E1 & E2 & E3)];
      [left; exact E|].
    right. exists stem, e. rewrite E2. auto. }
  unfold getFileExtension.
  destruct (IsDir file); [exists []; auto|].
  destruct (Count (Name file) b_dot =? 1) eqn:C; [|exact HExt].
  destruct (Name file) as [|b t] eqn:En.
  - cbn in C. discriminate C.
  - destruct (Byte.eqb b b_dot); [exists []; auto | exact HExt].
Qed.

(** X24: a file that is no directory, with a name [stem.e] where [stem]
    is not empty and [e] holds no dot and no separator, has the extension
    [.e]. *)
Theorem getFileExtension_ext (file : FileInfo) (stem e : gostring) :
  IsPathSeparator b_dot = false ->
  IsDir file = false ->
  Name file = stem ++ b_dot :: e ->
  stem <> [] ->
  forallb (extByte IsPathSeparator) e = true ->
  getFileExtension IsPathSeparator file = Some (b_dot :: e).
Proof.
  intros Hs Hd En Hne He. unfold getFileExtension. rewrite Hd, En.
  rewrite (Ext_dot stem e Hs He).
  destruct (Count (stem ++ b_dot :: e) b_dot =? 1) eqn:C; [|reflexivity].
  destruct stem as [|b stem]; [contradiction|]. cbn [app].
  destruct (Byte.eqb b b_dot) eqn:Hb; [|reflexivity].
  exfalso. apply Z.eqb_eq in C. cbn [app] in C.
  rewrite Count_cons, Count_app, Count_cons in C.
  apply Byte.byte_dec_bl in Hb. subst b.
  change (Byte.eqb b_dot b_dot) with true in C.
  pose proof (Count_nonneg stem b_dot). pose proof (Count_nonneg e b_dot). lia.
Qed.

(** X25: [getFileExtension] gives the empty string for a directory, for a
    hidden file whose name holds no dot but the first byte, and for a name
    without a dot. *)
Theorem getFileExtension_none (file : FileInfo) :
  (IsDir file = true -> getFileExtension IsPathSeparator file = Some [])
  /\ (forall rest,
        Name file = b_dot :: rest ->
        existsb (Byte.eqb b_dot) rest = false ->
        getFileExtension IsPathSeparator file = Some [])
  /\ (existsb (Byte.eqb b_dot) (Name file) = false ->
      getFileExtension IsPathSeparator file = Some []).
Proof.
  unfold getFileExtension. split; [|split].
  - intros ->. reflexivity.
  - intros rest En Hr. destruct (IsDir file); [reflexivity|].
    rewrite En, Count_cons, (Count_none _ _ Hr).
    change (Byte.eqb b_dot b_dot) with true. reflexivity.
  - intros Hn. destruct (IsDir file); [reflexivity|].
    rewrite (Count_none _ _ Hn). cbn [Z.eqb].
    destruct (Ext_shape (Name file)) as [E | (stem & e & E1 & E2 & E3)].
    + rewrite E. reflexivity.
    + exfalso. rewrite E1, existsb_app in Hn. cbn [existsb] in Hn.
      change (Byte.eqb b_dot b_dot) with true in Hn.
      rewrite orb_true_r in Hn. discriminate Hn.
Qed.

End FileExtensionProofs.

Lemma getFileExtension_ext_witness :
  getFileExtension unixSeparator {| Name := str "archive.tar.gz"; IsDir := false |}
  = Some (str ".gz").
Proof.
  apply (getFileExtension_ext unixSeparator _ (str "archive.tar") (str "gz"));
    try reflexivity; discriminate.
Defined.

(** A hidden file with an extension keeps it; a name that ends in a dot has
    the dot alone for extension; a dot in a directory of the path does not
    count. *)
Example getFileExtension_ex :
  getFileExtension unixSeparator {| Name := str ".bashrc"; IsDir := false |} = Some []
  /\ getFileExtension unixSeparator {| Name := str ".bashrc.bak"; IsDir := false |}
     = Some (str ".bak")
  /\ getFileExtension unixSeparator {| Name := str "notes."; IsDir := false |}
     = Some (str ".")
  /\ getFileExtension unixSeparator {| Name := str "conf.d/hosts"; IsDir := false |}
     = Some []
  /\ getFileExtension unixSeparator {| Name := str "conf.d"; IsDir := true |} = Some [].
Proof. vm_compute. repeat split. Qed.

(** ** replaceTilde *)

Section HomeProofs.

Variable HomeDir : gostring.

Lemma replaceTilde_cases (s : gostring) :
  replaceTilde HomeDir s
  = match s with
    | b :: t => if Byte.eqb b x7e then HomeDir ++ t else s
    | [] => s
    end.
Proof.
  unfold replaceTilde, HasPrefix. destruct s as [|b t]; [reflexivity|].
  change (str "~") with [x7e]. cbn [isPrefix]. rewrite andb_true_r.
  destruct (Byte.eqb b x7e) eqn:Hb.
  - apply Byte.byte_dec_bl in Hb. subst b.
    change (Byte.eqb x7e x7e) with true. unfold Replace.
    destruct (stringEqb [x7e] HomeDir) eqn:Hh.
    + apply stringEqb_eq in Hh. subst HomeDir. reflexivity.
    + reflexivity.
  - assert (Hb2 : Byte.eqb x7e b = false).
    { destruct (Byte.eqb x7e b) eqn:Hb'; [|reflexivity].
      apply Byte.byte_dec_bl in Hb'. subst b. exact Hb. }
    rewrite Hb2. reflexivity.
Qed.

(** X26: [replaceTilde] puts the home directory in the place of a tilde
    at the start of a string and keeps what follows, later tildes too; a
    string that does not start with a tilde is returned as it is. *)
Theorem replaceTilde_leading (s : gostring) :
  replaceTilde HomeDir (x7e :: s) = HomeDir ++ s
  /\ (HasPrefix s (str "~") = false -> replaceTilde HomeDir s = s).
Proof.
  split.
  - rewrite replaceTilde_cases. reflexivity.
  - intros H. unfold replaceTilde. rewrite H. reflexivity.
Qed.

(** X27: when the home directory is not empty and does not start with a
    tilde, [replaceTilde] changes nothing in a string it has expanded. *)
Theorem replaceTilde_idempotent (s : gostring) :
  HomeDir <> [] -> HasPrefix HomeDir (str "~") = false ->
  replaceTilde HomeDir (replaceTilde HomeDir s) = replaceTilde HomeDir s.
Proof.
  intros Hne Hp.
  assert (Hh : forall t, replaceTilde HomeDir (HomeDir ++ t) = HomeDir ++ t).
  { intros t. unfold replaceTilde.
    replace (HasPrefix (HomeDir ++ t) (str "~")) with false; [reflexivity|].
    destruct HomeDir as [|h hs]; [contradiction|]. symmetry. exact Hp. }
  rewrite (replaceTilde_cases s).
  destruct s as [|b t]; [reflexivity|].
  destruct (Byte.eqb b x7e) eqn:Hb; [apply Hh|].
  rewrite replaceTilde_cases. rewrite Hb. reflexivity.
Qed.

End HomeProofs.

Lemma replaceTilde_idempotent_witness :
  replaceTilde (str "/home/lf") (replaceTilde (str "/home/lf") (str "~/a~b"))
  = replaceTilde (str "/home/lf") (str "~/a~b").
Proof. apply replaceTilde_idempotent; [discriminate | reflexivity]. Defined.

(** A tilde before a user name is expanded as well, and an empty home
    directory lets a second tilde come to the front. *)
Example replaceTilde_ex :
  replaceTilde (str "/home/lf") (str "~/a~b") = str "/home/lf/a~b"
  /\ replaceTilde (str "/home/lf") (str "a/~") = str "a/~"
  /\ replaceTilde (str "/home/lf") (str "~root/x") = str "/home/lfroot/x"
  /\ replaceTilde (str "") (replaceTilde (str "") (str "~~")) = str "".
Proof. vm_compute. repeat split. Qed.

(** ** escape without special characters, and the way back from tokenize *)

Lemma escape_loop_plain (rs : list rune) :
  forallb (fun r => negb (isSpecial r)) rs = true ->
  forall buf, escape_loop rs buf = buf ++ rs.
Proof.
  induction rs as [|r rs IH]; intros H buf.
  - cbn. rewrite app_nil_r. reflexivity.
  - cbn [forallb] in H. apply andb_true_iff in H. destruct H as [Hr H].
    apply negb_true_iff in Hr. cbn [escape_loop]. rewrite Hr, (IH H).
    rewrite <- app_assoc. reflexivity.
Qed.

(** X28: [escape] returns a valid UTF-8 string without white space,
    backslash, semicolon and hash as it is. *)
Theorem escape_plain (s : gostring) :
  validString s = true ->
  forallb (fun r => negb (isSpecial r)) (runesOf s) = true ->
  escape s = s.
Proof.
  intros Hv Hp. unfold escape. rewrite (escape_loop_plain _ Hp).
  cbn [app]. apply stringOfRunes_runesOf. exact Hv.
Qed.

Lemma escape_plain_witness : escape (str "photo-2024.jpg") = str "photo-2024.jpg".
Proof. apply escape_plain; reflexivity. Defined.

Lemma map_unescape_escape (args : list gostring) :
  (forall a, In a args -> validString a = true) ->
  map unescape (map escape args) = args.
Proof.
  induction args as [|a args IH]; intros Hv; [reflexivity|].
  cbn [map]. rewrite (proj2 (unescape_escape_iff a)) by (apply Hv; left; reflexivity).
  rewrite IH; [reflexivity|]. intros x Hx. apply Hv. right. exact Hx.
Qed.

(** X29: arguments of valid UTF-8, none but the last ending in a
    backslash, are read back from their escaped forms joined with spaces:
    [tokenize] and then [unescape] on each token give the arguments. *)
Theorem unescape_tokenize_join_escape (args : list gostring) :
  args <> [] ->
  (forall a, In a args -> validString a = true) ->
  (forall a, In a (removelast args) -> endsWithBackslash (runesOf a) = false) ->
  map unescape (tokenize (Join (map escape args) (str " "))) = args.
Proof.
  intros Hne Hv Hargs. unfold tokenize.
  rewrite (tokenize_loop_join args [] Hne Hargs). cbn [app].
  apply map_unescape_escape. exact Hv.
Qed.

Lemma unescape_tokenize_join_escape_witness :
  map unescape
    (tokenize (Join (map escape [str "my file"; str "a#b"; str "c\"]) (str " ")))
  = [str "my file"; str "a#b"; str "c\"].
Proof.
  apply unescape_tokenize_join_escape.
  - discriminate.
  - intros a [<- | [<- | [<- | []]]]; reflexivity.
  - intros a [<- | [<- | []]]; reflexivity.
Defined.

(** ** Bytes and runes of valid UTF-8 *)

(** The encoding of a rune is one byte below 128, or a first byte from 192
    on with one to three continuation bytes. *)
Lemma encodeRune_shape (r : rune) :
  validRune r = true ->
  (r < 128 /\ exists b, encodeRune r = [b] /\ Z_of_byte b = r)
  \/ (128 <= r
      /\ exists b0 conts,
           encodeRune r = b0 :: conts
           /\ 192 <= Z_of_byte b0
           /\ (1 <= length conts <= 3)%nat
           /\ Forall (fun b => isCont (Z_of_byte b) = true) conts).
Proof.
  intros Hv. unfold rune in *.
  assert (Hc : forall x, 0 <= x < 64 -> isCont (Z_of_byte (byte_of_Z (128 + x))) = true).
  { intros x Hx. rewrite Z_of_byte_of_Z by lia. unfold isCont.
    apply andb_true_iff. split; apply Z.leb_le; lia. }
  assert (Hm : forall x, 0 <= x mod 64 < 64) by (intros x; apply Z.mod_pos_bound; lia).
  destruct (validRune_cases r Hv) as [H | [H | [[H H'] | H]]].
  - left. split; [lia|]. exists (byte_of_Z r). split; [apply encodeRune_1; lia|].
    apply Z_of_byte_of_Z. lia.
  - right. split; [lia|]. rewrite (encodeRune_2 r H).
    eexists. eexists. split; [reflexivity|].
    assert (0 <= r / 64 < 32)
      by (split; [apply Z.div_pos; lia | apply Z.div_lt_upper_bound; lia]).
    split; [rewrite Z_of_byte_of_Z; lia|]. split; [cbn; lia|].
    repeat constructor. apply Hc, Hm.
  - right. split; [lia|]. rewrite (encodeRune_3 r H H').
    eexists. eexists. split; [reflexivity|].
    assert (0 <= r / 4096 < 16)
      by (split; [apply Z.div_pos; lia | apply Z.div_lt_upper_bound; lia]).
    split; [rewrite Z_of_byte_of_Z; lia|]. split; [cbn; lia|].
    repeat constructor; apply Hc, Hm.
  - right. split; [lia|]. rewrite (encodeRune_4 r H).
    eexists. eexists. split; [reflexivity|].
    assert (0 <= r / 262144 < 5)
      by (split; [apply Z.div_pos; lia | apply Z.div_lt_upper_bound; lia]).
    split; [rewrite Z_of_byte_of_Z; lia|]. split; [cbn; lia|].
    repeat constructor; apply Hc, Hm.
Qed.

(** A byte below 128 of a valid string is one of its runes. *)
Lemma ascii_byte_rune (s : gostring) (b : byte) :
  validString s = true -> In b s -> Z_of_byte b < 128 ->
  In (Z_of_byte b) (runesOf s).
Proof.
  intros Hv Hin Hb. rewrite <- (stringOfRunes_runesOf s Hv) in Hin.
  pose proof (runesOf_valid s) as Hr.
  induction (runesOf s) as [|r rs IH]; [destruct Hin|].
  cbn [forallb] in Hr. apply andb_true_iff in Hr. destruct Hr as [Hr Hrs].
  change (stringOfRunes (r :: rs)) with (encodeRune r ++ stringOfRunes rs) in Hin.
  apply in_app_or in Hin. destruct Hin as [Hin | Hin]; [|right; apply IH; assumption].
  left. destruct (encodeRune_shape r Hr) as [[_ (b' & E & Eb)] | [_ (b0 & conts & E & H0 & _ & Hc)]].
  - rewrite E in Hin. destruct Hin as [<- | []]. symmetry. exact Eb.
  - rewrite E in Hin. destruct Hin as [<- | Hin]; [lia|].
    rewrite Forall_forall in Hc. specialize (Hc b Hin). unfold isCont in Hc.
    apply andb_true_iff in Hc. destruct Hc as [Hc _]. apply Z.leb_le in Hc. lia.
Qed.

Lemma rangeFrom_encodeRune_app (r : rune) (rest : gostring) (i : nat) :
  validRune r = true ->
  rangeFrom 0 i (encodeRune r ++ rest)
  = (i, r) :: rangeFrom 0 (i + length (encodeRune r)) rest.
Proof.
  intros Hv. pose proof (encodeRune_not_nil r) as Hne.
  destruct (encodeRune r ++ rest) as [|b t] eqn:E.
  - destruct (encodeRune r); [contradiction | discriminate E].
  - rewrite rangeFrom_step, <- E, (decodeRune_encodeRune r rest Hv).
    cbn [fst snd]. rewrite skipn_length_app. reflexivity.
Qed.

Lemma rangeFrom_stringOfRunes_app (rs : list rune) :
  forall (rest : gostring) (i : nat),
  forallb validRune rs = true ->
  rangeFrom 0 i (stringOfRunes rs ++ rest)
  = rangeFrom 0 i (stringOfRunes rs)
    ++ rangeFrom 0 (i + length (stringOfRunes rs)) rest.
Proof.
  induction rs as [|r rs IH]; intros rest i Hv.
  - cbn [stringOfRunes flat_map app length]. rewrite Nat.add_0_r. reflexivity.
  - cbn [forallb] in Hv. apply andb_true_iff in Hv. destruct Hv as [Hr Hrs].
    change (stringOfRunes (r :: rs)) with (encodeRune r ++ stringOfRunes rs).
    rewrite <- app_assoc, !(rangeFrom_encodeRune_app r _ i Hr).
    rewrite (IH rest _ Hrs). cbn [app]. rewrite length_app, Nat.add_assoc.
    reflexivity.
Qed.

(** [range] over [a ++ b] for a valid [a]: the iterations of [a], then
    those of [b] with their indices moved. *)
Lemma rangeFrom_app (a b : gostring) (i : nat) :
  validString a = true ->
  rangeFrom 0 i (a ++ b) = rangeFrom 0 i a ++ rangeFrom 0 (i + length a) b.
Proof.
  intros Hv. rewrite <- (stringOfRunes_runesOf a Hv).
  apply rangeFrom_stringOfRunes_app, runesOf_valid.
Qed.

Lemma runesOf_app (a b : gostring) :
  validString a = true -> runesOf (a ++ b) = runesOf a ++ runesOf b.
Proof.
  intros Hv. unfold runesOf, rangeStr. rewrite (rangeFrom_app a b 0 Hv), map_app.
  f_equal. apply map_snd_rangeFrom.
Qed.

Lemma validString_app (a b : gostring) :
  validString a = true -> validString b = true -> validString (a ++ b) = true.
Proof.
  intros Ha Hb.
  rewrite <- (stringOfRunes_runesOf a Ha), <- (stringOfRunes_runesOf b Hb).
  rewrite <- stringOfRunes_app. apply validString_stringOfRunes.
Qed.

(** ** strings.TrimSpace on a string without space at its ends *)

Lemma byteAt_app (pre l : gostring) (j : nat) :
  byteAt (pre ++ l) (Z.of_nat (length pre + j)) = nth j l x00.
Proof.
  unfold byteAt. rewrite Nat2Z.id, app_nth2 by lia.
  f_equal. lia.
Qed.

Lemma lastRuneStart_found (s : gostring) (p : nat) (lim : Z) :
  lim <= Z.of_nat p ->
  runeStart (byteAt s (Z.of_nat p)) = true ->
  forall (j fuel : nat),
  (j < fuel)%nat ->
  (forall m, (1 <= m <= j)%nat -> runeStart (byteAt s (Z.of_nat (p + m))) = false) ->
  lastRuneStart fuel s (Z.of_nat (p + j)) lim = Z.of_nat p.
Proof.
  intros Hlim Hp j. induction j as [|j IH]; intros fuel Hf Hc.
  - destruct fuel as [|f]; [lia|]. cbn [lastRuneStart].
    rewrite Nat.add_0_r.
    replace (Z.of_nat p <? lim) with false by (symmetry; apply Z.ltb_ge; lia).
    rewrite Hp. reflexivity.
  - destruct fuel as [|f]; [lia|]. cbn [lastRuneStart].
    replace (Z.of_nat (p + S j) <? lim) with false by (symmetry; apply Z.ltb_ge; lia).
    rewrite (Hc (S j)) by lia.
    replace (Z.of_nat (p + S j) - 1) with (Z.of_nat (p + j)) by lia.
    apply IH; [lia|]. intros m Hm. apply Hc. lia.
Qed.

(** [utf8.DecodeLastRuneInString] finds the rune a string ends with. *)
Lemma decodeLastRune_encodeRune (pre : gostring) (r : rune) :
  validRune r = true ->
  decodeLastRune (pre ++ encodeRune r) = (r, length (encodeRune r)).
Proof.
  intros Hv. unfold decodeLastRune.
  destruct (encodeRune_shape r Hv) as [[Hr (b & E & Eb)] | [Hr (b0 & conts & E & H0 & Hl & Hc)]].
  - rewrite E, length_app. cbn [length].
    replace (Z.of_nat (length pre + 1) =? 0) with false by (symmetry; apply Z.eqb_neq; lia).
    replace (Z.of_nat (length pre + 1) - 1) with (Z.of_nat (length pre + 0)) by lia.
    rewrite byteAt_app. cbn [nth]. rewrite Eb.
    replace (r <? 128) with true by (symmetry; apply Z.ltb_lt; exact Hr).
    reflexivity.
  - set (s := pre ++ encodeRune r).
    assert (Hlen : length s = (length pre + S (length conts))%nat)
      by (unfold s; rewrite E, length_app; reflexivity).
    assert (Hcont : forall m, (1 <= m <= length conts)%nat ->
              isCont (Z_of_byte (byteAt s (Z.of_nat (length pre + m)))) = true).
    { intros m Hm. unfold s. rewrite byteAt_app, E.
      destruct m as [|m]; [lia|]. cbn [nth].
      rewrite Forall_forall in Hc. apply Hc, nth_In. lia. }
    rewrite Hlen.
    replace (Z.of_nat (length pre + S (length conts)) =? 0) with false
      by (symmetry; apply Z.eqb_neq; lia).
    replace (Z.of_nat (length pre + S (length conts)) - 1)
      with (Z.of_nat (length pre + length conts)) by lia.
    pose proof (Hcont (length conts)) as Hlast.
    unfold isCont in Hlast at 1.
    replace (Z_of_byte (byteAt s (Z.of_nat (length pre + length conts))) <? 128)
      with false.
    2: { symmetry. apply Z.ltb_ge.
         assert (Hx : (1 <= length conts <= length conts)%nat) by lia.
         specialize (Hlast Hx). apply andb_true_iff in Hlast.
         destruct Hlast as [Hlast _]. apply Z.leb_le in Hlast. exact Hlast. }
    replace (Z.of_nat (length pre + S (length conts)) - 2)
      with (Z.of_nat (length pre + (length conts - 1))) by lia.
    rewrite (lastRuneStart_found s (length pre)).
    + rewrite Z.max_r by lia. rewrite Nat2Z.id.
      unfold s at 1. rewrite skipn_length_app.
      rewrite <- (app_nil_r (encodeRune r)) at 1.
      rewrite (decodeRune_encodeRune r [] Hv), E. cbn [length].
      replace (Z.of_nat (length pre) + Z.of_nat (S (length conts))
               =? Z.of_nat (length pre + S (length conts))) with true
        by (symmetry; apply Z.eqb_eq; lia).
      reflexivity.
    + lia.
    + replace (Z.of_nat (length pre)) with (Z.of_nat (length pre + 0)) by lia.
      unfold s. rewrite byteAt_app, E. cbn [nth]. unfold runeStart, isCont.
      replace (Z_of_byte b0 <=? 191) with false by (symmetry; apply Z.leb_gt; lia).
      rewrite andb_false_r. reflexivity.
    + lia.
    + intros m Hm. unfold runeStart. rewrite Hcont by lia. reflexivity.
Qed.

Lemma trimRightSpace_encodeRune (pre : gostring) (r : rune) :
  validRune r = true -> isSpace r = false ->
  trimRightSpace (pre ++ encodeRune r) = pre ++ encodeRune r.
Proof.
  intros Hv Hs. unfold trimRightSpace.
  set (s := pre ++ encodeRune r).
  pose proof (encodeRune_length r) as Hk.
  assert (Hlen : length s = (length pre + length (encodeRune r))%nat)
    by (unfold s; apply length_app).
  assert (Hidx : lastIndexNotSpace (length s) s (length s) = Some (length pre)).
  { destruct (length s) as [|n] eqn:En; [lia|].
    cbn [lastIndexNotSpace]. rewrite <- En, firstn_all.
    unfold s at 1. rewrite (decodeLastRune_encodeRune pre r Hv), Hs.
    cbn [negb]. f_equal. lia. }
  rewrite Hidx.
  assert (Hall : forall n, (length s <= n)%nat -> firstn n s = s)
    by (intros n Hn; apply firstn_all2; exact Hn).
  destruct (128 <=? Z_of_byte (nth (length pre) s x00)) eqn:Hb.
  - apply Hall. unfold s at 2. rewrite skipn_length_app.
    rewrite <- (app_nil_r (encodeRune r)) at 1.
    rewrite (decodeRune_encodeRune r [] Hv). cbn [snd]. lia.
  - apply Hall. apply Z.leb_gt in Hb.
    destruct (encodeRune_shape r Hv) as [[_ (b & E & _)] | [_ (b0 & conts & E & H0 & _)]].
    + rewrite Hlen, E. cbn [length]. lia.
    + exfalso. unfold s in Hb. rewrite app_nth2, Nat.sub_diag, E in Hb by lia.
      cbn [nth] in Hb. lia.
Qed.

Lemma trimLeftSpace_head (s : gostring) :
  s <> [] -> isSpace (fst (decodeRune s)) = false -> trimLeftSpace s = s.
Proof.
  intros Hne Hs. destruct s as [|b t]; [contradiction|].
  unfold trimLeftSpace, rangeStr. rewrite rangeFrom_step.
  cbn [find snd]. rewrite Hs. reflexivity.
Qed.

(** A valid string that is not empty ends with the encoding of its last
    rune. *)
Lemma valid_last_rune (s : gostring) :
  validString s = true -> s <> [] ->
  exists pre,
    s = pre ++ encodeRune (last (runesOf s) 0)
    /\ validRune (last (runesOf s) 0) = true.
Proof.
  intros Hv Hne. pose proof (runesOf_valid s) as Hr.
  pose proof (stringOfRunes_runesOf s Hv) as E.
  destruct (runesOf s) as [|r0 rs0] eqn:Ers.
  - cbn in E. subst s. contradiction.
  - assert (Hnn : r0 :: rs0 <> []) by discriminate.
    destruct (exists_last Hnn) as (rs' & r & Erl). rewrite Erl in *.
    rewrite last_last. exists (stringOfRunes rs'). split.
    + rewrite <- E, stringOfRunes_app. cbn. rewrite app_nil_r. reflexivity.
    + rewrite forallb_app in Hr. apply andb_true_iff in Hr. destruct Hr as [_ Hr].
      cbn in Hr. rewrite andb_true_r in Hr. exact Hr.
Qed.

(** [strings.TrimSpace] keeps a valid string whose first and last runes
    are no white space. *)
Lemma TrimSpace_id (s : gostring) :
  validString s = true -> s <> [] ->
  isSpace (hd 0 (runesOf s)) = false ->
  isSpace (last (runesOf s) 0) = false ->
  TrimSpace s = s.
Proof.
  intros Hv Hne Hfirst Hlast. unfold TrimSpace.
  rewrite (trimLeftSpace_head s Hne).
  - destruct (valid_last_rune s Hv Hne) as (pre & E & Hr).
    rewrite E at 1 2. apply trimRightSpace_encodeRune; assumption.
  - destruct s as [|b t]; [contradiction|].
    rewrite runesOf_step in Hfirst. exact Hfirst.
Qed.

(** ** The line of a row of plain words *)

Lemma rowLine_cons (w : gostring) (row : list gostring) :
  row <> [] -> rowLine (w :: row) = w ++ str " " ++ rowLine row.
Proof. intros Hne. unfold rowLine. destruct row; [contradiction | reflexivity]. Qed.

Lemma plainWord_spec (w : gostring) :
  plainWord w = true ->
  validString w = true /\ w <> [] /\ runesOf w <> []
  /\ forallb plainRune (runesOf w) = true.
Proof.
  unfold plainWord. intros H. apply andb_true_iff in H. destruct H as [H Hp].
  apply andb_true_iff in H. destruct H as [Hv Hn].
  destruct w as [|b t]; [discriminate Hn|].
  repeat split; try assumption; try discriminate.
  rewrite runesOf_step. discriminate.
Qed.

Lemma plainRune_not_space (r : rune) : plainRune r = true -> isSpace r = false.
Proof.
  unfold plainRune. intros H. repeat (apply andb_true_iff in H; destruct H as [H ?]).
  apply negb_true_iff in H. exact H.
Qed.

Lemma hd_In (A : Type) (d : A) (l : list A) : l <> [] -> In (hd d l) l.
Proof. destruct l; [contradiction | left; reflexivity]. Qed.

Lemma last_In (A : Type) (d : A) (l : list A) : l <> [] -> In (last l d) l.
Proof.
  intros Hne. destruct (exists_last Hne) as (l' & x & ->).
  rewrite last_last. apply in_or_app. right. left. reflexivity.
Qed.

(** The runes of the line of a row: plain runes and single spaces, with a
    plain rune at both ends. *)
Lemma rowLine_runes (row : list gostring) :
  row <> [] -> forallb plainWord row = true ->
  validString (rowLine row) = true
  /\ rowLine row <> []
  /\ runesOf (rowLine row) <> []
  /\ forallb (fun r => plainRune r || (r =? 32)) (runesOf (rowLine row)) = true
  /\ plainRune (hd 0 (runesOf (rowLine row))) = true
  /\ plainRune (last (runesOf (rowLine row)) 0) = true.
Proof.
  induction row as [|w row IH]; [contradiction|]. intros _ H.
  cbn [forallb] in H. apply andb_true_iff in H. destruct H as [Hw Hrow].
  destruct (plainWord_spec w Hw) as (Hv & Hne & Hrne & Hp).
  assert (Hweak : forallb (fun r => plainRune r || (r =? 32)) (runesOf w) = true).
  { rewrite forallb_forall in *. intros r Hr. rewrite (Hp r Hr). reflexivity. }
  destruct row as [|w2 row].
  - change (rowLine [w]) with w. repeat split; try assumption.
    + rewrite forallb_forall in Hp. apply Hp, hd_In, Hrne.
    + rewrite forallb_forall in Hp. apply Hp, last_In, Hrne.
  - assert (Hn2 : w2 :: row <> []) by discriminate.
    destruct (IH Hn2 Hrow) as (Hv' & Hne' & Hrne' & Hp' & _ & Hl').
    rewrite (rowLine_cons w _ Hn2).
    assert (Hsp : validString (str " " ++ rowLine (w2 :: row)) = true)
      by (apply validString_app; [reflexivity | exact Hv']).
    assert (Er : runesOf (w ++ str " " ++ rowLine (w2 :: row))
                 = runesOf w ++ 32 :: runesOf (rowLine (w2 :: row))).
    { rewrite (runesOf_app w _ Hv). f_equal.
      rewrite (runesOf_app (str " ") _ eq_refl). reflexivity. }
    rewrite Er. split; [|split; [|split; [|split; [|split]]]].
    + apply validString_app; assumption.
    + destruct w; [contradiction | discriminate].
    + destruct (runesOf w); [contradiction | discriminate].
    + rewrite forallb_app, Hweak. cbn [forallb andb]. rewrite Hp'.
      rewrite orb_true_r. reflexivity.
    + destruct (runesOf w) as [|r0 rs0] eqn:E; [contradiction|]. cbn [app hd].
      rewrite forallb_forall in Hp. apply Hp. left. reflexivity.
    + rewrite last_app_cons.
      destruct (runesOf (rowLine (w2 :: row))) as [|r1 rs1] eqn:E;
        [contradiction | exact Hl'].
Qed.

(** No byte below 128 other than those of plain runes and the space is in
    the line. *)
Lemma rowLine_no_byte (row : list gostring) (c : byte) :
  row <> [] -> forallb plainWord row = true ->
  Z_of_byte c < 128 ->
  (plainRune (Z_of_byte c) || (Z_of_byte c =? 32)) = false ->
  existsb (Byte.eqb c) (rowLine row) = false.
Proof.
  intros Hne Hrow Hc Hnp.
  destruct (rowLine_runes row Hne Hrow) as (Hv & _ & _ & Hp & _).
  destruct (existsb (Byte.eqb c) (rowLine row)) eqn:E; [|reflexivity].
  apply existsb_exists in E. destruct E as (x & Hx & Ex).
  apply Byte.byte_dec_bl in Ex. subst x.
  pose proof (ascii_byte_rune _ c Hv Hx Hc) as Hin.
  rewrite forallb_forall in Hp. rewrite (Hp _ Hin) in Hnp. discriminate Hnp.
Qed.

Lemma rowLine_plainLine (row : list gostring) :
  row <> [] -> forallb plainWord row = true ->
  (Z.of_nat (length (rowLine row)) <? maxScanTokenSize) = true ->
  plainLine (rowLine row) = true.
Proof.
  intros Hne Hrow Hlen. unfold plainLine.
  rewrite Hlen, (rowLine_no_byte row b_newline Hne Hrow) by (vm_compute; reflexivity).
  rewrite andb_true_r. cbn [negb andb].
  destruct (rev (rowLine row)) as [|b t] eqn:E; [reflexivity|].
  destruct (Byte.eqb b b_return) eqn:Eb; [|reflexivity].
  apply Byte.byte_dec_bl in Eb. subst b. exfalso.
  pose proof (rowLine_no_byte row b_return Hne Hrow) as Hcr.
  assert (Hin : In b_return (rowLine row))
    by (apply in_rev; rewrite E; left; reflexivity).
  assert (Hex : existsb (Byte.eqb b_return) (rowLine row) = true).
  { apply existsb_exists. exists b_return. split; [exact Hin | reflexivity]. }
  rewrite Hcr in Hex by (vm_compute; reflexivity). discriminate Hex.
Qed.

Lemma stripComment_no_hash (line : gostring) :
  existsb (Byte.eqb x23) line = false ->
  forall q, stripComment line q = line.
Proof.
  induction line as [|b line IH]; intros H q; [reflexivity|].
  cbn [existsb] in H. apply orb_false_iff in H. destruct H as [Hb H].
  cbn [stripComment].
  replace (Z_of_byte b =? r_hash) with false.
  - rewrite andb_false_r, (IH H). reflexivity.
  - symmetry. apply Z.eqb_neq. intros E.
    assert (b = x23) by (rewrite <- (byte_of_Z_of_byte b), E; reflexivity).
    subst b. discriminate Hb.
Qed.

(** ** strings.FieldsFunc on the line of a row *)

Lemma fieldSep_plain (r : rune) :
  plainRune r = true -> fieldSep noQuotes r = (noQuotes, false).
Proof.
  unfold plainRune. intros H.
  apply andb_true_iff in H. destruct H as [H H4].
  apply andb_true_iff in H. destruct H as [H H3].
  apply andb_true_iff in H. destruct H as [H1 H2].
  apply negb_true_iff in H1, H2, H3.
  unfold fieldSep, toggle, noQuotes. rewrite H2, H3, H1. reflexivity.
Qed.

Lemma fields_word (l : list (nat * rune)) :
  forallb plainRune (map snd l) = true ->
  forall (start : option nat) (spans : list (nat * nat)),
  fold_left (fields_step fieldSep) l (mkFieldsState noQuotes start spans)
  = mkFieldsState noQuotes
      (match start, l with
       | Some b, _ => Some b
       | None, (i, _) :: _ => Some i
       | None, [] => None
       end) spans.
Proof.
  induction l as [|[i r] l IH]; intros H start spans.
  - destruct start; reflexivity.
  - cbn [map snd forallb] in H. apply andb_true_iff in H. destruct H as [Hr H].
    cbn [fold_left]. unfold fields_step at 2. cbn [fs_closure fs_start fs_spans].
    rewrite (fieldSep_plain r Hr).
    destruct start as [b|]; rewrite (IH H); reflexivity.
Qed.

Lemma rangeFrom_head (s : gostring) (i : nat) :
  s <> [] -> exists r post, rangeFrom 0 i s = (i, r) :: post.
Proof.
  destruct s as [|b t]; [contradiction|]. intros _.
  rewrite rangeFrom_step. eauto.
Qed.

Lemma fields_row (row : list gostring) :
  row <> [] -> forallb plainWord row = true ->
  forall (i : nat) (spans : list (nat * nat)),
  exists b,
    fold_left (fields_step fieldSep) (rangeFrom 0 i (rowLine row))
      (mkFieldsState noQuotes None spans)
    = mkFieldsState noQuotes (Some b) (spans ++ spansOf i (removelast row))
    /\ spans ++ spansOf i (removelast row) ++ [(b, (i + length (rowLine row))%nat)]
       = spans ++ spansOf i row.
Proof.
  induction row as [|w row IH]; [contradiction|]. intros _ H i spans.
  cbn [forallb] in H. apply andb_true_iff in H. destruct H as [Hw Hrow].
  destruct (plainWord_spec w Hw) as (Hv & Hne & Hrne & Hp).
  assert (Hpw : forall j, forallb plainRune (map snd (rangeFrom 0 j w)) = true).
  { intros j. rewrite (map_snd_rangeFrom 0 j 0 w). exact Hp. }
  destruct (rangeFrom_head w i Hne) as (r0 & post & Eh).
  destruct row as [|w2 row].
  - change (rowLine [w]) with w. cbn [removelast spansOf].
    exists i. rewrite (fields_word _ (Hpw i)), Eh, app_nil_r. split; reflexivity.
  - assert (Hn2 : w2 :: row <> []) by discriminate.
    rewrite (rowLine_cons w _ Hn2).
    rewrite (rangeFrom_app w _ i Hv), fold_left_app.
    rewrite (fields_word _ (Hpw i)), Eh.
    change (str " ") with (encodeRune 32).
    rewrite (rangeFrom_encodeRune_app 32 _ _ eq_refl).
    cbn [fold_left]. unfold fields_step at 2.
    cbn [fs_closure fs_start fs_spans].
    change (fieldSep noQuotes 32) with (noQuotes, true).
    change (length (encodeRune 32)) with 1%nat.
    destruct (IH Hn2 Hrow (i + length w + 1)%nat (spans ++ [(i, (i + length w)%nat)]))
      as (b & Ef & Es).
    exists b. split.
    + rewrite Ef. f_equal.
      change (removelast (w :: w2 :: row)) with (w :: removelast (w2 :: row)).
      cbn [spansOf]. rewrite <- app_assoc. reflexivity.
    + change (removelast (w :: w2 :: row)) with (w :: removelast (w2 :: row)).
      cbn [spansOf]. rewrite <- !app_assoc in Es. cbn [app] in Es |- *.
      rewrite !length_app. change (length (encodeRune 32)) with 1%nat.
      rewrite !Nat.add_assoc. exact Es.
Qed.

Lemma substr_spansOf (row : list gostring) :
  forall pre : gostring,
  map (fun be => substr (pre ++ rowLine row) (fst be) (snd be))
      (spansOf (length pre) row)
  = row.
Proof.
  induction row as [|w row IH]; intros pre; [reflexivity|].
  cbn [spansOf map fst snd]. f_equal.
  - unfold substr.
    replace (length pre + length w - length pre)%nat with (length w) by lia.
    rewrite skipn_length_app.
    destruct row as [|w2 row].
    + change (rowLine [w]) with w. apply firstn_all.
    + rewrite rowLine_cons by discriminate. apply firstn_length_app.
  - destruct row as [|w2 row]; [reflexivity|].
    rewrite rowLine_cons by discriminate.
    replace (pre ++ w ++ str " " ++ rowLine (w2 :: row))
      with ((pre ++ w ++ str " ") ++ rowLine (w2 :: row))
      by (rewrite <- !app_assoc; reflexivity).
    replace (length pre + length w + 1)%nat with (length (pre ++ w ++ str " "))
      by (rewrite !length_app; change (length (str " ")) with 1%nat; lia).
    apply IH.
Qed.

(** The candidate fields of the line of a row are its words. *)
Lemma candidateFields_rowLine (row : list gostring) :
  row <> [] -> forallb plainWord row = true ->
  candidateFields (rowLine row) = Some row.
Proof.
  intros Hne Hrow.
  destruct (rowLine_runes row Hne Hrow) as (Hv & Hnn & Hrn & Hp & Hh & Hl).
  unfold candidateFields.
  rewrite (stripComment_no_hash (rowLine row))
    by (apply (rowLine_no_byte row x23 Hne Hrow); vm_compute; reflexivity).
  rewrite (TrimSpace_id _ Hv Hnn (plainRune_not_space _ Hh) (plainRune_not_space _ Hl)).
  assert (Hm : forall X : list gostring,
            match rowLine row with [] => None | _ :: _ => Some X end = Some X)
    by (intros X; destruct (rowLine row); [contradiction | reflexivity]).
  rewrite Hm. f_equal. unfold FieldsFunc, rangeStr.
  destruct (fields_row row Hne Hrow 0 []) as (s0 & Ef & Es).
  rewrite Ef. cbn [fs_start fs_spans fst app Nat.add] in *.
  rewrite Es. apply (substr_spansOf row []).
Qed.

Lemma stripQuotes_plainWord (w : gostring) :
  plainWord w = true -> stripQuotes w = w.
Proof.
  intros Hw. destruct (plainWord_spec w Hw) as (Hv & _ & _ & Hp).
  unfold stripQuotes. rewrite (stripQuotes_loop_plain _ noQuotes []).
  - cbn [app]. apply stringOfRunes_runesOf. exact Hv.
  - rewrite forallb_forall in *. intros r Hr. specialize (Hp r Hr).
    unfold plainRune in Hp.
    apply andb_true_iff in Hp. destruct Hp as [Hp _].
    apply andb_true_iff in Hp. destruct Hp as [Hp H3].
    apply andb_true_iff in Hp. destruct Hp as [_ H2].
    apply negb_true_iff in H2, H3. rewrite H2, H3. reflexivity.
Qed.

Lemma map_stripQuotes_plain (row : list gostring) :
  forallb plainWord row = true -> map stripQuotes row = row.
Proof.
  induction row as [|w row IH]; intros H; [reflexivity|].
  cbn [forallb] in H. apply andb_true_iff in H. destruct H as [Hw H].
  cbn [map]. rewrite (stripQuotes_plainWord w Hw), (IH H). reflexivity.
Qed.

Lemma plainRow_spec (min_cols max_cols : Z) (row : list gostring) :
  plainRow min_cols max_cols row = true ->
  forallb plainWord row = true /\ row <> []
  /\ outOfBounds row min_cols max_cols = false
  /\ (Z.of_nat (length (rowLine row)) <? maxScanTokenSize) = true.
Proof.
  unfold plainRow. intros H.
  apply andb_true_iff in H. destruct H as [H H4].
  apply andb_true_iff in H. destruct H as [H H3].
  apply andb_true_iff in H. destruct H as [H1 H2].
  apply negb_true_iff in H3. repeat split; try assumption.
  intros ->. discriminate H2.
Qed.

Lemma scan_loop_table (min_cols max_cols : Z) (rows : list (list gostring)) :
  forallb (plainRow min_cols max_cols) rows = true ->
  scan_loop (tableText rows) [] = map rowLine rows.
Proof.
  induction rows as [|row rows IH]; intros H; [reflexivity|].
  cbn [forallb] in H. apply andb_true_iff in H. destruct H as [Hr H].
  destruct (plainRow_spec _ _ _ Hr) as (Hw & Hne & _ & Hlen).
  pose proof (rowLine_plainLine row Hne Hw Hlen) as Hpl.
  unfold plainLine in Hpl.
  apply andb_true_iff in Hpl. destruct Hpl as [Hpl _].
  apply andb_true_iff in Hpl. destruct Hpl as [Hnl Hcr].
  apply negb_true_iff in Hnl.
  unfold tableText. cbn [flat_map map]. rewrite <- app_assoc.
  rewrite (scan_loop_line (rowLine row) _ [] Hnl). cbn [app].
  rewrite Hlen, (dropCR_plain _ Hcr). f_equal. apply IH. exact H.
Qed.

Lemma readArrays_loop_table (min_cols max_cols : Z) (rows : list (list gostring)) :
  forallb (plainRow min_cols max_cols) rows = true ->
  forall arrays,
  readArrays_loop (map rowLine rows) min_cols max_cols arrays = (arrays ++ rows, None).
Proof.
  induction rows as [|row rows IH]; intros H arrays.
  - cbn. rewrite app_nil_r. reflexivity.
  - cbn [forallb] in H. apply andb_true_iff in H. destruct H as [Hr H].
    destruct (plainRow_spec _ _ _ Hr) as (Hw & Hne & Hb & _).
    cbn [map readArrays_loop].
    rewrite (candidateFields_rowLine row Hne Hw), Hb, (map_stripQuotes_plain row Hw).
    rewrite (IH H), <- app_assoc. reflexivity.
Qed.

(** X30: a table of plain words, one row on each line with single spaces
    between the words, is read back by [readArrays] as its rows. *)
Theorem readArrays_plain_rows (rows : list (list gostring)) (min_cols max_cols : Z) :
  forallb (plainRow min_cols max_cols) rows = true ->
  readArrays (tableText rows) min_cols max_cols = (rows, None).
Proof.
  intros H. unfold readArrays, scanLines.
  rewrite (scan_loop_table min_cols max_cols rows H).
  apply (readArrays_loop_table min_cols max_cols rows H []).
Qed.

Lemma readArrays_plain_rows_witness :
  readArrays (tableText [[str "map"; str "gg"; str "top"]; [str "set"; str "hidden"]]) 2 3
  = ([[str "map"; str "gg"; str "top"]; [str "set"; str "hidden"]], None).
Proof. apply readArrays_plain_rows. vm_compute. reflexivity. Defined.
